(** * A shallow embedding of the wing B+tree (src/storage/bplus-tree.{hpp,cpp})

    The tree lives in pages handed out by a page manager.  The page manager
    itself (page-manager.hpp) is not among the sources at hand, so its
    sorted-page primitive is modelled from the design document; everything
    else below follows bplus-tree.hpp and bplus-tree.cpp line by line. *)

From Stdlib Require Import ZArith List Lia Bool Strings.Byte Strings.String.
From Stdlib Require Import DecimalString.
From stdpp Require Import base gmap list.
Import ListNotations.
Open Scope Z_scope.

(** ** Bytes, machine integers and raw memory *)

Definition bytes := list byte.

(** Keys and values in the examples are written as string literals. *)
Definition B (s : string) : bytes := list_byte_of_string s.

Definition byte_of_Z (z : Z) : byte :=
  match Byte.of_N (Z.to_N (z mod 256)) with
  | Some b => b
  | None => x00
  end.

Definition Z_of_byte (b : byte) : Z := Z.of_N (Byte.to_N b).

(** The object representation of an [n]-byte unsigned integer
    (little-endian, as on the platforms the tree is built for). *)
Fixpoint le_bytes (n : nat) (z : Z) : bytes :=
  match n with
  | O => []
  | S n' => byte_of_Z z :: le_bytes n' (z / 256)
  end.

Fixpoint le_int (bs : bytes) : Z :=
  match bs with
  | [] => 0
  | b :: bs' => Z_of_byte b + 256 * le_int bs'
  end.

(** [uint8_t] and [pgid_t] (a 32-bit page id) arithmetic wraps around. *)
Definition wrap8 (z : Z) : Z := z mod 2 ^ 8.
Definition wrap32 (z : Z) : Z := z mod 2 ^ 32.

Definition pgid_t := Z.
Definition sizeof_pgid_t : nat := 4.

(** [sizeof(std::string_view)] on the LP64 targets of the source (it
    asserts [sizeof(size_t) == 8]): a pointer and a length. *)
Definition sizeof_string_view : nat := 16.

(** How an operation can go wrong. *)
Inductive fault : Type :=
  | InvalidArgument   (* std::invalid_argument, thrown by std::stoi *)
  | OutOfRange        (* std::out_of_range, thrown by substr / std::stoi *)
  | BadRead           (* a read past the end of a buffer or of a slot array *)
  | PageFault         (* the page manager is asked for a page it lacks *)
  | AssertFailed      (* a failed assert *)
  | EmptyStack        (* top() / pop() of an empty std::stack *)
  | OutOfFuel.        (* the step budget of a loop of the model ran out *)

Inductive outcome (A : Type) : Type :=
  | Ok (a : A)
  | Fault (e : fault).
Arguments Ok {A} a.
Arguments Fault {A} e.

Definition obind {A C} (x : outcome A) (f : A -> outcome C) : outcome C :=
  match x with
  | Ok a => f a
  | Fault e => Fault e
  end.

Declare Scope outcome_scope.
Delimit Scope outcome_scope with out.
Notation "'let?' x ':=' c 'in' k" := (obind c (fun x => k))
  (at level 10, x name, c at level 100, k at level 200) : outcome_scope.
Open Scope outcome_scope.

(** Raw memory behind a [char*]: an unbounded array of bytes. *)
Definition memory := nat -> byte.

Definition mem_read (m : memory) (off n : nat) : bytes :=
  map m (seq off n).

Definition mem_write (m : memory) (off : nat) (src : bytes) : memory :=
  fun i =>
    if (off <=? i)%nat && (i <? off + length src)%nat
    then nth (i - off) src x00
    else m i.

(** [memcpy(dst + off, src, n)]: copying more than the source object holds
    reads past its end. *)
Definition memcpy (dst : memory) (off : nat) (src : bytes) (n : nat)
  : outcome memory :=
  if (n <=? length src)%nat
  then Ok (mem_write dst off (firstn n src))
  else Fault BadRead.

(** [std::string_view::substr(pos, n)] throws when [pos > size()] and
    otherwise clamps the count. *)
Definition substr (s : bytes) (pos n : nat) : outcome bytes :=
  if (pos <=? length s)%nat
  then Ok (firstn n (skipn pos s))
  else Fault OutOfRange.

Definition substr_from (s : bytes) (pos : nat) : outcome bytes :=
  if (pos <=? length s)%nat
  then Ok (skipn pos s)
  else Fault OutOfRange.

(** ** [std::stoi] on a C string *)

Fixpoint c_str (s : bytes) : bytes :=
  match s with
  | [] => []
  | b :: s' => if Z_of_byte b =? 0 then [] else b :: c_str s'
  end.

Definition isspace (b : byte) : bool :=
  let c := Z_of_byte b in
  (c =? 32) || ((9 <=? c) && (c <=? 13)).

Definition isdigit (b : byte) : bool :=
  let c := Z_of_byte b in
  (48 <=? c) && (c <=? 57).

Fixpoint skip_spaces (s : bytes) : bytes :=
  match s with
  | b :: s' => if isspace b then skip_spaces s' else s
  | [] => []
  end.

Fixpoint read_digits (acc : Z) (s : bytes) : Z :=
  match s with
  | b :: s' =>
      if isdigit b then read_digits (10 * acc + (Z_of_byte b - 48)) s' else acc
  | [] => acc
  end.

Definition INT_MIN : Z := - 2 ^ 31.
Definition INT_MAX : Z := 2 ^ 31 - 1.

Definition stoi (s : bytes) : outcome Z :=
  let s := skip_spaces s in
  let '(neg, s) :=
    match s with
    | b :: s' =>
        if Z_of_byte b =? 45 then (true, s')
        else if Z_of_byte b =? 43 then (false, s')
        else (false, s)
    | [] => (false, s)
    end in
  match s with
  | b :: _ =>
      if isdigit b then
        let v := read_digits 0 s in
        let v := if neg : bool then - v else v in
        if (INT_MIN <=? v) && (v <=? INT_MAX) then Ok v else Fault OutOfRange
      else Fault InvalidArgument
  | [] => Fault InvalidArgument
  end.

(** ** Slot codecs (bplus-tree.cpp) *)

Record InnerSlot : Type := mkInnerSlot {
  next : pgid_t;
  strict_upper_bound : bytes
}.

Record LeafSlot : Type := mkLeafSlot {
  key : bytes;
  value : bytes
}.

Definition InnerSlotSize (slot : InnerSlot) : nat :=
  (sizeof_pgid_t + length (strict_upper_bound slot))%nat.

Section Codecs.

(** [pgoff_t] is declared in page-manager.hpp; only its size matters. *)
Variable sizeof_pgoff_t : nat.

Definition wrap_pgoff (z : Z) : Z := z mod 2 ^ (8 * Z.of_nat sizeof_pgoff_t).

Definition LeafSlotSize (slot : LeafSlot) : nat :=
  (sizeof_pgoff_t + length (key slot) + length (value slot))%nat.

Definition InnerSlotParse (slot : bytes) : outcome InnerSlot :=
  let? s1 := substr slot 0 sizeof_pgid_t in
  let? n := stoi (c_str s1) in
  let? k := substr_from slot sizeof_pgid_t in
  Ok (mkInnerSlot (wrap32 n) k).

Definition InnerSlotSerialize (s : memory) (slot : InnerSlot)
  : outcome memory :=
  let next_len := sizeof_pgid_t in
  let strict_len := sizeof_string_view in
  let? s := memcpy s 0 (le_bytes sizeof_pgid_t (next slot)) next_len in
  memcpy s next_len (strict_upper_bound slot) strict_len.

Definition LeafSlotParse (slot : bytes) : outcome LeafSlot :=
  if (sizeof_pgoff_t <=? length slot)%nat then
    let key_leng := Z.to_nat (le_int (firstn sizeof_pgoff_t slot)) in
    let? k := substr slot sizeof_pgoff_t key_leng in
    let? v := substr_from slot (key_leng + sizeof_pgoff_t) in
    Ok (mkLeafSlot k v)
  else Fault BadRead.

Definition LeafSlotSerialize (s : memory) (slot : LeafSlot)
  : outcome memory :=
  let key_len := Z.to_nat (wrap_pgoff (Z.of_nat sizeof_string_view)) in
  let value_len := Z.to_nat (wrap_pgoff (Z.of_nat sizeof_string_view)) in
  let? s := memcpy s 0 (le_bytes sizeof_pgoff_t (Z.of_nat key_len))
              sizeof_pgoff_t in
  let? s := memcpy s sizeof_pgoff_t (key slot) key_len in
  memcpy s (key_len + sizeof_pgoff_t) (value slot) value_len.

(** What a caller gets from [std::string_view(addr, Size(slot))] after
    serialising into [addr]. *)
Definition inner_slot_bytes (addr : memory) (slot : InnerSlot)
  : outcome bytes :=
  let? m := InnerSlotSerialize addr slot in
  Ok (mem_read m 0 (InnerSlotSize slot)).

Definition leaf_slot_bytes (addr : memory) (slot : LeafSlot)
  : outcome bytes :=
  let? m := LeafSlotSerialize addr slot in
  Ok (mem_read m 0 (LeafSlotSize slot)).

End Codecs.

(** ** The page manager

    Pages are kept in a finite map from page ids to page contents; a page
    id is allocated exactly when it is in the domain of the map.  Page id 0
    is never handed out: the tree uses it as the "no sibling" sentinel. *)

Record SortedPage : Type := mkSortedPage {
  slots : list bytes;
  special : bytes
}.

Inductive Page : Type :=
  | PlainPage (data : bytes)
  | SortedPg (sp : SortedPage).

Abbreviation PageManager := (gmap Z Page).

(** Stateful, fallible computations over the page manager.  A fault
    leaves the pages as they were when it struck: nothing is rolled back. *)
Definition M (A : Type) : Type := PageManager -> outcome A * PageManager.

Definition ret {A} (a : A) : M A := fun st => (Ok a, st).

Definition bind {A C} (m : M A) (f : A -> M C) : M C :=
  fun st =>
    match m st with
    | (Ok a, st') => f a st'
    | (Fault e, st') => (Fault e, st')
    end.

Definition throw {A} (e : fault) : M A := fun st => (Fault e, st).

Definition lift {A} (o : outcome A) : M A := fun st => (o, st).

Notation "'do' x <- c ; k" := (bind c (fun x => k))
  (at level 10, x name, c at level 100, k at level 200) : outcome_scope.
Notation "'do' ' p <- c ; k" := (bind c (fun x => match x with p => k end))
  (at level 10, p pattern, c at level 100, k at level 200) : outcome_scope.
Notation "'run' c ; k" := (bind c (fun _ => k))
  (at level 10, c at level 100, k at level 200) : outcome_scope.

(** *** Allocation and plain pages

    page-manager.hpp is not among the sources, so the interface the tree
    consumes is modelled from the design document.  A handle is the page
    id; every operation looks the page up again, so asking for a page that
    is not allocated, or for a view the page does not have, is a
    [PageFault]. *)

(** The id the next allocation returns: one more than the largest id in
    use, hence never 0. *)
Definition fresh_pgid (st : PageManager) : pgid_t :=
  1 + map_fold (fun k _ acc => Z.max k acc) 0 st.

Definition write_at (data : bytes) (off : nat) (src : bytes) : bytes :=
  firstn off data ++ src ++ skipn (off + length src) data.

Section PageManagerModel.

Variable PAGE_SIZE : nat.

(** Modelled from the spec: [allocate() -> pgid], "reserve a fresh page;
    contents are undefined until initialized" (PageManager::Allocate is
    missing).  The fresh page is zero-filled, the most favourable reading
    of "undefined". *)
Definition Allocate : M pgid_t :=
  fun st =>
    let id := fresh_pgid st in
    (Ok id, <[id := PlainPage (repeat x00 PAGE_SIZE)]> st).

(** Modelled from the spec: [free(pgid)], "release a page"
    (PageManager::Free is missing). *)
Definition Free (id : pgid_t) : M unit :=
  fun st =>
    match st !! id with
    | Some _ => (Ok tt, delete id st)
    | None => (Fault PageFault, st)
    end.

(** Modelled from the spec: [get_plain_page(pgid) -> PlainPage], "raw byte
    access" (PageManager::GetPlainPage is missing). *)
Definition GetPlainPage (id : pgid_t) : M pgid_t :=
  fun st =>
    match st !! id with
    | Some (PlainPage _) => (Ok id, st)
    | _ => (Fault PageFault, st)
    end.

Definition plain_data (pg : pgid_t) : M bytes :=
  fun st =>
    match st !! pg with
    | Some (PlainPage d) => (Ok d, st)
    | _ => (Fault PageFault, st)
    end.

(** Modelled from the spec: [read(off, len)] of a plain page
    (PlainPage::Read is missing). *)
Definition Read (pg : pgid_t) (off len : nat) : M bytes :=
  do d <- plain_data pg;
  if (off + len <=? length d)%nat
  then ret (firstn len (skipn off d))
  else throw BadRead.

(** Modelled from the spec: [write(off, bytes)] of a plain page
    (PlainPage::Write is missing). *)
Definition Write (pg : pgid_t) (off : nat) (src : bytes) : M unit :=
  do d <- plain_data pg;
  if (off + length src <=? length d)%nat
  then fun st => (Ok tt, <[pg := PlainPage (write_at d off src)]> st)
  else throw BadRead.

(** *** Sorted pages *)

(** The slot-versus-key comparator of a sorted page.  It parses the slot,
    so it can fail. *)
Definition KeyCompare := bytes -> bytes -> outcome comparison.

(** Modelled from the spec: [get_sorted_page(pgid, key_cmp, slot_cmp)],
    the "typed view" of a page (PageManager::GetSortedPage is missing). *)
Definition GetSortedPage (id : pgid_t) : M pgid_t :=
  fun st =>
    match st !! id with
    | Some (SortedPg _) => (Ok id, st)
    | _ => (Fault PageFault, st)
    end.

Definition sorted (pg : pgid_t) : M SortedPage :=
  fun st =>
    match st !! pg with
    | Some (SortedPg sp) => (Ok sp, st)
    | _ => (Fault PageFault, st)
    end.

Definition put_sorted (pg : pgid_t) (sp : SortedPage) : M unit :=
  fun st =>
    match st !! pg with
    | Some _ => (Ok tt, <[pg := SortedPg sp]> st)
    | None => (Fault PageFault, st)
    end.

(** Modelled from the spec: [init(special_len)], which "establish[es] the
    special-region size before first use" (SortedPage::Init is missing).
    The page starts without slots and with a zeroed special region, so
    that a fresh leaf has no siblings. *)
Definition Init (pg : pgid_t) (special_size : nat) : M unit :=
  put_sorted pg (mkSortedPage [] (repeat x00 special_size)).

(** Modelled from the spec: [alloc_sorted_page], "allocate + view"
    (PageManager::AllocSortedPage is missing). *)
Definition AllocSortedPage : M pgid_t := Allocate.

(** Modelled from the spec: [SlotNum()] (SortedPage::SlotNum is missing). *)
Definition SlotNum (pg : pgid_t) : M nat :=
  do sp <- sorted pg; ret (length (slots sp)).

(** Modelled from the spec: [IsEmpty()] (SortedPage::IsEmpty is missing). *)
Definition IsEmpty_page (pg : pgid_t) : M bool :=
  do n <- SlotNum pg; ret (n =? 0)%nat.

(** Modelled from the spec: [Slot(i)] (SortedPage::Slot is missing); an
    index past the last slot is a bad read. *)
Definition Slot (pg : pgid_t) (i : nat) : M bytes :=
  do sp <- sorted pg;
  match nth_error (slots sp) i with
  | Some s => ret s
  | None => throw BadRead
  end.

(** Modelled from the spec: [LowerBound(key)], the "smallest slot index
    with slot_key >= key" (SortedPage::LowerBound is missing). *)
Fixpoint lower_bound (cmp : KeyCompare) (k : bytes) (ss : list bytes)
  (i : nat) : outcome nat :=
  match ss with
  | [] => Ok i
  | s :: ss' =>
      let? c := cmp s k in
      match c with
      | Lt => lower_bound cmp k ss' (S i)
      | _ => Ok i
      end
  end.

(** Modelled from the spec: [UpperBound(key)], the "smallest slot index
    with slot_key > key" (SortedPage::UpperBound is missing). *)
Fixpoint upper_bound (cmp : KeyCompare) (k : bytes) (ss : list bytes)
  (i : nat) : outcome nat :=
  match ss with
  | [] => Ok i
  | s :: ss' =>
      let? c := cmp s k in
      match c with
      | Gt => Ok i
      | _ => upper_bound cmp k ss' (S i)
      end
  end.

(** Modelled from the spec: [Find(key)], the "slot index of an equal key,
    or empty" (SortedPage::Find is missing): the slot at the lower bound,
    if its key is equal. *)
Definition find (cmp : KeyCompare) (k : bytes) (ss : list bytes)
  : outcome (option nat) :=
  let? i := lower_bound cmp k ss 0 in
  match nth_error ss i with
  | Some s =>
      let? c := cmp s k in
      match c with
      | Eq => Ok (Some i)
      | _ => Ok None
      end
  | None => Ok None
  end.

Definition LowerBound_page (cmp : KeyCompare) (pg : pgid_t) (k : bytes)
  : M nat :=
  do sp <- sorted pg; lift (lower_bound cmp k (slots sp) 0).

Definition UpperBound_page (cmp : KeyCompare) (pg : pgid_t) (k : bytes)
  : M nat :=
  do sp <- sorted pg; lift (upper_bound cmp k (slots sp) 0).

Definition Find (cmp : KeyCompare) (pg : pgid_t) (k : bytes)
  : M (option nat) :=
  do sp <- sorted pg; lift (find cmp k (slots sp)).

(** Modelled from the spec: [FindSlot(key)], the "slot content of an equal
    key, or empty" (SortedPage::FindSlot is missing). *)
Definition FindSlot (cmp : KeyCompare) (pg : pgid_t) (k : bytes)
  : M (option bytes) :=
  do sp <- sorted pg;
  do r <- lift (find cmp k (slots sp));
  match r with
  | Some i => ret (nth_error (slots sp) i)
  | None => ret None
  end.

Definition page_used (sp : SortedPage) : nat :=
  (length (special sp) + list_sum (map (@length byte) (slots sp)))%nat.

(** Modelled from the spec: [IsInsertable(slot_bytes)], "whether a slot of
    the given size fits" (SortedPage::IsInsertable is missing): the slots
    and the special region together may take [PAGE_SIZE] bytes. *)
Definition fits (sp : SortedPage) (slot : bytes) : bool :=
  (page_used sp + length slot <=? PAGE_SIZE)%nat.

Definition IsInsertable (pg : pgid_t) (slot : bytes) : M bool :=
  do sp <- sorted pg; ret (fits sp slot).

Definition insert_at (i : nat) (slot : bytes) (ss : list bytes)
  : list bytes :=
  firstn i ss ++ slot :: skipn i ss.

(** Modelled from the spec: [InsertBeforeSlot(i, slot_bytes)], the
    "in-place insert" (SortedPage::InsertBeforeSlot is missing).  [Insert]
    returns its result as a [bool]: whether the slot went in. *)
Definition InsertBeforeSlot (pg : pgid_t) (i : nat) (slot : bytes)
  : M bool :=
  do sp <- sorted pg;
  if (length (slots sp) <? i)%nat then throw BadRead
  else if fits sp slot then
    run put_sorted pg (mkSortedPage (insert_at i slot (slots sp)) (special sp));
    ret true
  else ret false.

Definition delete_at (i : nat) (ss : list bytes) : list bytes :=
  firstn i ss ++ skipn (S i) ss.

(** Modelled from the spec: [DeleteSlot(i)] (SortedPage::DeleteSlot is
    missing). *)
Definition DeleteSlot (pg : pgid_t) (i : nat) : M unit :=
  do sp <- sorted pg;
  if (i <? length (slots sp))%nat
  then put_sorted pg (mkSortedPage (delete_at i (slots sp)) (special sp))
  else throw BadRead.

(** Modelled from the spec: [DeleteSlotByKey(key)]
    (SortedPage::DeleteSlotByKey is missing). *)
Definition DeleteSlotByKey (cmp : KeyCompare) (pg : pgid_t) (k : bytes)
  : M unit :=
  do r <- Find cmp pg k;
  match r with
  | Some i => DeleteSlot pg i
  | None => ret tt
  end.

(** Modelled from the spec: [SplitInsert(new_page, slot_bytes, i)], "move
    the high half of slots into new_page and insert slot_bytes at position
    i on whichever side it now belongs", so that "both resulting pages are
    non-empty" (SortedPage::SplitInsert is missing).  The slots with the
    new one in place are cut in two; the low half, the larger one when the
    count is odd, stays. *)
Definition SplitInsert (pg new_page : pgid_t) (slot : bytes) (i : nat)
  : M unit :=
  do sp <- sorted pg;
  do np <- sorted new_page;
  if (length (slots sp) <? i)%nat then throw BadRead
  else
    let all := insert_at i slot (slots sp) in
    let mid := Nat.div2 (S (length all)) in
    run put_sorted pg (mkSortedPage (firstn mid all) (special sp));
    put_sorted new_page (mkSortedPage (slots np ++ skipn mid all) (special np)).

(** Modelled from the spec: [ReadSpecial(offset, len)], "access to the
    fixed tail region" (SortedPage::ReadSpecial is missing). *)
Definition ReadSpecial (pg : pgid_t) (off len : nat) : M bytes :=
  do sp <- sorted pg;
  if (off + len <=? length (special sp))%nat
  then ret (firstn len (skipn off (special sp)))
  else throw BadRead.

(** Modelled from the spec: [WriteSpecial(offset, bytes)]
    (SortedPage::WriteSpecial is missing). *)
Definition WriteSpecial (pg : pgid_t) (off : nat) (src : bytes) : M unit :=
  do sp <- sorted pg;
  if (off + length src <=? length (special sp))%nat
  then put_sorted pg (mkSortedPage (slots sp) (write_at (special sp) off src))
  else throw BadRead.

End PageManagerModel.

(** ** The tree (bplus-tree.hpp) *)

(** A tree instance: the meta page id and the comparator.  The reference
    [pgm_] to the page manager is the state threaded through [M]. *)
Record BPlusTree : Type := mkBPlusTree {
  meta_pgid_ : pgid_t;
  comp_ : bytes -> bytes -> comparison
}.

(** An iterator: the members [meta_pgid_], [page_id_] and [slot_id_]. *)
Record Iter : Type := mkIter {
  iter_meta_pgid_ : pgid_t;
  page_id_ : pgid_t;
  slot_id_ : nat
}.

Section Tree.

(** Sizes fixed by page-manager.hpp. *)
Variable sizeof_pgoff_t : nat.
Variable PAGE_SIZE : nat.

(** [Compare()], the default-constructed comparator of the instantiation. *)
Variable Compare : bytes -> bytes -> comparison.

(** Every [char* addr] of [Insert] is declared without an initialiser and
    written through at once.  The model lets such a pointer designate
    scratch memory whose contents, as found, are [addr]. *)
Variable addr : memory.

(** [Insert] stores the result of [Find] in a [slotid_t].  For a key that
    is not there the value read is the one an empty result converts to;
    the sources at hand do not fix it, so it is left open, as a function of
    the number of slots of the page. *)
Variable absent_slot : nat -> nat.

(** The constructor of [Iter] initialises [page_id_] and [slot_id_] from
    themselves; these are the indeterminate values they hold. *)
Variable indet_page_id : pgid_t.
Variable indet_slot_id : nat.

Definition InnerSlotKeyCompare (comp : bytes -> bytes -> comparison)
  : KeyCompare :=
  fun slot k =>
    let? s := InnerSlotParse slot in
    Ok (comp (strict_upper_bound s) k).

Definition InnerSlotCompare (comp : bytes -> bytes -> comparison)
  : bytes -> bytes -> outcome comparison :=
  fun a b =>
    let? sa := InnerSlotParse a in
    let? sb := InnerSlotParse b in
    Ok (comp (strict_upper_bound sa) (strict_upper_bound sb)).

Definition LeafSlotKeyCompare (comp : bytes -> bytes -> comparison)
  : KeyCompare :=
  fun slot k =>
    let? s := LeafSlotParse sizeof_pgoff_t slot in
    Ok (comp (key s) k).

Definition LeafSlotCompare (comp : bytes -> bytes -> comparison)
  : bytes -> bytes -> outcome comparison :=
  fun a b =>
    let? sa := LeafSlotParse sizeof_pgoff_t a in
    let? sb := LeafSlotParse sizeof_pgoff_t b in
    Ok (comp (key sa) (key sb)).

Definition inner_cmp (t : BPlusTree) : KeyCompare :=
  InnerSlotKeyCompare (comp_ t).
Definition leaf_cmp (t : BPlusTree) : KeyCompare :=
  LeafSlotKeyCompare (comp_ t).

Definition GetInnerPage (t : BPlusTree) (pgid : pgid_t) : M pgid_t :=
  GetSortedPage pgid.
Definition GetLeafPage (t : BPlusTree) (pgid : pgid_t) : M pgid_t :=
  GetSortedPage pgid.
Definition GetMetaPage (t : BPlusTree) : M pgid_t :=
  GetPlainPage (meta_pgid_ t).

Definition FreePage (page : pgid_t) : M unit :=
  let id := page in
  Free id.

Definition AllocInnerPage (t : BPlusTree) : M pgid_t :=
  do inner <- AllocSortedPage PAGE_SIZE;
  run Init inner sizeof_pgid_t;
  ret inner.

Definition AllocLeafPage (t : BPlusTree) : M pgid_t :=
  do leaf <- AllocSortedPage PAGE_SIZE;
  run Init leaf (sizeof_pgid_t * 2);
  ret leaf.

Definition GetInnerSpecial (inner : pgid_t) : M pgid_t :=
  do d <- ReadSpecial inner 0 sizeof_pgid_t; ret (le_int d).
Definition SetInnerSpecial (inner : pgid_t) (page : pgid_t) : M unit :=
  WriteSpecial inner 0 (le_bytes sizeof_pgid_t page).
Definition GetLeafPrev (leaf : pgid_t) : M pgid_t :=
  do d <- ReadSpecial leaf 0 sizeof_pgid_t; ret (le_int d).
Definition SetLeafPrev (leaf : pgid_t) (pgid : pgid_t) : M unit :=
  WriteSpecial leaf 0 (le_bytes sizeof_pgid_t pgid).
Definition GetLeafNext (leaf : pgid_t) : M pgid_t :=
  do d <- ReadSpecial leaf sizeof_pgid_t sizeof_pgid_t; ret (le_int d).
Definition SetLeafNext (leaf : pgid_t) (pgid : pgid_t) : M unit :=
  WriteSpecial leaf sizeof_pgid_t (le_bytes sizeof_pgid_t pgid).

Definition LevelNum (t : BPlusTree) : M Z :=
  do p <- GetMetaPage t;
  do d <- Read p 0 1;
  ret (le_int d).
Definition UpdateLevelNum (t : BPlusTree) (level_num : Z) : M unit :=
  do p <- GetMetaPage t;
  Write p 0 (le_bytes 1 level_num).
Definition Root (t : BPlusTree) : M pgid_t :=
  do p <- GetMetaPage t;
  do d <- Read p 4 sizeof_pgid_t;
  ret (le_int d).
Definition UpdateRoot (t : BPlusTree) (root : pgid_t) : M unit :=
  do p <- GetMetaPage t;
  Write p 4 (le_bytes sizeof_pgid_t root).
Definition UpdateTupleNum (t : BPlusTree) (num : Z) : M unit :=
  do p <- GetMetaPage t;
  Write p 8 (le_bytes 8 num).

(** The [tuple_num] field of the meta page (offset 8, 8 bytes).  The
    source has no reader for it: [TupleNum] below scans instead. *)
Definition meta_tuple_num (t : BPlusTree) : M Z :=
  do p <- GetMetaPage t;
  do d <- Read p 8 8;
  ret (le_int d).

Definition Create : M BPlusTree :=
  do meta <- Allocate PAGE_SIZE;
  let ret_ := mkBPlusTree meta Compare in
  do root <- AllocLeafPage ret_;
  let root_id := root in
  run UpdateRoot ret_ root_id;
  run UpdateLevelNum ret_ 1;
  run UpdateTupleNum ret_ 0;
  ret ret_.

Definition Open (meta_pgid : pgid_t) : M BPlusTree :=
  ret (mkBPlusTree meta_pgid Compare).

Definition MetaPageID (t : BPlusTree) : pgid_t := meta_pgid_ t.

Definition pop {A} (stack : list A) : M (A * list A) :=
  match stack with
  | x :: rest => ret (x, rest)
  | [] => throw EmptyStack
  end.

(** *** Destroy *)

Fixpoint Destroy_loop (fuel : nat) (t : BPlusTree) (cur : pgid_t)
  (level : Z) (p_stack : list pgid_t) : M unit :=
  match fuel with
  | O => throw OutOfFuel
  | S fuel' =>
      do n <- SlotNum cur;
      if negb (n =? 0)%nat then
        do sl <- Slot cur 0;
        do isl <- lift (InnerSlotParse sl);
        let s := next isl in
        if 1 <? level then
          let level := wrap8 (level - 1) in
          do cur <- GetInnerPage t s;
          Destroy_loop fuel' t cur level (cur :: p_stack)
        else
          do l <- GetLeafPage t s;
          let leaf_id := l in
          do l <- GetLeafPage t leaf_id;
          run FreePage l;
          run DeleteSlot cur 0;
          Destroy_loop fuel' t cur level p_stack
      else
        do spa <- GetInnerSpecial cur;
        run (if 1 <? level
             then do p <- GetInnerPage t spa; FreePage p
             else do p <- GetLeafPage t spa; FreePage p);
        run FreePage cur;
        do '(_, p_stack) <- pop p_stack;
        match p_stack with
        | [] => ret tt
        | top :: _ =>
            do cur <- GetInnerPage t top;
            run DeleteSlot cur 0;
            Destroy_loop fuel' t cur (wrap8 (level + 1)) p_stack
        end
  end.

Definition Destroy (fuel : nat) (t : BPlusTree) : M unit :=
  do root <- Root t;
  let p_stack := [root] in
  do lvl <- LevelNum t;
  let level := wrap8 (lvl - 1) in
  if level =? 0 then
    do l <- GetLeafPage t root;
    run FreePage l;
    do m <- GetMetaPage t;
    FreePage m
  else
    do cur <- GetInnerPage t root;
    run Destroy_loop fuel t cur level p_stack;
    do m <- GetMetaPage t;
    FreePage m.

(** *** Descent shared by Get, Insert and Delete: [while (level > 1)] *)

Definition step_down (t : BPlusTree) (inn : pgid_t) (k : bytes) : M pgid_t :=
  do upper <- UpperBound_page (inner_cmp t) inn k;
  do n <- SlotNum inn;
  if (upper =? n)%nat then
    do spa <- GetInnerSpecial inn;
    GetInnerPage t spa
  else
    do sl <- Slot inn upper;
    do isl <- lift (InnerSlotParse sl);
    GetInnerPage t (next isl).

(** [rounds] is the number of iterations left, [level - 1]. *)
Fixpoint descend (rounds : nat) (t : BPlusTree) (inn : pgid_t) (k : bytes)
  : M pgid_t :=
  match rounds with
  | O => ret inn
  | S rounds' =>
      do inn <- step_down t inn k;
      descend rounds' t inn k
  end.

(** The leaf below the last inner page, as Get and Delete pick it. *)
Definition pick_leaf (t : BPlusTree) (inn : pgid_t) (k : bytes) : M pgid_t :=
  do upper <- UpperBound_page (inner_cmp t) inn k;
  do spa <- GetInnerSpecial inn;
  do leaf <- GetLeafPage t spa;
  do n <- SlotNum inn;
  if (upper =? n)%nat then
    do spa <- GetInnerSpecial inn;
    GetLeafPage t spa
  else
    do sl <- Slot inn upper;
    do isl <- lift (InnerSlotParse sl);
    GetLeafPage t (next isl).

(** *** Get *)

Definition leaf_value (t : BPlusTree) (leaf : pgid_t) (k : bytes)
  : M (option bytes) :=
  do r <- FindSlot (leaf_cmp t) leaf k;
  match r with
  | Some _ =>
      do r <- FindSlot (leaf_cmp t) leaf k;
      match r with
      | Some sl =>
          do s <- lift (LeafSlotParse sizeof_pgoff_t sl);
          ret (Some (value s))
      | None => throw BadRead
      end
  | None => ret None
  end.

Definition Get (t : BPlusTree) (k : bytes) : M (option bytes) :=
  do cur <- Root t;
  do lvl <- LevelNum t;
  let level := wrap8 (lvl - 1) in
  if level =? 0 then
    do l <- GetLeafPage t cur;
    leaf_value t l k
  else
    do inn <- GetInnerPage t cur;
    do inn <- descend (Z.to_nat level - 1) t inn k;
    do leaf <- pick_leaf t inn k;
    leaf_value t leaf k.

(** *** Helpers of the private part *)

Definition LeafSmallestKey (leaf : pgid_t) : M bytes :=
  do n <- SlotNum leaf;
  if (0 <? n)%nat then
    do sl <- Slot leaf 0;
    do slot <- lift (LeafSlotParse sizeof_pgoff_t sl);
    ret (key slot)
  else throw AssertFailed.

Definition InnerFirstPage (inner : pgid_t) : M pgid_t :=
  do e <- IsEmpty_page inner;
  if e then GetInnerSpecial inner
  else
    do sl <- Slot inner 0;
    do slot <- lift (InnerSlotParse sl);
    ret (next slot).

Fixpoint SmallestLeaf_loop (rounds : nat) (t : BPlusTree) (cur : pgid_t)
  : M pgid_t :=
  match rounds with
  | O => ret cur
  | S rounds' =>
      do p <- GetInnerPage t cur;
      do cur <- InnerFirstPage p;
      SmallestLeaf_loop rounds' t cur
  end.

Definition SmallestLeaf (t : BPlusTree) (inner : pgid_t) (level : Z)
  : M pgid_t :=
  if 0 <? level then
    do cur <- InnerFirstPage inner;
    SmallestLeaf_loop (Z.to_nat level - 1) t cur
  else throw AssertFailed.

Definition InnerSmallestKey (t : BPlusTree) (inner : pgid_t) (level : Z)
  : M bytes :=
  do l <- SmallestLeaf t inner level;
  do leaf <- GetLeafPage t l;
  LeafSmallestKey leaf.

(** *** Insert *)

(** [slotid_t slot_id = leaf.Find(key)]. *)
Definition find_slot_id (t : BPlusTree) (leaf : pgid_t) (k : bytes) : M nat :=
  do r <- Find (leaf_cmp t) leaf k;
  match r with
  | Some i => ret i
  | None => do n <- SlotNum leaf; ret (absent_slot n)
  end.

(** The descent of Insert, which records [(inn.ID(), level)] on [par]. *)
Fixpoint descend_par (rounds : nat) (t : BPlusTree) (inn : pgid_t)
  (k : bytes) (level : Z) (par : list (pgid_t * Z))
  : M (pgid_t * Z * list (pgid_t * Z)) :=
  match rounds with
  | O => ret (inn, level, par)
  | S rounds' =>
      do inn <- step_down t inn k;
      descend_par rounds' t inn k (wrap8 (level - 1)) ((inn, level) :: par)
  end.

(** The loop [while (!inn.IsInsertable(...))] that splits inner pages.
    Each round that does not return pops [par], so the recursion is on the
    stack.  [lev], [slot_next] and [upper] are the variables of the
    enclosing block: the ones declared inside the loop body shadow them
    only from their declaration to the end of the round, while [addr1],
    the scratch memory, and [inn] are carried over. *)
Fixpoint Insert_split_loop (par : list (pgid_t * Z)) (t : BPlusTree)
  (k : bytes) (cur : pgid_t) (lev : Z) (slot_next : InnerSlot) (upper : nat)
  (inn : pgid_t) (addr1 : memory) : M bool :=
  let sv := mem_read addr1 0 (InnerSlotSize slot_next) in
  do ins <- IsInsertable PAGE_SIZE inn sv;
  if ins then ret true
  else
    do lvl <- LevelNum t;
    if lev =? lvl - 1 then
      do i_next <- AllocInnerPage t;
      let i_next_id := i_next in
      run SplitInsert inn i_next sv upper;
      do new_ro <- AllocInnerPage t;
      let new_ro_id := new_ro in
      run UpdateRoot t new_ro_id;
      do sl <- Slot inn 0;
      do ls <- lift (LeafSlotParse sizeof_pgoff_t sl);
      let str_upp := key ls in
      let root_slot := mkInnerSlot i_next_id str_upp in
      do bs <- lift (inner_slot_bytes addr root_slot);
      do _ <- InsertBeforeSlot PAGE_SIZE new_ro 0 bs;
      run SetInnerSpecial new_ro cur;
      do lvl <- LevelNum t;
      run UpdateLevelNum t (wrap8 (lvl + 1));
      ret true
    else
      do nxt <- AllocInnerPage t;
      let next_id := nxt in
      match par with
      | [] => throw EmptyStack
      | po :: par' =>
          let lev' := snd po in
          run SplitInsert inn nxt sv upper;
          do n <- SlotNum nxt;
          do sl <- Slot nxt (n - 1);
          do isl <- lift (InnerSlotParse sl);
          let ri := next isl in
          run SetInnerSpecial nxt ri;
          do n <- SlotNum nxt;
          run DeleteSlot nxt (n - 1);
          do s_upper <- InnerSmallestKey t inn lev';
          let slot_next' := mkInnerSlot next_id s_upper in
          do addr1 <- lift (InnerSlotSerialize addr1 slot_next');
          let pa := fst po in
          do inn <- GetInnerPage t pa;
          do upper' <- UpperBound_page (inner_cmp t) inn k;
          let sv' := mem_read addr1 0 (InnerSlotSize slot_next') in
          do ins <- IsInsertable PAGE_SIZE inn sv';
          run (if ins then do _ <- InsertBeforeSlot PAGE_SIZE inn upper' sv'; ret tt
               else ret tt);
          Insert_split_loop par' t k cur lev slot_next upper inn addr1
      end.

Definition Insert (t : BPlusTree) (k v : bytes) : M bool :=
  do cur <- Root t;
  do lvl <- LevelNum t;
  let level := wrap8 (lvl - 1) in
  let leaf_s := mkLeafSlot k v in
  do s <- lift (leaf_slot_bytes sizeof_pgoff_t addr leaf_s);
  if level =? 0 then
    do l <- GetLeafPage t cur;
    do slot_id <- find_slot_id t l k;
    do l <- GetLeafPage t cur;
    do ins <- IsInsertable PAGE_SIZE l s;
    if ins then
      do l <- GetLeafPage t cur;
      InsertBeforeSlot PAGE_SIZE l slot_id s
    else
      do l_next <- AllocLeafPage t;
      let l_next_id := l_next in
      do cur_page <- GetLeafPage t cur;
      run SetLeafPrev cur_page l_next_id;
      run SetLeafNext l_next cur;
      do l <- GetLeafPage t cur;
      run SplitInsert l l_next s slot_id;
      do ro <- AllocInnerPage t;
      let ro_id := ro in
      run UpdateRoot t ro_id;
      do l <- GetLeafPage t cur;
      do sl <- Slot l 0;
      do ls <- lift (LeafSlotParse sizeof_pgoff_t sl);
      let str_upp := key ls in
      let root_slot := mkInnerSlot l_next_id str_upp in
      do bs <- lift (inner_slot_bytes addr root_slot);
      do _ <- InsertBeforeSlot PAGE_SIZE ro 0 bs;
      run SetInnerSpecial ro cur;
      run UpdateLevelNum t 2;
      ret true
  else
    do inn <- GetInnerPage t cur;
    do '(inn, level, par) <- descend_par (Z.to_nat level - 1) t inn k level [];
    do upper <- UpperBound_page (inner_cmp t) inn k;
    do sl <- Slot inn upper;
    do isl <- lift (InnerSlotParse sl);
    do leaf <- GetLeafPage t (next isl);
    do slot_id <- find_slot_id t leaf k;
    let par := (leaf, level) :: par in
    do ins <- IsInsertable PAGE_SIZE leaf s;
    if ins then InsertBeforeSlot PAGE_SIZE leaf slot_id s
    else
      do leaf_next <- AllocLeafPage t;
      let leaf_next_id := leaf_next in
      run SplitInsert leaf leaf_next s slot_id;
      run SetLeafPrev leaf leaf_next_id;
      run SetLeafNext leaf_next leaf;
      do sl <- Slot leaf 0;
      do ls <- lift (LeafSlotParse sizeof_pgoff_t sl);
      let s_upper := key ls in
      let slot_next := mkInnerSlot leaf_next_id s_upper in
      do addr1 <- lift (InnerSlotSerialize addr slot_next);
      do '(po, par) <- pop par;
      let pa := fst po in
      let lev := snd po in
      do inn <- GetInnerPage t pa;
      do upper <- UpperBound_page (inner_cmp t) inn k;
      let sv := mem_read addr1 0 (InnerSlotSize slot_next) in
      do ins <- IsInsertable PAGE_SIZE inn sv;
      run (if ins then do _ <- InsertBeforeSlot PAGE_SIZE inn upper sv; ret tt
           else ret tt);
      Insert_split_loop par t k cur lev slot_next upper inn addr1.

(** *** The iterator *)

(** [Iter(pgm, page_id, meta_pgid, slot_id)]: the member initialisers read
    [page_id_(page_id_)] and [slot_id_(slot_id_)], so the arguments
    [page_id] and [slot_id] are dropped. *)
Definition Iter_ctor (page_id meta_pgid : pgid_t) (slot_id : nat) : Iter :=
  mkIter meta_pgid indet_page_id indet_slot_id.

Definition Iter_Cur (it : Iter) : M (option (bytes * bytes)) :=
  do bplus <- Open (iter_meta_pgid_ it);
  do leaf_p <- GetLeafPage bplus (page_id_ it);
  do content <- Slot leaf_p (slot_id_ it);
  do s <- lift (LeafSlotParse sizeof_pgoff_t content);
  ret (Some (key s, value s)).

Definition Iter_Next (it : Iter) : M Iter :=
  do bplus <- Open (iter_meta_pgid_ it);
  do leaf <- GetLeafPage bplus (page_id_ it);
  do n <- SlotNum leaf;
  if (n <=? slot_id_ it)%nat then
    do nx <- GetLeafNext leaf;
    let it := mkIter (iter_meta_pgid_ it) nx (slot_id_ it) in
    do nx <- GetLeafNext leaf;
    if nx =? 0 then ret it
    else
      let it := mkIter (iter_meta_pgid_ it) (page_id_ it) 0 in
      ret (mkIter (iter_meta_pgid_ it) (page_id_ it) (slot_id_ it + 1))
  else
    ret (mkIter (iter_meta_pgid_ it) (page_id_ it) (slot_id_ it + 1)).

Definition Begin (t : BPlusTree) : M Iter :=
  do root <- Root t;
  let iter := Iter_ctor root (meta_pgid_ t) 0 in
  ret iter.

(** *** TupleNum and IsEmpty *)

Fixpoint TupleNum_loop (fuel : nat) (beg : Iter) (s1 : nat) (p1 : pgid_t)
  (s2 : nat) (p2 : pgid_t) (sum : Z) : M Z :=
  if negb (s1 =? s2)%nat && negb (p1 =? p2) then
    match fuel with
    | O => throw OutOfFuel
    | S fuel' =>
        let s1 := s2 in
        let p1 := p2 in
        do beg <- Iter_Next beg;
        let s2 := slot_id_ beg in
        let p2 := page_id_ beg in
        TupleNum_loop fuel' beg s1 p1 s2 p2 (sum + 1)
    end
  else ret sum.

Definition TupleNum (fuel : nat) (t : BPlusTree) : M Z :=
  let sum := 0 in
  do beg <- Begin t;
  let s1 := slot_id_ beg in
  let p1 := Z.of_nat (slot_id_ beg) in
  do beg <- Iter_Next beg;
  let s2 := slot_id_ beg in
  let p2 := page_id_ beg in
  TupleNum_loop fuel beg s1 p1 s2 p2 sum.

Definition IsEmpty (fuel : nat) (t : BPlusTree) : M bool :=
  do n <- TupleNum fuel t;
  ret (n =? 0).

(** *** Delete and Update *)

Fixpoint descend_ids (rounds : nat) (t : BPlusTree) (inn : pgid_t)
  (k : bytes) (par : list pgid_t) : M (pgid_t * list pgid_t) :=
  match rounds with
  | O => ret (inn, par)
  | S rounds' =>
      do inn <- step_down t inn k;
      descend_ids rounds' t inn k (inn :: par)
  end.

(** [while ((inn.SlotNum()==0) && (!par.empty()))]: every round pops. *)
Fixpoint Delete_collapse (par : list pgid_t) (t : BPlusTree) (k : bytes)
  (inn : pgid_t) : M unit :=
  do n <- SlotNum inn;
  match par with
  | pa :: par' =>
      if (n =? 0)%nat then
        run FreePage inn;
        do inn <- GetInnerPage t pa;
        do upper <- UpperBound_page (inner_cmp t) inn k;
        run DeleteSlot inn upper;
        Delete_collapse par' t k inn
      else ret tt
  | [] => ret tt
  end.

Definition Delete (fuel : nat) (t : BPlusTree) (k : bytes) : M bool :=
  do cur <- Root t;
  do lvl <- LevelNum t;
  let level := wrap8 (lvl - 1) in
  if level =? 0 then
    do l <- GetLeafPage t cur;
    do r <- FindSlot (leaf_cmp t) l k;
    match r with
    | None => ret false
    | Some _ =>
        do l <- GetLeafPage t cur;
        run DeleteSlotByKey (leaf_cmp t) l k;
        ret true
    end
  else
    do inn <- GetInnerPage t cur;
    do '(inn, par) <- descend_ids (Z.to_nat level - 1) t inn k [];
    do leaf <- pick_leaf t inn k;
    let par := leaf :: par in
    do r <- FindSlot (leaf_cmp t) leaf k;
    match r with
    | None => ret false
    | Some _ =>
        run DeleteSlotByKey (leaf_cmp t) leaf k;
        do n <- SlotNum leaf;
        run (if (n =? 0)%nat then
               do leaf_pre <- GetLeafPrev leaf;
               do leaf_next <- GetLeafNext leaf;
               do leaf_page_pre <- GetLeafPage t leaf_pre;
               do leaf_page_next <- GetLeafPage t leaf_next;
               run SetLeafNext leaf_page_pre leaf_next;
               run SetLeafPrev leaf_page_next leaf_pre;
               run FreePage leaf;
               do '(pa, par) <- pop par;
               do inn <- GetInnerPage t pa;
               do upper <- UpperBound_page (inner_cmp t) inn k;
               run DeleteSlot inn upper;
               Delete_collapse par t k inn
             else ret tt);
        do e <- IsEmpty fuel t;
        run (if e then UpdateLevelNum t 1 else ret tt);
        ret true
    end.

Definition Update (fuel : nat) (t : BPlusTree) (k v : bytes) : M bool :=
  do d <- Delete fuel t k;
  if d then
    do _ <- Insert t k v;
    ret true
  else ret false.

(** *** Take *)

Definition Take (fuel : nat) (t : BPlusTree) (k : bytes) : M (option bytes) :=
  do v <- Get t k;
  do _ <- Delete fuel t k;
  ret v.

(** *** The largest key *)

Definition LeafLargestKey (leaf : pgid_t) : M bytes :=
  do n <- SlotNum leaf;
  if (0 <? n)%nat then
    do n <- SlotNum leaf;
    do sl <- Slot leaf (n - 1);
    do slot <- lift (LeafSlotParse sizeof_pgoff_t sl);
    ret (key slot)
  else throw AssertFailed.

Definition InnerLastPage (inner : pgid_t) : M pgid_t :=
  GetInnerSpecial inner.

(** [while (--level)]: for a [level] above 0 the body runs [level - 1]
    times. *)
Fixpoint LargestLeaf_loop (rounds : nat) (t : BPlusTree) (cur : pgid_t)
  : M pgid_t :=
  match rounds with
  | O => ret cur
  | S rounds' =>
      do p <- GetInnerPage t cur;
      do cur <- InnerLastPage p;
      LargestLeaf_loop rounds' t cur
  end.

Definition LargestLeaf (t : BPlusTree) (inner : pgid_t) (level : Z)
  : M pgid_t :=
  if 0 <? level then
    do cur <- InnerLastPage inner;
    LargestLeaf_loop (Z.to_nat level - 1) t cur
  else throw AssertFailed.

(** [while (level > 0)], with [level] already decremented once. *)
Fixpoint InnerLargestKey_loop (level : nat) (t : BPlusTree) (cur : pgid_t)
  : M pgid_t :=
  match level with
  | O => ret cur
  | S level' =>
      do inner <- GetInnerPage t cur;
      do cur <- GetInnerSpecial inner;
      InnerLargestKey_loop level' t cur
  end.

Definition InnerLargestKey (t : BPlusTree) (inner : pgid_t) (level : Z)
  : M bytes :=
  if 0 <? level then
    do cur <- GetInnerSpecial inner;
    let level := wrap8 (level - 1) in
    do cur <- InnerLargestKey_loop (Z.to_nat level) t cur;
    do leaf <- GetLeafPage t cur;
    LeafLargestKey leaf
  else throw AssertFailed.

Definition MaxKey (fuel : nat) (t : BPlusTree) : M (option bytes) :=
  do e <- IsEmpty fuel t;
  if e then ret None
  else
    do lvl <- LevelNum t;
    if lvl =? 1 then
      do root <- Root t;
      do r <- GetLeafPage t root;
      do k <- LeafLargestKey r;
      ret (Some k)
    else
      do root <- Root t;
      do p <- GetInnerPage t root;
      do lvl <- LevelNum t;
      do l <- LargestLeaf t p (wrap8 (lvl - 1));
      do leaf <- GetLeafPage t l;
      do k <- LeafLargestKey leaf;
      ret (Some k).

(** *** The tuple counter *)

(** [size_t] arithmetic wraps around. *)
Definition wrap64 (z : Z) : Z := z mod 2 ^ 64.

Definition IncreaseTupleNum (fuel : nat) (t : BPlusTree) (delta : Z)
  : M unit :=
  do tuple_num <- TupleNum fuel t;
  run (if delta <? 0
       then if wrap64 (- delta) <=? tuple_num then ret tt
            else throw AssertFailed
       else ret tt);
  UpdateTupleNum t (wrap64 (tuple_num + delta)).

End Tree.

(** ** The predefined printers (the end of the class in bplus-tree.hpp) *)

(** A [std::ostream], as the characters written to it so far. *)
Definition ostream := bytes.

Definition printer_str (out : ostream) (s : bytes) : ostream * nat :=
  (out ++ s, length s).

(** [c + '0'], converted to [char]. *)
Definition to_oct (c : Z) : byte := byte_of_Z (c + 48).

(** One round of [for (uint8_t c : s)] in [printer_oct]; the arguments of
    [to_oct] are converted to [uint8_t]. *)
Definition print_oct (out : ostream) (b : byte) : ostream :=
  let c := Z_of_byte b in
  let out := out ++ [x5c] in
  let out := out ++ [to_oct (wrap8 (Z.shiftr c 6))] in
  let out := out ++ [to_oct (wrap8 (Z.land (Z.shiftr c 3) 7))] in
  out ++ [to_oct (wrap8 (Z.land c 7))].

Definition printer_oct (out : ostream) (s : bytes) : ostream * nat :=
  (fold_left print_oct s out, (length s * 4)%nat).

Definition to_hex (c : Z) : outcome byte :=
  if (0 <=? c) && (c <=? 15) then
    if (0 <=? c) && (c <=? 9) then Ok (byte_of_Z (c + 48))
    else Ok (byte_of_Z (c - 10 + 97))
  else Fault AssertFailed.

(** What [fmt::format] prints for an unsigned number in a [{}] field: its
    decimal digits. *)
Definition decimal (n : nat) : bytes :=
  list_byte_of_string (NilZero.string_of_uint (Nat.to_uint n)).

(** The loop [for (uint8_t c : s)] of [printer_hex]. *)
Fixpoint print_hex (out : ostream) (s : bytes) : outcome ostream :=
  match s with
  | [] => Ok out
  | b :: s' =>
      let c := Z_of_byte b in
      let? h := to_hex (wrap8 (Z.shiftr c 4)) in
      let out := out ++ [h] in
      let? l := to_hex (wrap8 (Z.land c 15)) in
      let out := out ++ [l] in
      print_hex out s'
  end.

Definition printer_hex (out : ostream) (s : bytes) : outcome (ostream * nat) :=
  let str := B "(" ++ decimal (length s) ++ B ")" in
  let printed := length str in
  let out := out ++ str in
  let? out := print_hex out s in
  Ok (out, (printed + length s * 2)%nat).

Definition printer_mock (out : ostream) (s : bytes) : ostream * nat :=
  (out, 0%nat).

(** ** A concrete instantiation for the worked examples *)

(** [std::string_view] compared as [operator<=>] does: byte by byte, a
    proper prefix being smaller. *)
Fixpoint lex_compare (a b : bytes) : comparison :=
  match a, b with
  | [], [] => Eq
  | [], _ :: _ => Lt
  | _ :: _, [] => Gt
  | x :: a', y :: b' =>
      match Z.compare (Z_of_byte x) (Z_of_byte y) with
      | Eq => lex_compare a' b'
      | c => c
      end
  end.

(** In the worked examples [pgoff_t] has two bytes, a page has room for
    80 bytes of slots and special region (two 34-byte leaf slots fill a
    leaf), keys are compared as strings, and a [Find] that found nothing
    reads as the slot count. *)
Definition demo_pgoff : nat := 2.
Definition demo_page : nat := 80.
Definition demo_absent : nat -> nat := fun n => n.

Definition demo_Create : M BPlusTree := Create demo_page lex_compare.
Definition demo_Insert (addr : memory) : BPlusTree -> bytes -> bytes -> M bool :=
  Insert demo_pgoff demo_page addr demo_absent.
Definition demo_Get : BPlusTree -> bytes -> M (option bytes) :=
  Get demo_pgoff.
Definition demo_Delete (indet_page_id : pgid_t) (indet_slot_id fuel : nat)
  : BPlusTree -> bytes -> M bool :=
  Delete demo_pgoff lex_compare indet_page_id indet_slot_id fuel.
Definition demo_Update (addr : memory) (indet_page_id : pgid_t)
  (indet_slot_id fuel : nat) : BPlusTree -> bytes -> bytes -> M bool :=
  Update demo_pgoff demo_page lex_compare addr demo_absent
    indet_page_id indet_slot_id fuel.

(** Scratch memory that happens to hold zeros. *)
Definition zero_memory : memory := fun _ => x00.

Definition key_a : bytes := B "aaaaaaaaaaaaaaaa".
Definition key_b : bytes := B "bbbbbbbbbbbbbbbb".
Definition key_c : bytes := B "cccccccccccccccc".
Definition key_d : bytes := B "dddddddddddddddd".
Definition key_a17 : bytes := B "aaaaaaaaaaaaaaaaX".
Definition val_1 : bytes := B "1111111111111111".
Definition val_2 : bytes := B "2222222222222222".
Definition val_3 : bytes := B "3333333333333333".
Definition val_17 : bytes := B "2222222222222222Y".
Definition val_17z : bytes := B "2222222222222222Z".

(** The slots of a sorted page, for inspection. *)
Definition page_slots (st : PageManager) (pg : pgid_t) : option (list bytes) :=
  match st !! pg with
  | Some (SortedPg sp) => Some (slots sp)
  | _ => None
  end.

(** A leaf slot as the layout comment of the header describes it. *)
Definition leaf_slot_of (k v : bytes) : bytes :=
  le_bytes demo_pgoff (Z.of_nat (length k)) ++ k ++ v.

(** The tree [Create] makes in an empty page manager: meta page 1, root
    leaf 2. *)
Definition demo_tree : BPlusTree := mkBPlusTree 1 lex_compare.

(** The states reached by inserting [key_a], then [key_b], then [key_c],
    each with a 16-byte value. *)
Definition st_one (addr : memory) : PageManager :=
  snd ((do t <- demo_Create; demo_Insert addr t key_a val_1) ∅).
Definition st_two (addr : memory) : PageManager :=
  snd (demo_Insert addr demo_tree key_b val_2 (st_one addr)).
Definition st_three (addr : memory) : PageManager :=
  snd (demo_Insert addr demo_tree key_c val_3 (st_two addr)).

(** The positions an iterator takes under repeated [Next], up to the one
    with [page_id_ == 0]. *)
Fixpoint Next_trace (fuel : nat) (Compare : bytes -> bytes -> comparison)
  (it : Iter) : M (list (pgid_t * nat)) :=
  match fuel with
  | O => ret []
  | S fuel' =>
      if page_id_ it =? 0 then ret []
      else
        do it' <- Iter_Next Compare it;
        do rest <- Next_trace fuel' Compare it';
        ret ((page_id_ it', slot_id_ it') :: rest)
  end.

(** *** Trees laid out by hand *)

Definition meta_page (level_num root_pgid tuple_num : Z) : Page :=
  PlainPage
    (write_at
       (write_at
          (write_at (repeat x00 demo_page) 0 (le_bytes 1 level_num))
          4 (le_bytes 4 root_pgid))
       8 (le_bytes 8 tuple_num)).

Definition leaf_page (kvs : list (bytes * bytes)) (prev next_leaf : pgid_t)
  : Page :=
  SortedPg
    (mkSortedPage (map (fun kv => leaf_slot_of (fst kv) (snd kv)) kvs)
       (le_bytes 4 prev ++ le_bytes 4 next_leaf)).

(** An inner page as the layout comment of the header and
    [InnerSlotSerialize] have it: child ids in binary. *)
Definition inner_page (seps : list (pgid_t * bytes)) (right_child : pgid_t)
  : Page :=
  SortedPg
    (mkSortedPage (map (fun ck => le_bytes 4 (fst ck) ++ snd ck) seps)
       (le_bytes 4 right_child)).

(** An inner page as [InnerSlotParse] reads it: child ids as decimal
    text, padded with NUL to four bytes. *)
Definition text_id (s : string) : bytes := firstn 4 (B s ++ repeat x00 4).

Definition inner_page_text (seps : list (string * bytes))
  (right_child : pgid_t) : Page :=
  SortedPg
    (mkSortedPage (map (fun ck => text_id (fst ck) ++ snd ck) seps)
       (le_bytes 4 right_child)).

(** Two levels, three one-key leaves 3, 4, 5 chained in key order. *)
Definition three_leaves (root : Page) : PageManager :=
  list_to_map
    [(1, meta_page 2 2 3);
     (2, root);
     (3, leaf_page [(key_a, val_1)] 0 4);
     (4, leaf_page [(key_b, val_2)] 3 5);
     (5, leaf_page [(key_c, val_3)] 4 0)].

Definition st_leaves : PageManager :=
  three_leaves (inner_page [(3, key_b); (4, key_c)] 5).

Definition st_leaves_text : PageManager :=
  three_leaves (inner_page_text [("3"%string, key_b); ("4"%string, key_c)] 5).

(** Three levels: root 2 over inner pages 3 and 4, leaves 5 to 8. *)
Definition st_three_levels_text : PageManager :=
  list_to_map
    [(1, meta_page 3 2 4);
     (2, inner_page_text [("3"%string, key_c)] 4);
     (3, inner_page_text [("5"%string, key_b)] 6);
     (4, inner_page_text [("7"%string, key_d)] 8);
     (5, leaf_page [(key_a, val_1)] 0 6);
     (6, leaf_page [(key_b, val_2)] 5 7);
     (7, leaf_page [(key_c, val_3)] 6 8);
     (8, leaf_page [(key_d, val_1)] 7 0)].

(** ** Predicates used in the general results *)

(** An invariant of the page manager kept by a computation, whether it
    returns or faults, together with a fact [Q] about the value returned. *)
Definition preserves {A} (Inv : PageManager -> Prop) (c : M A)
  (Q : A -> Prop) : Prop :=
  forall st, Inv st -> Inv (snd (c st)) /\ forall a, fst (c st) = Ok a -> Q a.

(** The meta page [m] is a plain page whose bytes from offset 8 on, the
    tuple counter and what follows, are [X]. *)
Definition meta_tail (m : pgid_t) (X : bytes) (st : PageManager) : Prop :=
  exists d, st !! m = Some (PlainPage d) /\ skipn 8 d = X.

(** Page [p] is a sorted page whose special region is [S]. *)
Definition special_is (p : pgid_t) (S : bytes) (st : PageManager) : Prop :=
  exists sl, st !! p = Some (SortedPg (mkSortedPage sl S)).

(** A computation that never changes a page. *)
Definition read_only {A} (c : M A) : Prop := forall st, snd (c st) = st.

(** A computation that changes no page when it returns [false]. *)
Definition quiet_when_false (c : M bool) : Prop :=
  forall st, fst (c st) = Ok false -> snd (c st) = st.

(** A computation that never returns [false]. *)
Definition never_false (c : M bool) : Prop :=
  forall st, fst (c st) <> Ok false.

(** Page [id] is allocated; page id [id] is free. *)
Definition allocated (id : pgid_t) (st : PageManager) : Prop :=
  is_Some (st !! id).

Definition unallocated (id : pgid_t) (st : PageManager) : Prop :=
  st !! id = None.


(** * Properties *)

(** ** Bytes and scratch memory *)

Lemma Z_of_byte_of_Z (z : Z) : Z_of_byte (byte_of_Z z) = z mod 256.
Proof.
  unfold Z_of_byte, byte_of_Z.
  assert (Hb : 0 <= z mod 256 < 256) by (apply Z.mod_pos_bound; lia).
  destruct (Byte.of_N (Z.to_N (z mod 256))) as [b |] eqn:E.
  - apply Byte.to_of_N in E. rewrite E. lia.
  - apply Byte.of_N_None_iff in E. lia.
Qed.

Lemma Z_of_byte_range (b : byte) : 0 <= Z_of_byte b < 256.
Proof. unfold Z_of_byte. pose proof (Byte.to_N_bounded b). lia. Qed.

Lemma length_le_bytes (n : nat) (z : Z) : length (le_bytes n z) = n.
Proof.
  revert z.
  induction n as [| n IH]; intros z; cbn; [reflexivity | now rewrite IH].
Qed.

Lemma le_int_le_bytes (n : nat) (z : Z) :
  le_int (le_bytes n z) = z mod 2 ^ (8 * Z.of_nat n).
Proof.
  revert z. induction n as [| n IH]; intros z.
  - cbn. now rewrite Z.mod_1_r.
  - cbn [le_bytes le_int]. rewrite IH, Z_of_byte_of_Z.
    replace (8 * Z.of_nat (S n)) with (8 + 8 * Z.of_nat n) by lia.
    rewrite Z.pow_add_r by lia. change (2 ^ 8) with 256.
    rewrite (Z.rem_mul_r z 256) by lia. reflexivity.
Qed.

Lemma mem_read_app (m : memory) (off a b : nat) :
  mem_read m off (a + b) = mem_read m off a ++ mem_read m (off + a) b.
Proof. unfold mem_read. now rewrite seq_app, map_app. Qed.

Lemma mem_read_write_same (m : memory) (off : nat) (src : bytes) :
  mem_read (mem_write m off src) off (length src) = src.
Proof.
  unfold mem_read.
  apply nth_ext with (d := x00) (d' := x00).
  - now rewrite length_map, length_seq.
  - intros i Hi. rewrite length_map, length_seq in Hi.
    rewrite (nth_indep _ x00 (mem_write m off src 0%nat))
      by (rewrite length_map, length_seq; lia).
    rewrite map_nth, seq_nth by lia.
    unfold mem_write.
    replace (off <=? off + i)%nat with true by (symmetry; apply Nat.leb_le; lia).
    replace (off + i <? off + length src)%nat with true
      by (symmetry; apply Nat.ltb_lt; lia).
    cbn. f_equal. lia.
Qed.

Lemma mem_read_write_other (m : memory) (off off' n : nat) (src : bytes) :
  (off' + n <= off)%nat \/ (off + length src <= off')%nat ->
  mem_read (mem_write m off src) off' n = mem_read m off' n.
Proof.
  intros H. unfold mem_read. apply map_ext_in. intros i Hi.
  apply in_seq in Hi. unfold mem_write.
  destruct (off <=? i)%nat eqn:E1; [| reflexivity].
  destruct (i <? off + length src)%nat eqn:E2; [| reflexivity].
  apply Nat.leb_le in E1. apply Nat.ltb_lt in E2. lia.
Qed.

Lemma wrap_pgoff_16 (sz : nat) : (1 <= sz)%nat -> wrap_pgoff sz 16 = 16.
Proof.
  intros H. unfold wrap_pgoff. apply Z.mod_small. split; [lia |].
  apply Z.lt_le_trans with (2 ^ 8); [reflexivity |].
  apply Z.pow_le_mono_r; lia.
Qed.

(** What the leaf codec gives back, for every key and value of at least
    16 bytes: the first 16 bytes of the key, and the first 16 bytes of the
    value followed by whatever the scratch memory held. *)
Lemma leaf_codec_general (sz : nat) (addr : memory) (k v : bytes) :
  (1 <= sz)%nat -> (16 <= length k)%nat -> (16 <= length v)%nat ->
  (let? s := leaf_slot_bytes sz addr (mkLeafSlot k v) in LeafSlotParse sz s)
  = Ok (mkLeafSlot (firstn 16 k)
          (firstn 16 v ++ mem_read addr (sz + 32) (length k + length v - 32))).
Proof.
  intros Hsz Hk Hv.
  unfold leaf_slot_bytes, LeafSlotSerialize, LeafSlotSize, memcpy.
  cbn [key value sizeof_string_view].
  change (Z.of_nat 16) with 16. rewrite wrap_pgoff_16 by exact Hsz.
  change (Z.to_nat 16) with 16%nat. change (Z.of_nat 16) with 16.
  rewrite length_le_bytes, Nat.leb_refl. cbn [obind].
  replace (16 <=? length k)%nat with true by (symmetry; apply Nat.leb_le; lia).
  cbn [obind].
  replace (16 <=? length v)%nat with true by (symmetry; apply Nat.leb_le; lia).
  cbn [obind].
  rewrite (firstn_all2 (le_bytes sz 16)) by (rewrite length_le_bytes; lia).
  set (L := le_bytes sz 16).
  set (K := firstn 16 k). set (V := firstn 16 v).
  assert (HL : length L = sz) by apply length_le_bytes.
  assert (HK : length K = 16%nat) by (subst K; rewrite length_firstn; lia).
  assert (HV : length V = 16%nat) by (subst V; rewrite length_firstn; lia).
  set (rest := (length k + length v - 32)%nat).
  set (M3 := mem_write (mem_write (mem_write addr 0 L) sz K) (16 + sz) V).
  assert (Hread : mem_read M3 0 (sz + length k + length v)
                  = L ++ K ++ V ++ mem_read addr (sz + 32) rest).
  { replace (sz + length k + length v)%nat with (sz + (16 + (16 + rest)))%nat
      by (subst rest; lia).
    rewrite !mem_read_app. cbn [Nat.add].
    f_equal; [| f_equal; [| f_equal]].
    - subst M3.
      rewrite !mem_read_write_other by lia.
      transitivity (mem_read (mem_write addr 0 L) 0 (length L));
        [now rewrite HL | apply mem_read_write_same].
    - subst M3.
      rewrite mem_read_write_other by lia.
      transitivity (mem_read (mem_write (mem_write addr 0 L) sz K) sz (length K));
        [now rewrite HK | apply mem_read_write_same].
    - subst M3.
      replace (sz + 16)%nat with (16 + sz)%nat by lia.
      match goal with
      | |- mem_read (mem_write ?m _ _) _ _ = _ =>
          transitivity (mem_read (mem_write m (16 + sz) V) (16 + sz) (length V));
            [now rewrite HV | apply mem_read_write_same]
      end.
    - subst M3.
      rewrite !mem_read_write_other by lia.
      f_equal; lia. }
  rewrite Hread. clear Hread M3.
  set (R := mem_read addr (sz + 32) rest).
  set (S := L ++ K ++ V ++ R).
  assert (HlenS : length S = (sz + 32 + length R)%nat)
    by (subst S; rewrite !length_app, HL, HK, HV; lia).
  assert (Hfirst : firstn sz S = L).
  { subst S. rewrite firstn_app, HL, Nat.sub_diag, firstn_O, app_nil_r.
    apply firstn_all2. lia. }
  assert (Hskip : skipn sz S = K ++ V ++ R).
  { subst S. rewrite skipn_app, HL, Nat.sub_diag.
    rewrite (skipn_all2 L) by lia. reflexivity. }
  assert (Hskip2 : skipn (16 + sz) S = V ++ R).
  { rewrite <- skipn_skipn, Hskip.
    rewrite skipn_app, HK, Nat.sub_diag.
    rewrite (skipn_all2 K) by lia. reflexivity. }
  cbn [obind]. unfold LeafSlotParse, substr, substr_from.
  rewrite Hfirst. subst L. rewrite le_int_le_bytes.
  fold (wrap_pgoff sz 16). rewrite wrap_pgoff_16 by exact Hsz.
  change (Z.to_nat 16) with 16%nat.
  rewrite Hskip, Hskip2.
  assert (H1 : (sz <=? length S)%nat = true) by (apply Nat.leb_le; lia).
  assert (H2 : (16 + sz <=? length S)%nat = true) by (apply Nat.leb_le; lia).
  rewrite H1, H2. cbn [obind].
  rewrite firstn_app, HK, Nat.sub_diag, firstn_O, app_nil_r.
  rewrite (firstn_all2 K) by lia. reflexivity.
Qed.

(** X1. No key longer than 16 bytes survives the leaf codec: whatever
    the scratch memory held and whatever the width of [pgoff_t], the key
    parsed back from the serialised slot is not the key that went in. *)
Corollary leaf_codec_cuts_long_keys (sz : nat) (addr : memory) (k v : bytes) :
  (1 <= sz)%nat -> (16 < length k)%nat -> (16 <= length v)%nat ->
  forall s, (let? b := leaf_slot_bytes sz addr (mkLeafSlot k v) in
             LeafSlotParse sz b) = Ok s ->
  key s <> k.
Proof.
  intros Hsz Hk Hv s Hs.
  rewrite leaf_codec_general in Hs by lia.
  injection Hs as <-. cbn [key]. intros E.
  apply (f_equal (@length byte)) in E. rewrite length_firstn in E. lia.
Qed.

(** Keys and values shorter than 16 bytes are read past their end. *)
Lemma leaf_codec_short (sz : nat) (addr : memory) (k v : bytes) :
  (1 <= sz)%nat -> (length k < 16)%nat \/ (length v < 16)%nat ->
  leaf_slot_bytes sz addr (mkLeafSlot k v) = Fault BadRead.
Proof.
  intros Hsz H.
  unfold leaf_slot_bytes, LeafSlotSerialize, memcpy.
  cbn [key value sizeof_string_view].
  change (Z.of_nat 16) with 16. rewrite wrap_pgoff_16 by exact Hsz.
  change (Z.to_nat 16) with 16%nat.
  rewrite length_le_bytes, Nat.leb_refl. cbn [obind].
  destruct (16 <=? length k)%nat eqn:Ek; [| reflexivity]. cbn [obind].
  destruct (16 <=? length v)%nat eqn:Ev; [| reflexivity].
  apply Nat.leb_le in Ek, Ev. lia.
Qed.

(** ** The inner codec, for every child id *)

Ltac split_tests H :=
  repeat (cbn [c_str skip_spaces read_digits obind] in H;
          match type of H with
          | context [if ?c then _ else _] =>
              let E := fresh "E" in destruct c eqn:E
          end).

Ltac bool_facts :=
  unfold isspace, isdigit, INT_MIN, INT_MAX in *;
  repeat match goal with
         | H : _ || _ = true |- _ => apply orb_true_iff in H
         | H : _ || _ = false |- _ => apply orb_false_iff in H; destruct H
         | H : _ && _ = true |- _ => apply andb_true_iff in H; destruct H
         | H : _ && _ = false |- _ => apply andb_false_iff in H
         | H : (_ =? _) = true |- _ => apply Z.eqb_eq in H
         | H : (_ =? _) = false |- _ => apply Z.eqb_neq in H
         | H : (_ <=? _) = true |- _ => apply Z.leb_le in H
         | H : (_ <=? _) = false |- _ => apply Z.leb_gt in H
         | H : _ \/ _ |- _ => destruct H
         | H : _ /\ _ |- _ => destruct H
         end.

(** [InnerSlotParse] never returns the number its first four bytes hold
    in binary. *)
Lemma InnerSlotParse_never_binary (b0 b1 b2 b3 : byte) (rest : bytes)
  (s : InnerSlot) :
  InnerSlotParse (b0 :: b1 :: b2 :: b3 :: rest) = Ok s ->
  next s <> le_int [b0; b1; b2; b3].
Proof.
  intros H.
  pose proof (Z_of_byte_range b0). pose proof (Z_of_byte_range b1).
  pose proof (Z_of_byte_range b2). pose proof (Z_of_byte_range b3).
  unfold InnerSlotParse, substr, substr_from, stoi in H.
  cbn [length firstn skipn sizeof_pgid_t Nat.leb obind] in H.
  cbn [le_int].
  split_tests H;
    try discriminate H;
    injection H as <-; cbn [next]; unfold wrap32;
    bool_facts;
    Z.div_mod_to_equations; lia.
Qed.

(** X2. No child id survives the inner codec: parsing what
    [InnerSlotSerialize] wrote throws or returns another page. *)
Corollary inner_codec_never_round_trips (addr : memory) (child : pgid_t)
  (k : bytes) (s : InnerSlot) :
  0 <= child < 2 ^ 32 ->
  (let? b := inner_slot_bytes addr (mkInnerSlot child k) in InnerSlotParse b)
    = Ok s ->
  next s <> child.
Proof.
  intros Hc.
  unfold inner_slot_bytes, InnerSlotSerialize, InnerSlotSize, memcpy,
    sizeof_string_view, sizeof_pgid_t.
  cbn [next strict_upper_bound].
  rewrite length_le_bytes, Nat.leb_refl. cbn [obind].
  destruct (16 <=? length k)%nat; cbn [obind]; [| intros H; discriminate H].
  rewrite mem_read_app.
  rewrite mem_read_write_other by lia.
  rewrite (firstn_all2 (le_bytes 4 child)) by (rewrite length_le_bytes; lia).
  replace (mem_read (mem_write addr 0 (le_bytes 4 child)) 0 4)
    with (le_bytes 4 child)
    by (symmetry; apply (mem_read_write_same addr 0 (le_bytes 4 child))).
  cbn [le_bytes app]. intros H.
  apply InnerSlotParse_never_binary in H.
  intros E. apply H. rewrite E.
  change [byte_of_Z child; byte_of_Z (child / 256);
          byte_of_Z (child / 256 / 256); byte_of_Z (child / 256 / 256 / 256)]
    with (le_bytes 4 child).
  rewrite le_int_le_bytes. symmetry. apply Z.mod_small. exact Hc.
Qed.


(** ** The tuple counter is never written *)

Lemma preserves_ret {A} Inv (a : A) (Q : A -> Prop) :
  Q a -> preserves Inv (ret a) Q.
Proof. intros HQ st HI. split; [exact HI | intros a' [= <-]; exact HQ]. Qed.

Lemma preserves_throw {A} Inv e (Q : A -> Prop) : preserves Inv (throw e) Q.
Proof. intros st HI. split; [exact HI | intros a' [=]]. Qed.

Lemma preserves_lift {A} Inv (o :
  outcome A) : preserves Inv (lift o) (fun _ => True).
Proof. intros st HI. split; [exact HI | trivial]. Qed.

Lemma preserves_bind {A C} Inv (c : M A) (f : A -> M C) Q R :
  preserves Inv c Q ->
  (forall a, Q a -> preserves Inv (f a) R) ->
  preserves Inv (bind c f) R.
Proof.
  intros Hc Hf st HI. unfold bind.
  destruct (Hc st HI) as [HI' HQ].
  destruct (c st) as [[a | e] st'] eqn:E; cbn in *.
  - apply Hf; auto.
  - split; [exact HI' | intros a [=]].
Qed.

Lemma preserves_weaken {A} Inv (c : M A) (Q Q' : A -> Prop) :
  preserves Inv c Q -> (forall a, Q a -> Q' a) -> preserves Inv c Q'.
Proof.
  intros Hc HQ st HI. destruct (Hc st HI) as [HI' H]. split; auto.
Qed.

Section MetaTail.
Variable m : pgid_t.
Variable X : bytes.

Lemma fresh_pgid_free (st : PageManager) : st !! fresh_pgid st = None.
Proof.
  unfold fresh_pgid.
  assert (H : forall k, is_Some (st !! k) ->
            k <= map_fold (fun k _ acc => Z.max k acc) 0 st).
  { apply (map_fold_weak_ind
             (fun r (mm : gmap Z Page) => forall k, is_Some (mm !! k) -> k <= r)).
    - intros k [x Hx]. rewrite lookup_empty in Hx. discriminate.
    - intros i x mm r Hi IH k [y Hy].
      destruct (decide (i = k)) as [-> | Hne].
      + lia.
      + rewrite lookup_insert_ne in Hy by exact Hne.
        specialize (IH k (ex_intro _ y Hy)). lia. }
  apply eq_None_not_Some. intros Hs. specialize (H _ Hs). lia.
Qed.

Lemma sorted_keeps pg :
  preserves (meta_tail m X) (sorted pg) (fun _ => pg <> m).
Proof.
  intros st HI. unfold sorted.
  destruct (st !! pg) as [[d | sp] |] eqn:E; cbn; split; auto;
    try (intros a Ha; discriminate Ha).
  intros a _ ->. destruct HI as [d [Hd _]]. congruence.
Qed.

Lemma put_sorted_keeps pg sp :
  pg <> m -> preserves (meta_tail m X) (put_sorted pg sp) (fun _ => True).
Proof.
  intros Hne st HI. unfold put_sorted.
  destruct (st !! pg) eqn:E; cbn; split; auto.
  destruct HI as [d [Hd HX]]. exists d. split; [| exact HX].
  rewrite lookup_insert_ne by exact Hne. exact Hd.
Qed.

Lemma plain_data_keeps pg :
  preserves (meta_tail m X) (plain_data pg) (fun _ => True).
Proof.
  intros st HI. unfold plain_data.
  destruct (st !! pg) as [[d | sp] |]; cbn; split; auto.
Qed.

Lemma GetPlainPage_keeps pg :
  preserves (meta_tail m X) (GetPlainPage pg) (fun p => p = pg).
Proof.
  intros st HI. unfold GetPlainPage.
  destruct (st !! pg) as [[d | sp] |]; cbn; split; auto;
    try (intros a Ha; discriminate Ha).
  intros a [= <-]. reflexivity.
Qed.

Lemma GetSortedPage_keeps pg :
  preserves (meta_tail m X) (GetSortedPage pg) (fun p => p = pg /\ pg <> m).
Proof.
  intros st HI. unfold GetSortedPage.
  destruct (st !! pg) as [[d | sp] |] eqn:E; cbn; split; auto;
    try (intros a Ha; discriminate Ha).
  intros a [= <-]. split; [reflexivity |].
  intros ->. destruct HI as [d [Hd _]]. congruence.
Qed.

Lemma Allocate_keeps PAGE_SIZE :
  preserves (meta_tail m X) (Allocate PAGE_SIZE) (fun id => id <> m).
Proof.
  intros st HI. unfold Allocate. cbn.
  pose proof (fresh_pgid_free st) as Hf.
  destruct HI as [d [Hd HX]].
  assert (Hne : fresh_pgid st <> m) by (intros E; rewrite E in Hf; congruence).
  split.
  - exists d. split; [| exact HX]. rewrite lookup_insert_ne by exact Hne. exact Hd.
  - intros a [= <-]. exact Hne.
Qed.

Lemma Free_keeps id :
  id <> m -> preserves (meta_tail m X) (Free id) (fun _ => True).
Proof.
  intros Hne st HI. unfold Free.
  destruct (st !! id) eqn:E; cbn; split; auto.
  destruct HI as [d [Hd HX]]. exists d. split; [| exact HX].
  rewrite lookup_delete_ne by exact Hne. exact Hd.
Qed.


Lemma skipn_write_at (d src : bytes) (off n : nat) :
  (off + length src <= length d)%nat -> (off + length src <= n)%nat ->
  skipn n (write_at d off src) = skipn n d.
Proof.
  intros Hd Hn. unfold write_at.
  rewrite !skipn_app, !length_firstn.
  replace (Init.Nat.min off (length d)) with off by lia.
  rewrite (skipn_all2 (firstn off d)) by (rewrite length_firstn; lia).
  rewrite (skipn_all2 src) by lia.
  rewrite skipn_skipn. cbn. f_equal. lia.
Qed.

Lemma Write_keeps pg off src :
  pg <> m \/ (off + length src <= 8)%nat ->
  preserves (meta_tail m X) (Write pg off src) (fun _ => True).
Proof.
  intros Hor st HI. unfold Write, bind, plain_data, throw.
  destruct (st !! pg) as [[d | sp] |] eqn:E; cbn; try (split; auto; fail).
  destruct (off + length src <=? length d)%nat eqn:L; cbn; [| split; auto].
  split; [| auto].
  destruct HI as [d0 [Hd HX]].
  destruct (decide (pg = m)) as [-> | Hne].
  - rewrite Hd in E. injection E as <-.
    exists (write_at d0 off src). split; [apply lookup_insert_eq |].
    rewrite <- HX. apply skipn_write_at.
    + apply Nat.leb_le. exact L.
    + destruct Hor; [contradiction | assumption].
  - exists d0. split; [| exact HX]. rewrite lookup_insert_ne by exact Hne. exact Hd.
Qed.

Lemma Read_keeps pg off len :
  preserves (meta_tail m X) (Read pg off len) (fun _ => True).
Proof.
  unfold Read. eapply preserves_bind; [apply plain_data_keeps |].
  intros d _. destruct (_ <=? _)%nat.
  - apply preserves_ret. exact Logic.I.
  - apply preserves_throw.
Qed.

End MetaTail.

Create HintDb pres discriminated.
#[export] Hint Resolve preserves_lift sorted_keeps put_sorted_keeps plain_data_keeps
  GetPlainPage_keeps GetSortedPage_keeps Allocate_keeps Free_keeps Read_keeps
  : pres.

Ltac pres_intro :=
  intros ? ?;
  cbv beta in *;
  repeat match goal with
         | H : _ /\ _ |- _ => destruct H
         end;
  subst.

Ltac pres_last :=
  first [ apply preserves_throw
        | apply preserves_ret; exact Logic.I
        | solve [eauto with pres]
        | eapply preserves_weaken;
          [solve [eauto with pres] | intros; exact Logic.I] ].

Ltac pres :=
  repeat first
    [ progress cbv zeta
    | pres_last
    | eapply preserves_bind; [ solve [eauto with pres] | pres_intro ]
    | eapply (preserves_bind _ _ _ (fun _ => True)); [ | pres_intro ]
    | match goal with
      | |- preserves _ (if ?b then _ else _) _ => destruct b
      | |- preserves _ (match ?x with _ => _ end) _ => destruct x
      end ].

Section MetaTailPage.
Variable m : pgid_t.
Variable X : bytes.

Lemma SlotNum_keeps pg :
  preserves (meta_tail m X) (SlotNum pg) (fun _ => pg <> m).
Proof.
  unfold SlotNum. eapply preserves_bind; [apply sorted_keeps |].
  intros sp Hne. apply preserves_ret. exact Hne.
Qed.

Lemma Init_keeps pg n :
  pg <> m -> preserves (meta_tail m X) (Init pg n) (fun _ => True).
Proof. intros. unfold Init. pres. Qed.

Lemma IsEmpty_page_keeps pg :
  preserves (meta_tail m X) (IsEmpty_page pg) (fun _ => True).
Proof.
  unfold IsEmpty_page. eapply preserves_bind; [apply SlotNum_keeps |]. intros.
  apply preserves_ret. exact Logic.I.
Qed.

Lemma Slot_keeps pg i : preserves (meta_tail m X) (Slot pg i) (fun _ => True).
Proof. unfold Slot. pres. Qed.

Lemma UpperBound_page_keeps cmp pg k :
  preserves (meta_tail m X) (UpperBound_page cmp pg k) (fun _ => True).
Proof. unfold UpperBound_page. pres. Qed.

Lemma Find_keeps cmp pg k :
  preserves (meta_tail m X) (Find cmp pg k) (fun _ => True).
Proof. unfold Find. pres. Qed.

Lemma FindSlot_keeps cmp pg k :
  preserves (meta_tail m X) (FindSlot cmp pg k) (fun _ => True).
Proof. unfold FindSlot. pres. Qed.

Lemma IsInsertable_keeps P pg s :
  preserves (meta_tail m X) (IsInsertable P pg s) (fun _ => True).
Proof. unfold IsInsertable. pres. Qed.

Lemma InsertBeforeSlot_keeps P pg i s :
  preserves (meta_tail m X) (InsertBeforeSlot P pg i s) (fun _ => True).
Proof. unfold InsertBeforeSlot. pres. Qed.

Lemma DeleteSlot_keeps pg i :
  preserves (meta_tail m X) (DeleteSlot pg i) (fun _ => True).
Proof. unfold DeleteSlot. pres. Qed.

Lemma SplitInsert_keeps pg np s i :
  preserves (meta_tail m X) (SplitInsert pg np s i) (fun _ => True).
Proof. unfold SplitInsert. pres. Qed.

Lemma ReadSpecial_keeps pg off len :
  preserves (meta_tail m X) (ReadSpecial pg off len) (fun _ => True).
Proof. unfold ReadSpecial. pres. Qed.

Lemma WriteSpecial_keeps pg off src :
  preserves (meta_tail m X) (WriteSpecial pg off src) (fun _ => True).
Proof. unfold WriteSpecial. pres. Qed.

End MetaTailPage.

#[export] Hint Resolve SlotNum_keeps Init_keeps IsEmpty_page_keeps Slot_keeps
  UpperBound_page_keeps Find_keeps FindSlot_keeps IsInsertable_keeps
  InsertBeforeSlot_keeps DeleteSlot_keeps SplitInsert_keeps ReadSpecial_keeps
  WriteSpecial_keeps : pres.

Section MetaTailTree.
Variable sizeof_pgoff_t : nat.
Variable PAGE_SIZE : nat.
Variable Compare : bytes -> bytes -> comparison.
Variable addr : memory.
Variable absent_slot : nat -> nat.
Variable indet_page_id : pgid_t.
Variable indet_slot_id : nat.
Variable t : BPlusTree.
Variable X : bytes.

Lemma GetInnerPage_keeps t' pg :
  preserves (meta_tail (meta_pgid_ t) X) (GetInnerPage t' pg)
    (fun p => p = pg /\ pg <> meta_pgid_ t).
Proof. apply GetSortedPage_keeps. Qed.

Lemma GetLeafPage_keeps t' pg :
  preserves (meta_tail (meta_pgid_ t) X) (GetLeafPage t' pg)
    (fun p => p = pg /\ pg <> meta_pgid_ t).
Proof. apply GetSortedPage_keeps. Qed.

Lemma GetMetaPage_keeps :
  preserves (meta_tail (meta_pgid_ t) X) (GetMetaPage t)
    (fun p => p = meta_pgid_ t).
Proof. apply GetPlainPage_keeps. Qed.

Lemma FreePage_keeps pg :
  pg <> meta_pgid_ t -> preserves (meta_tail (meta_pgid_ t) X) (FreePage pg)
    (fun _ => True).
Proof. intros. unfold FreePage. apply Free_keeps. assumption. Qed.

Hint Resolve GetInnerPage_keeps GetLeafPage_keeps GetMetaPage_keeps
  FreePage_keeps : pres.

Lemma AllocInnerPage_keeps t' :
  preserves (meta_tail (meta_pgid_ t) X) (AllocInnerPage PAGE_SIZE t')
    (fun _ => True).
Proof. unfold AllocInnerPage, AllocSortedPage. pres. Qed.

Lemma AllocLeafPage_keeps t' :
  preserves (meta_tail (meta_pgid_ t) X) (AllocLeafPage PAGE_SIZE t')
    (fun _ => True).
Proof. unfold AllocLeafPage, AllocSortedPage. pres. Qed.

Lemma GetInnerSpecial_keeps pg :
  preserves (meta_tail (meta_pgid_ t) X) (GetInnerSpecial pg) (fun _ => True).
Proof. unfold GetInnerSpecial. pres. Qed.
Lemma SetInnerSpecial_keeps pg p :
  preserves (meta_tail (meta_pgid_ t) X) (SetInnerSpecial pg p) (fun _ => True).
Proof. unfold SetInnerSpecial. pres. Qed.
Lemma GetLeafPrev_keeps pg :
  preserves (meta_tail (meta_pgid_ t) X) (GetLeafPrev pg) (fun _ => True).
Proof. unfold GetLeafPrev. pres. Qed.
Lemma SetLeafPrev_keeps pg p :
  preserves (meta_tail (meta_pgid_ t) X) (SetLeafPrev pg p) (fun _ => True).
Proof. unfold SetLeafPrev. pres. Qed.
Lemma GetLeafNext_keeps pg :
  preserves (meta_tail (meta_pgid_ t) X) (GetLeafNext pg) (fun _ => True).
Proof. unfold GetLeafNext. pres. Qed.
Lemma SetLeafNext_keeps pg p :
  preserves (meta_tail (meta_pgid_ t) X) (SetLeafNext pg p) (fun _ => True).
Proof. unfold SetLeafNext. pres. Qed.

Lemma LevelNum_keeps :
  preserves (meta_tail (meta_pgid_ t) X) (LevelNum t) (fun _ => True).
Proof. unfold LevelNum. pres. Qed.
Lemma Root_keeps :
  preserves (meta_tail (meta_pgid_ t) X) (Root t) (fun _ => True).
Proof. unfold Root. pres. Qed.

Lemma UpdateLevelNum_keeps n :
  preserves (meta_tail (meta_pgid_ t) X) (UpdateLevelNum t n) (fun _ => True).
Proof.
  unfold UpdateLevelNum. eapply preserves_bind; [apply GetMetaPage_keeps |].
  intros p ->. apply Write_keeps. right. cbn. lia.
Qed.

Lemma UpdateRoot_keeps r :
  preserves (meta_tail (meta_pgid_ t) X) (UpdateRoot t r) (fun _ => True).
Proof.
  unfold UpdateRoot. eapply preserves_bind; [apply GetMetaPage_keeps |].
  intros p ->. apply Write_keeps. right. cbn. lia.
Qed.

Lemma pop_keeps {A} (l :
  list A) : preserves (meta_tail (meta_pgid_ t) X) (pop l) (fun _ => True).
Proof. unfold pop. pres. Qed.

Hint Resolve AllocInnerPage_keeps AllocLeafPage_keeps GetInnerSpecial_keeps
  SetInnerSpecial_keeps GetLeafPrev_keeps SetLeafPrev_keeps GetLeafNext_keeps
  SetLeafNext_keeps LevelNum_keeps Root_keeps UpdateLevelNum_keeps
  UpdateRoot_keeps pop_keeps : pres.

Lemma step_down_keeps inn k :
  preserves (meta_tail (meta_pgid_ t) X) (step_down t inn k) (fun _ => True).
Proof. unfold step_down. pres. Qed.
Hint Resolve step_down_keeps : pres.

Lemma descend_keeps rounds inn k :
  preserves (meta_tail (meta_pgid_ t) X) (descend rounds t inn k)
    (fun _ => True).
Proof.
  revert inn. induction rounds as [| r IH]; intros inn; cbn [descend]; pres.
Qed.

Lemma pick_leaf_keeps inn k :
  preserves (meta_tail (meta_pgid_ t) X) (pick_leaf t inn k) (fun _ => True).
Proof. unfold pick_leaf. pres. Qed.

Lemma leaf_value_keeps leaf k :
  preserves (meta_tail (meta_pgid_ t) X) (leaf_value sizeof_pgoff_t t leaf k)
    (fun _ => True).
Proof. unfold leaf_value. pres. Qed.

Hint Resolve descend_keeps pick_leaf_keeps leaf_value_keeps : pres.

Lemma Get_keeps k :
  preserves (meta_tail (meta_pgid_ t) X) (Get sizeof_pgoff_t t k)
    (fun _ => True).
Proof. unfold Get. pres. Qed.

Lemma LeafSmallestKey_keeps leaf :
  preserves (meta_tail (meta_pgid_ t) X) (LeafSmallestKey sizeof_pgoff_t leaf)
    (fun _ => True).
Proof. unfold LeafSmallestKey. pres. Qed.

Lemma InnerFirstPage_keeps inner :
  preserves (meta_tail (meta_pgid_ t) X) (InnerFirstPage inner) (fun _ => True).
Proof. unfold InnerFirstPage. pres. Qed.
Hint Resolve LeafSmallestKey_keeps InnerFirstPage_keeps : pres.

Lemma SmallestLeaf_loop_keeps rounds cur :
  preserves (meta_tail (meta_pgid_ t) X) (SmallestLeaf_loop rounds t cur)
    (fun _ => True).
Proof.
  revert cur. induction rounds as [| r IH]; intros cur; cbn [SmallestLeaf_loop];
    pres.
Qed.
Hint Resolve SmallestLeaf_loop_keeps : pres.

Lemma SmallestLeaf_keeps inner level :
  preserves (meta_tail (meta_pgid_ t) X) (SmallestLeaf t inner level)
    (fun _ => True).
Proof. unfold SmallestLeaf. pres. Qed.
Hint Resolve SmallestLeaf_keeps : pres.

Lemma InnerSmallestKey_keeps inner level :
  preserves (meta_tail (meta_pgid_ t) X)
    (InnerSmallestKey sizeof_pgoff_t t inner level)
    (fun _ => True).
Proof. unfold InnerSmallestKey. pres. Qed.

Lemma find_slot_id_keeps leaf k :
  preserves (meta_tail (meta_pgid_ t) X)
    (find_slot_id sizeof_pgoff_t absent_slot t leaf k)
    (fun _ => True).
Proof. unfold find_slot_id. pres. Qed.

Lemma descend_par_keeps rounds inn k level par :
  preserves (meta_tail (meta_pgid_ t) X) (descend_par rounds t inn k level par)
    (fun _ => True).
Proof.
  revert inn level par.
  induction rounds as [| r IH]; intros inn level par; cbn [descend_par];
    pres.
Qed.
Hint Resolve InnerSmallestKey_keeps find_slot_id_keeps descend_par_keeps : pres.

Lemma Insert_split_loop_keeps par k cur lev slot_next upper inn addr1 :
  preserves (meta_tail (meta_pgid_ t) X)
    (Insert_split_loop sizeof_pgoff_t PAGE_SIZE addr par t k cur lev
       slot_next upper inn addr1)
    (fun _ => True).
Proof.
  revert inn addr1.
  induction par as [| po par IH]; intros inn addr1; cbn [Insert_split_loop];
    pres.
Qed.
Hint Resolve Insert_split_loop_keeps : pres.

Lemma Insert_keeps k v :
  preserves (meta_tail (meta_pgid_ t) X)
    (Insert sizeof_pgoff_t PAGE_SIZE addr absent_slot t k v)
    (fun _ => True).
Proof. unfold Insert. pres. Qed.

Lemma Open_keeps id :
  preserves (meta_tail (meta_pgid_ t) X) (Open Compare id) (fun _ => True).
Proof. unfold Open. pres. Qed.
Hint Resolve Open_keeps : pres.

Lemma Iter_Next_keeps it :
  preserves (meta_tail (meta_pgid_ t) X) (Iter_Next Compare it) (fun _ => True).
Proof. unfold Iter_Next. pres. Qed.

Lemma Begin_keeps :
  preserves (meta_tail (meta_pgid_ t) X) (Begin indet_page_id indet_slot_id t)
    (fun _ => True).
Proof. unfold Begin. pres. Qed.
Hint Resolve Iter_Next_keeps Begin_keeps : pres.

Lemma TupleNum_loop_keeps fuel beg s1 p1 s2 p2 sum :
  preserves (meta_tail (meta_pgid_ t) X)
    (TupleNum_loop Compare fuel beg s1 p1 s2 p2 sum)
    (fun _ => True).
Proof.
  revert beg s1 p1 s2 p2 sum.
  induction fuel as [| f IH]; intros; cbn [TupleNum_loop]; pres.
Qed.
Hint Resolve TupleNum_loop_keeps : pres.

Lemma IsEmpty_keeps fuel :
  preserves (meta_tail (meta_pgid_ t) X)
    (IsEmpty Compare indet_page_id indet_slot_id fuel t)
    (fun _ => True).
Proof. unfold IsEmpty, TupleNum. pres. Qed.

Lemma descend_ids_keeps rounds inn k par :
  preserves (meta_tail (meta_pgid_ t) X) (descend_ids rounds t inn k par)
    (fun _ => True).
Proof.
  revert inn par.
  induction rounds as [| r IH]; intros inn par; cbn [descend_ids]; pres.
Qed.

Lemma DeleteSlotByKey_keeps cmp pg k :
  preserves (meta_tail (meta_pgid_ t) X) (DeleteSlotByKey cmp pg k)
    (fun _ => True).
Proof. unfold DeleteSlotByKey. pres. Qed.

Lemma Delete_collapse_keeps par k inn :
  preserves (meta_tail (meta_pgid_ t) X) (Delete_collapse par t k inn)
    (fun _ => True).
Proof.
  revert inn.
  induction par as [| pa par IH]; intros inn; cbn [Delete_collapse]; pres.
Qed.
Hint Resolve IsEmpty_keeps descend_ids_keeps DeleteSlotByKey_keeps
  Delete_collapse_keeps Insert_keeps : pres.

Lemma Delete_keeps fuel k :
  preserves (meta_tail (meta_pgid_ t) X)
    (Delete sizeof_pgoff_t Compare indet_page_id indet_slot_id fuel t k)
    (fun _ => True).
Proof. unfold Delete. pres. Qed.
Hint Resolve Delete_keeps : pres.

Lemma Update_keeps fuel k v :
  preserves (meta_tail (meta_pgid_ t) X)
    (Update sizeof_pgoff_t PAGE_SIZE Compare addr absent_slot indet_page_id
       indet_slot_id fuel t k v)
    (fun _ => True).
Proof. unfold Update. pres. Qed.

End MetaTailTree.

Lemma meta_tuple_num_tail t st n :
  fst (meta_tuple_num t st) = Ok n <->
  exists X, meta_tail (meta_pgid_ t) X st
            /\ (8 <= length X)%nat /\ n = le_int (firstn 8 X).
Proof.
  unfold meta_tuple_num, GetMetaPage, GetPlainPage, Read, plain_data, bind,
    ret, throw, meta_tail.
  destruct (st !! meta_pgid_ t) as [[d | sp] |] eqn:E;
    cbn -[Nat.leb firstn skipn le_int].
  - rewrite E. cbn -[Nat.leb firstn skipn le_int].
    match goal with
    | |- context [(?a <=? length d)%nat] =>
        destruct (a <=? length d)%nat eqn:L
    end; cbn -[Nat.leb firstn skipn le_int].
    + apply Nat.leb_le in L. split.
      * intros [= <-]. exists (skipn 8 d). split; [eauto |].
        rewrite length_skipn. split; [lia | reflexivity].
      * intros [X [[d' [[= <-] <-]] [_ ->]]]. reflexivity.
    + apply Nat.leb_gt in L. split; [discriminate |].
      intros [X [[d' [[= <-] <-]] [HX _]]]. rewrite length_skipn in HX. lia.
  - split; [discriminate | intros [X [[d' [[=] _]] _]]].
  - split; [discriminate | intros [X [[d' [[=] _]] _]]].
Qed.

Lemma preserves_tuple_num {A} t (c : M A) st n :
  (forall X, preserves (meta_tail (meta_pgid_ t) X) c (fun _ => True)) ->
  fst (meta_tuple_num t st) = Ok n ->
  fst (meta_tuple_num t (snd (c st))) = Ok n.
Proof.
  intros Hc Hn. apply meta_tuple_num_tail in Hn as [X [HX [Hlen ->]]].
  apply meta_tuple_num_tail. exists X.
  split; [apply (Hc X st HX) | split; [exact Hlen | reflexivity]].
Qed.

(** The [tuple_num] field of the meta page is the same after [Insert],
    [Delete] and [Update] as before, whatever they return. *)
Theorem Insert_keeps_tuple_num sz P addr absent_slot t k v st n :
  fst (meta_tuple_num t st) = Ok n ->
  fst (meta_tuple_num t (snd (Insert sz P addr absent_slot t k v st))) = Ok n.
Proof. apply preserves_tuple_num. intros X. apply Insert_keeps. Qed.

Theorem Delete_keeps_tuple_num sz Compare ip isl fuel t k st n :
  fst (meta_tuple_num t st) = Ok n ->
  fst (meta_tuple_num t (snd (Delete sz Compare ip isl fuel t k st))) = Ok n.
Proof. apply preserves_tuple_num. intros X. apply Delete_keeps. Qed.

Theorem Update_keeps_tuple_num sz P Compare addr absent_slot ip isl fuel t k v
  st n :
  fst (meta_tuple_num t st) = Ok n ->
  fst (meta_tuple_num t
         (snd (Update sz P Compare addr absent_slot ip isl fuel t k v st)))
  = Ok n.
Proof. apply preserves_tuple_num. intros X. apply Update_keeps. Qed.

(** ** What reads only, and what returns [false] *)

Lemma read_only_ret {A} (a : A) : read_only (ret a).
Proof. intros st. reflexivity. Qed.

Lemma read_only_throw {A} e : read_only (@throw A e).
Proof. intros st. reflexivity. Qed.

Lemma read_only_lift {A} (o : outcome A) : read_only (lift o).
Proof. intros st. reflexivity. Qed.

Lemma read_only_bind {A C} (c : M A) (f : A -> M C) :
  read_only c -> (forall a, read_only (f a)) -> read_only (bind c f).
Proof.
  intros Hc Hf st. unfold bind. specialize (Hc st).
  destruct (c st) as [[a | e] st']; cbn in *; subst; [apply Hf | reflexivity].
Qed.

Lemma quiet_bind {A} (c : M A) (f : A -> M bool) :
  read_only c -> (forall a, quiet_when_false (f a)) ->
  quiet_when_false (bind c f).
Proof.
  intros Hc Hf st. unfold bind. specialize (Hc st).
  destruct (c st) as [[a | e] st']; cbn in *; subst; [apply Hf | reflexivity].
Qed.

Lemma never_false_bind {A} (c : M A) (f : A -> M bool) :
  (forall a, never_false (f a)) -> never_false (bind c f).
Proof.
  intros Hf st. unfold bind.
  destruct (c st) as [[a | e] st']; cbn; [apply Hf | discriminate].
Qed.

Lemma never_false_ret_true : never_false (ret true).
Proof. intros st. cbn. discriminate. Qed.

Lemma quiet_of_never_false (c : M bool) : never_false c -> quiet_when_false c.
Proof. intros H st E. destruct (H st E). Qed.

Lemma quiet_of_read_only (c : M bool) : read_only c -> quiet_when_false c.
Proof. intros H st _. apply H. Qed.

Lemma read_only_sorted pg : read_only (sorted pg).
Proof.
  intros st. unfold sorted. destruct (st !! pg) as [[? | ?] |]; reflexivity.
Qed.

Lemma read_only_plain_data pg : read_only (plain_data pg).
Proof.
  intros st. unfold plain_data.
  destruct (st !! pg) as [[? | ?] |]; reflexivity.
Qed.

Lemma read_only_GetPlainPage pg : read_only (GetPlainPage pg).
Proof.
  intros st. unfold GetPlainPage.
  destruct (st !! pg) as [[? | ?] |]; reflexivity.
Qed.

Lemma read_only_GetSortedPage pg : read_only (GetSortedPage pg).
Proof.
  intros st. unfold GetSortedPage.
  destruct (st !! pg) as [[? | ?] |]; reflexivity.
Qed.

Create HintDb ro discriminated.
#[export] Hint Resolve read_only_ret read_only_throw read_only_lift
  read_only_sorted read_only_plain_data read_only_GetPlainPage
  read_only_GetSortedPage : ro.

Ltac ro :=
  repeat first
    [ progress cbv zeta
    | solve [eauto with ro]
    | apply read_only_bind; [ | intros ? ]
    | match goal with
      | |- read_only (if ?b then _ else _) => destruct b
      | |- read_only (match ?x with _ => _ end) => destruct x
      end ].

Lemma read_only_Read pg off len : read_only (Read pg off len).
Proof. unfold Read. ro. Qed.
Lemma read_only_SlotNum pg : read_only (SlotNum pg).
Proof. unfold SlotNum. ro. Qed.
Lemma read_only_Slot pg i : read_only (Slot pg i).
Proof. unfold Slot. ro. Qed.
Lemma read_only_UpperBound_page cmp pg k : read_only (UpperBound_page cmp pg k).
Proof. unfold UpperBound_page. ro. Qed.
Lemma read_only_FindSlot cmp pg k : read_only (FindSlot cmp pg k).
Proof. unfold FindSlot. ro. Qed.
Lemma read_only_ReadSpecial pg off len : read_only (ReadSpecial pg off len).
Proof. unfold ReadSpecial. ro. Qed.
#[export] Hint Resolve read_only_Read read_only_SlotNum read_only_Slot
  read_only_UpperBound_page read_only_FindSlot read_only_ReadSpecial : ro.

Lemma read_only_GetInnerSpecial pg : read_only (GetInnerSpecial pg).
Proof. unfold GetInnerSpecial. ro. Qed.
Lemma read_only_GetInnerPage t pg : read_only (GetInnerPage t pg).
Proof. apply read_only_GetSortedPage. Qed.
Lemma read_only_GetLeafPage t pg : read_only (GetLeafPage t pg).
Proof. apply read_only_GetSortedPage. Qed.
Lemma read_only_GetMetaPage t : read_only (GetMetaPage t).
Proof. apply read_only_GetPlainPage. Qed.
#[export] Hint Resolve read_only_GetInnerSpecial read_only_GetInnerPage
  read_only_GetLeafPage read_only_GetMetaPage : ro.

Lemma read_only_LevelNum t : read_only (LevelNum t).
Proof. unfold LevelNum. ro. Qed.
Lemma read_only_Root t : read_only (Root t).
Proof. unfold Root. ro. Qed.
Lemma read_only_meta_tuple_num t : read_only (meta_tuple_num t).
Proof. unfold meta_tuple_num. ro. Qed.
#[export] Hint Resolve read_only_LevelNum read_only_Root : ro.

Lemma read_only_step_down t inn k : read_only (step_down t inn k).
Proof. unfold step_down. ro. Qed.
#[export] Hint Resolve read_only_step_down : ro.

Lemma read_only_descend rounds t inn k : read_only (descend rounds t inn k).
Proof. revert inn. induction rounds; intros inn; cbn [descend]; ro. Qed.

Lemma read_only_descend_ids rounds t inn k par :
  read_only (descend_ids rounds t inn k par).
Proof.
  revert inn par. induction rounds; intros inn par; cbn [descend_ids]; ro.
Qed.

Lemma read_only_pick_leaf t inn k : read_only (pick_leaf t inn k).
Proof. unfold pick_leaf. ro. Qed.

Lemma read_only_leaf_value sz t leaf k : read_only (leaf_value sz t leaf k).
Proof. unfold leaf_value. ro. Qed.
#[export] Hint Resolve read_only_descend read_only_descend_ids
  read_only_pick_leaf read_only_leaf_value : ro.

(** [Get] changes no page, whether it returns or faults. *)
Theorem Get_read_only sz t k : read_only (Get sz t k).
Proof. unfold Get. ro. Qed.

Ltac quiet :=
  repeat first
    [ progress cbv zeta
    | apply quiet_bind; [ solve [eauto with ro] | intros ? ]
    | match goal with
      | |- quiet_when_false (if ?b then _ else _) => destruct b
      | |- quiet_when_false (match ?x with _ => _ end) => destruct x
      end
    | apply quiet_of_read_only; solve [eauto with ro]
    | apply quiet_of_never_false;
      repeat first [ apply never_false_ret_true
                   | apply never_false_bind; intros ? ] ].

(** Whenever [Delete] returns [false], every page, the meta page among
    them, is as it was. *)
Theorem Delete_false_changes_nothing sz Compare indet_page_id indet_slot_id
  fuel t k :
  quiet_when_false (Delete sz Compare indet_page_id indet_slot_id fuel t k).
Proof. unfold Delete. quiet. Qed.

(** And so for [Update]. *)
Theorem Update_false_changes_nothing sz P Compare addr absent_slot
  indet_page_id indet_slot_id fuel t k v :
  quiet_when_false
    (Update sz P Compare addr absent_slot indet_page_id indet_slot_id fuel t k v).
Proof.
  intros st. unfold Update, bind.
  pose proof (Delete_false_changes_nothing sz Compare indet_page_id
                indet_slot_id fuel t k st) as HD.
  destruct (Delete sz Compare indet_page_id indet_slot_id fuel t k st)
    as [[[|] | e] st'] eqn:E; cbn in *.
  - destruct (Insert sz P addr absent_slot t k v st') as [[b | e] st''];
      cbn; discriminate.
  - intros _. apply HD. reflexivity.
  - discriminate.
Qed.

(** [Update] returns exactly when [Delete] does, and [true] exactly when
    [Delete] returned [true] and [Insert] returned at all. *)
Lemma Update_true_iff sz P Compare addr absent_slot
  indet_page_id indet_slot_id fuel t k v st :
  fst (Update sz P Compare addr absent_slot indet_page_id indet_slot_id fuel
         t k v st) = Ok true
  <-> exists b,
      fst (Delete sz Compare indet_page_id indet_slot_id fuel t k st) = Ok true
      /\ fst (Insert sz P addr absent_slot t k v
                (snd (Delete sz Compare indet_page_id indet_slot_id fuel t k st)))
         = Ok b.
Proof.
  unfold Update, bind.
  destruct (Delete sz Compare indet_page_id indet_slot_id fuel t k st)
    as [[[|] | e] st'] eqn:E; cbn.
  - destruct (Insert sz P addr absent_slot t k v st') as [[b | e] st''] eqn:F;
      cbn; split.
    + intros _. exists b. split; reflexivity.
    + reflexivity.
    + discriminate.
    + intros [b [_ Hb]]. discriminate.
  - split; [discriminate | intros [b [H _]]; discriminate].
  - split; [discriminate | intros [b [H _]]; discriminate].
Qed.

(** ** The links after a split of the root leaf *)

Section SpecialIs.
Variable p : pgid_t.
Variable S : bytes.

Lemma sorted_special pg :
  preserves (special_is p S) (sorted pg) (fun sp => pg = p -> special sp = S).
Proof.
  intros st HI. unfold sorted.
  destruct (st !! pg) as [[d | sp] |] eqn:E; cbn; split; auto;
    try (intros a Ha; discriminate Ha).
  intros a [= <-] ->. destruct HI as [sl Hsl]. rewrite Hsl in E.
  injection E as <-. reflexivity.
Qed.

Lemma put_sorted_special pg sp :
  (pg = p -> special sp = S) -> preserves (special_is p S) (put_sorted pg sp)
    (fun _ => True).
Proof.
  intros Hsp st HI. unfold put_sorted.
  destruct (st !! pg) eqn:E; cbn; split; auto.
  destruct HI as [sl Hsl].
  destruct (decide (pg = p)) as [-> | Hne].
  - destruct sp as [sl' S']. cbn in Hsp. rewrite Hsp by reflexivity.
    exists sl'. apply lookup_insert_eq.
  - exists sl. rewrite lookup_insert_ne by exact Hne. exact Hsl.
Qed.

Lemma plain_data_special pg :
  preserves (special_is p S) (plain_data pg) (fun _ => pg <> p).
Proof.
  intros st HI. unfold plain_data.
  destruct (st !! pg) as [[d | sp] |] eqn:E; cbn; split; auto;
    try (intros a Ha; discriminate Ha).
  intros a _ ->. destruct HI as [sl Hsl]. congruence.
Qed.

Lemma GetPlainPage_special pg :
  preserves (special_is p S) (GetPlainPage pg) (fun a => a = pg).
Proof.
  intros st HI. unfold GetPlainPage.
  destruct (st !! pg) as [[d | sp] |]; cbn; split; auto;
    try (intros a Ha; discriminate Ha).
  intros a [= <-]. reflexivity.
Qed.

Lemma GetSortedPage_special pg :
  preserves (special_is p S) (GetSortedPage pg) (fun a => a = pg).
Proof.
  intros st HI. unfold GetSortedPage.
  destruct (st !! pg) as [[d | sp] |]; cbn; split; auto;
    try (intros a Ha; discriminate Ha).
  intros a [= <-]. reflexivity.
Qed.

Lemma Allocate_special P :
  preserves (special_is p S) (Allocate P) (fun id => id <> p).
Proof.
  intros st HI. unfold Allocate. cbn.
  pose proof (fresh_pgid_free st) as Hf.
  destruct HI as [sl Hsl].
  assert (Hne : fresh_pgid st <> p) by (intros E; rewrite E in Hf; congruence).
  split.
  - exists sl. rewrite lookup_insert_ne by exact Hne. exact Hsl.
  - intros a [= <-]. exact Hne.
Qed.

Lemma Write_special pg off src :
  preserves (special_is p S) (Write pg off src) (fun _ => True).
Proof.
  unfold Write. eapply preserves_bind; [apply plain_data_special |].
  intros d Hne. destruct (_ <=? _)%nat; [| apply preserves_throw].
  intros st [sl Hsl]. cbn. split; [| trivial].
  exists sl. rewrite lookup_insert_ne by exact Hne. exact Hsl.
Qed.

End SpecialIs.

#[export] Hint Resolve sorted_special put_sorted_special plain_data_special
  GetPlainPage_special GetSortedPage_special Allocate_special Write_special
  : pres.

Section SpecialIsPage.
Variable p : pgid_t.
Variable S : bytes.

Lemma Init_special pg n :
  pg <> p -> preserves (special_is p S) (Init pg n) (fun _ => True).
Proof.
  intros Hne. unfold Init. apply put_sorted_special. intros E. contradiction.
Qed.

Lemma Slot_special pg i :
  preserves (special_is p S) (Slot pg i) (fun _ => True).
Proof. unfold Slot. pres. Qed.

Lemma InsertBeforeSlot_special P pg i s :
  preserves (special_is p S) (InsertBeforeSlot P pg i s) (fun _ => True).
Proof. unfold InsertBeforeSlot. pres. Qed.

Lemma SplitInsert_special pg np s i :
  preserves (special_is p S) (SplitInsert pg np s i) (fun _ => True).
Proof. unfold SplitInsert. pres. Qed.

Lemma WriteSpecial_special pg off src :
  pg <> p -> preserves (special_is p S) (WriteSpecial pg off src)
    (fun _ => True).
Proof.
  intros Hne. unfold WriteSpecial.
  eapply preserves_bind; [apply sorted_special |].
  intros sp _. destruct (_ <=? _)%nat; [| apply preserves_throw].
  apply put_sorted_special. intros E. contradiction.
Qed.

End SpecialIsPage.

#[export] Hint Resolve Init_special Slot_special InsertBeforeSlot_special
  SplitInsert_special WriteSpecial_special : pres.

Section SpecialIsTree.
Variable PAGE_SIZE : nat.
Variable t : BPlusTree.
Variable p : pgid_t.
Variable S : bytes.

Lemma GetLeafPage_special pg :
  preserves (special_is p S) (GetLeafPage t pg) (fun a => a = pg).
Proof. apply GetSortedPage_special. Qed.

Lemma GetMetaPage_special :
  preserves (special_is p S) (GetMetaPage t) (fun a => a = meta_pgid_ t).
Proof. apply GetPlainPage_special. Qed.
Hint Resolve GetLeafPage_special GetMetaPage_special : pres.

Lemma AllocInnerPage_special :
  preserves (special_is p S) (AllocInnerPage PAGE_SIZE t) (fun id => id <> p).
Proof.
  unfold AllocInnerPage, AllocSortedPage.
  eapply preserves_bind; [apply Allocate_special |].
  intros id Hne.
  eapply preserves_bind; [apply Init_special; exact Hne |].
  intros _ _. apply preserves_ret. exact Hne.
Qed.

Lemma UpdateRoot_special r :
  preserves (special_is p S) (UpdateRoot t r) (fun _ => True).
Proof. unfold UpdateRoot. pres. Qed.

Lemma UpdateLevelNum_special n :
  preserves (special_is p S) (UpdateLevelNum t n) (fun _ => True).
Proof. unfold UpdateLevelNum. pres. Qed.

Lemma SetInnerSpecial_special pg q :
  pg <> p -> preserves (special_is p S) (SetInnerSpecial pg q) (fun _ => True).
Proof.
  intros. unfold SetInnerSpecial. apply WriteSpecial_special. assumption.
Qed.

End SpecialIsTree.

#[export] Hint Resolve GetLeafPage_special GetMetaPage_special
  AllocInnerPage_special UpdateRoot_special UpdateLevelNum_special
  SetInnerSpecial_special : pres.

Lemma bind_Ok {A C} (c : M A) (f : A -> M C) st a st1 :
  c st = (Ok a, st1) -> bind c f st = f a st1.
Proof. intros E. unfold bind. rewrite E. reflexivity. Qed.

Lemma bind_Fault {A C} (c : M A) (f : A -> M C) st e st1 :
  c st = (Fault e, st1) -> bind c f st = (Fault e, st1).
Proof. intros E. unfold bind. rewrite E. reflexivity. Qed.

Lemma read_only_run {A} (c : M A) st a :
  read_only c -> fst (c st) = Ok a -> c st = (Ok a, st).
Proof.
  intros Hro Ha. specialize (Hro st).
  destruct (c st) as [o st1]; cbn in *. subst. reflexivity.
Qed.

Lemma le_int_range (bs :
  bytes) : 0 <= le_int bs < 2 ^ (8 * Z.of_nat (length bs)).
Proof.
  induction bs as [| b bs IH]; cbn [le_int length].
  - cbn. lia.
  - pose proof (Z_of_byte_range b).
    replace (8 * Z.of_nat (Datatypes.S (length bs)))
      with (8 + 8 * Z.of_nat (length bs)) by lia.
    rewrite Z.pow_add_r by lia. change (2 ^ 8) with 256. nia.
Qed.

Lemma ReadSpecial_written st pg sl d off src :
  (off <= length d)%nat ->
  st !! pg = Some (SortedPg (mkSortedPage sl (write_at d off src))) ->
  ReadSpecial pg off (length src) st = (Ok src, st).
Proof.
  intros Hoff Hpg. unfold ReadSpecial, sorted, bind, ret, throw.
  rewrite Hpg. cbn [special].
  assert (Hlen : (off + length src <=? length (write_at d off src))%nat = true).
  { apply Nat.leb_le. unfold write_at.
    rewrite !length_app, length_firstn. lia. }
  rewrite Hlen. f_equal. f_equal.
  unfold write_at.
  rewrite skipn_app, length_firstn.
  replace (Init.Nat.min off (length d)) with off by lia.
  rewrite Nat.sub_diag, skipn_all2 by (rewrite length_firstn; lia).
  rewrite app_nil_l, skipn_O.
  rewrite firstn_app, Nat.sub_diag, firstn_O, app_nil_r.
  apply firstn_all2. lia.
Qed.

Section RootLeafSplit.
Variable sizeof_pgoff_t : nat.
Variable PAGE_SIZE : nat.
Variable addr : memory.
Variable absent_slot : nat -> nat.
Variable t : BPlusTree.

Lemma Root_range st cur : fst (Root t st) = Ok cur -> 0 <= cur < 2 ^ 32.
Proof.
  unfold Root, GetMetaPage, GetPlainPage, Read, plain_data, bind, ret, throw.
  destruct (st !! meta_pgid_ t) as [[d | sp] |] eqn:E;
    cbn -[Nat.leb firstn skipn le_int]; try discriminate.
  rewrite E. cbn -[Nat.leb firstn skipn le_int].
  match goal with
  | |- context [if ?c then _ else _] => destruct c eqn:L
  end; cbn -[Nat.leb firstn skipn le_int]; [| discriminate].
  intros [= <-]. apply Nat.leb_le in L.
  pose proof (le_int_range (firstn sizeof_pgid_t (skipn 4 d))) as R.
  rewrite length_firstn, length_skipn in R.
  unfold sizeof_pgid_t in *.
  replace (Init.Nat.min 4 (length d - 4)) with 4%nat in R by lia.
  exact R.
Qed.

(** X3. When the root is a leaf with no room for the new slot, [Insert]
    allocates the sibling [fresh_pgid st] and, if it returns, leaves the
    chain with the sibling in front of the old root: the sibling's next
    pointer is the old root, and the old root's prev pointer is the
    sibling. *)
Theorem root_leaf_split_links_left k v st st' b cur s :
  fst (Root t st) = Ok cur ->
  fst (LevelNum t st) = Ok 1 ->
  leaf_slot_bytes sizeof_pgoff_t addr (mkLeafSlot k v) = Ok s ->
  fst (IsInsertable PAGE_SIZE cur s st) = Ok false ->
  Insert sizeof_pgoff_t PAGE_SIZE addr absent_slot t k v st = (Ok b, st') ->
  fst (GetLeafNext (fresh_pgid st) st') = Ok cur
  /\ fst (GetLeafPrev cur st') = Ok (wrap32 (fresh_pgid st)).
Proof.
  intros HRoot HLevel Hs HIns HInsert.
  pose proof (Root_range _ _ HRoot) as Hcur.
  unfold Insert in HInsert.
  rewrite (bind_Ok _ _ _ _ _ (read_only_run _ _ _ (read_only_Root t) HRoot))
    in HInsert.
  rewrite (bind_Ok _ _ _ _ _ (read_only_run _ _ _ (read_only_LevelNum t) HLevel))
    in HInsert.
  cbv zeta in HInsert. rewrite Hs in HInsert.
  rewrite (bind_Ok (lift (Ok s)) _ st s st eq_refl) in HInsert.
  change (wrap8 (1 - 1) =? 0) with true in HInsert. cbv iota in HInsert.
  (* the root leaf is a sorted page *)
  assert (Hsp : exists sp, st !! cur = Some (SortedPg sp)
                           /\ fits PAGE_SIZE sp s = false).
  { revert HIns. unfold IsInsertable, sorted, bind, ret.
    destruct (st !! cur) as [[d | sp] |]; cbn; try discriminate.
    intros [= E]. eauto. }
  destruct Hsp as [sp [Hcurpg Hfits]].
  assert (HGet : GetLeafPage t cur st = (Ok cur, st)).
  { unfold GetLeafPage, GetSortedPage. rewrite Hcurpg. reflexivity. }
  rewrite (bind_Ok _ _ _ _ _ HGet) in HInsert.
  (* find_slot_id reads only *)
  assert (Hfind : read_only (find_slot_id sizeof_pgoff_t absent_slot t cur k)).
  { unfold find_slot_id, Find. ro. }
  pose proof (Hfind st) as Hfst.
  destruct (find_slot_id sizeof_pgoff_t absent_slot t cur k st)
    as [[slot_id | e] st0] eqn:Ef; cbn in Hfst; subst st0.
  2:{ rewrite (bind_Fault _ _ _ _ _ Ef) in HInsert. discriminate. }
  rewrite (bind_Ok _ _ _ _ _ Ef) in HInsert.
  rewrite (bind_Ok _ _ _ _ _ HGet) in HInsert.
  assert (HIns' : IsInsertable PAGE_SIZE cur s st = (Ok false, st)).
  { unfold IsInsertable, sorted, bind, ret. rewrite Hcurpg. cbn.
    rewrite Hfits. reflexivity. }
  rewrite (bind_Ok _ _ _ _ _ HIns') in HInsert. cbv iota in HInsert.
  (* the sibling is allocated *)
  set (new := fresh_pgid st) in *.
  pose proof (fresh_pgid_free st) as Hfree. fold new in Hfree.
  assert (Hne : new <> cur) by (intros E; rewrite E in Hfree; congruence).
  set (zero8 := repeat x00 (sizeof_pgid_t * 2)) in *.
  set (st1 := <[new := SortedPg (mkSortedPage [] zero8)]>
                (<[new := PlainPage (repeat x00 PAGE_SIZE)]> st)).
  assert (HAlloc : AllocLeafPage PAGE_SIZE t st = (Ok new, st1)).
  { unfold AllocLeafPage, AllocSortedPage, Allocate, Init, put_sorted, bind, ret.
    cbn. fold new. rewrite lookup_insert_eq. reflexivity. }
  rewrite (bind_Ok _ _ _ _ _ HAlloc) in HInsert. cbv zeta in HInsert.
  assert (Hcur1 : st1 !! cur = Some (SortedPg sp)).
  { subst st1. rewrite !lookup_insert_ne by exact Hne. exact Hcurpg. }
  assert (HGet1 : GetLeafPage t cur st1 = (Ok cur, st1)).
  { unfold GetLeafPage, GetSortedPage. rewrite Hcur1. reflexivity. }
  rewrite (bind_Ok _ _ _ _ _ HGet1) in HInsert.
  (* SetLeafPrev(cur_page, l_next_id) *)
  destruct (SetLeafPrev cur new st1) as [[[] | e] st2] eqn:EPrev.
  2:{ rewrite (bind_Fault _ _ _ _ _ EPrev) in HInsert. discriminate. }
  rewrite (bind_Ok _ _ _ _ _ EPrev) in HInsert.
  (* SetLeafNext(l_next, cur) *)
  destruct (SetLeafNext new cur st2) as [[[] | e] st3] eqn:ENext.
  2:{ rewrite (bind_Fault _ _ _ _ _ ENext) in HInsert. discriminate. }
  rewrite (bind_Ok _ _ _ _ _ ENext) in HInsert.
  (* what the two writes left in the special regions *)
  set (S1 := write_at (special sp) 0 (le_bytes sizeof_pgid_t new)).
  set (S2 := write_at zero8 sizeof_pgid_t (le_bytes sizeof_pgid_t cur)).
  assert (Hlen1 : (4 <= length (special sp))%nat
                  /\ st2 = <[cur := SortedPg (mkSortedPage (slots sp) S1)]> st1).
  { revert EPrev. unfold SetLeafPrev, WriteSpecial, sorted, put_sorted, bind,
      ret, throw.
    rewrite Hcur1. cbn -[Nat.leb write_at le_bytes].
    rewrite length_le_bytes.
    match goal with
    | |- context [if ?c then _ else _] => destruct c eqn:L
    end; cbn -[Nat.leb write_at le_bytes]; [| discriminate].
    rewrite Hcur1. cbn -[Nat.leb write_at le_bytes].
    intros [= <-]. apply Nat.leb_le in L. unfold sizeof_pgid_t in L.
    split; [lia | reflexivity]. }
  destruct Hlen1 as [Hlen1 Est2].
  assert (Hnew2 : st2 !! new = Some (SortedPg (mkSortedPage [] zero8))).
  { rewrite Est2. rewrite lookup_insert_ne by congruence.
    subst st1. apply lookup_insert_eq. }
  assert (Est3 : st3 = <[new := SortedPg (mkSortedPage [] S2)]> st2).
  { revert ENext. unfold SetLeafNext, WriteSpecial, sorted, put_sorted, bind,
      ret, throw.
    rewrite Hnew2. cbn -[Nat.leb write_at le_bytes].
    rewrite length_le_bytes.
    match goal with
    | |- context [if ?c then _ else _] => destruct c eqn:L
    end; cbn -[Nat.leb write_at le_bytes]; [| cbv in L; discriminate L].
    rewrite Hnew2. cbn -[Nat.leb write_at le_bytes].
    intros [= <-]. reflexivity. }
  assert (I1 : special_is cur S1 st3).
  { exists (slots sp). rewrite Est3, lookup_insert_ne by exact Hne.
    rewrite Est2. apply lookup_insert_eq. }
  assert (I2 : special_is new S2 st3).
  { exists []. rewrite Est3. apply lookup_insert_eq. }
  (* the rest of the branch keeps both special regions *)
  match type of HInsert with
  | ?tail st3 = _ =>
      assert (T1 : preserves (special_is cur S1) tail (fun _ => True));
      [| assert (T2 : preserves (special_is new S2) tail (fun _ => True)) ]
  end.
  { pres. }
  { pres. }
  apply T1 in I1 as [I1 _]. apply T2 in I2 as [I2 _].
  rewrite HInsert in I1, I2. cbn [snd] in I1, I2.
  destruct I1 as [sl1 E1]. destruct I2 as [sl2 E2].
  split.
  - unfold GetLeafNext, bind, ret.
    replace sizeof_pgid_t with (length (le_bytes sizeof_pgid_t cur)) at 2
      by apply length_le_bytes.
    rewrite (ReadSpecial_written st' new sl2 zero8 sizeof_pgid_t _)
      by (try exact E2; unfold zero8, sizeof_pgid_t; cbn; lia).
    cbn [fst]. f_equal. rewrite le_int_le_bytes. apply Z.mod_small. exact Hcur.
  - unfold GetLeafPrev, bind, ret.
    replace sizeof_pgid_t with (length (le_bytes sizeof_pgid_t new)) at 1
      by apply length_le_bytes.
    rewrite (ReadSpecial_written st' cur sl1 (special sp) 0 _)
      by (try exact E1; lia).
    cbn [fst]. f_equal. apply le_int_le_bytes.
Qed.

End RootLeafSplit.

(** ** [Insert] never reports a duplicate; the iterator *)

Lemma never_false_bind_val {A} (c : M A) (f : A -> M bool) (Q : A -> Prop) :
  (forall st a, fst (c st) = Ok a -> Q a) ->
  (forall a, Q a -> never_false (f a)) ->
  never_false (bind c f).
Proof.
  intros Hc Hf st. unfold bind. specialize (Hc st).
  destruct (c st) as [[a | e] st']; cbn in *; [| discriminate].
  apply Hf. apply Hc. reflexivity.
Qed.

Lemma GetSortedPage_val pg st a : fst (GetSortedPage pg st) = Ok a -> a = pg.
Proof.
  unfold GetSortedPage. destruct (st !! pg) as [[? | ?] |]; cbn; congruence.
Qed.

(** A slot that [IsInsertable] accepts does go in: [InsertBeforeSlot] on
    the same page then returns [true] or faults on the index. *)
Lemma insert_if_fits_never_false P t pg i s (g : M bool) :
  never_false g ->
  never_false
    (do ins <- IsInsertable P pg s;
     if ins then do l <- GetLeafPage t pg; InsertBeforeSlot P l i s else g).
Proof.
  intros Hg st.
  unfold bind, IsInsertable, GetLeafPage, GetSortedPage, InsertBeforeSlot,
    sorted, put_sorted, ret, throw, bind.
  destruct (st !! pg) as [[d | sp] |] eqn:E; cbn -[Nat.ltb]; try discriminate.
  destruct (fits P sp s) eqn:F; cbn -[Nat.ltb]; [| apply Hg].
  rewrite E. cbn -[Nat.ltb]. rewrite E. cbn -[Nat.ltb].
  destruct (length (slots sp) <? i)%nat; cbn; [discriminate |].
  rewrite F. cbn. rewrite E. cbn. discriminate.
Qed.

Lemma insert_if_fits_never_false' P pg i s (g : M bool) :
  never_false g ->
  never_false
    (do ins <- IsInsertable P pg s;
     if ins then InsertBeforeSlot P pg i s else g).
Proof.
  intros Hg st.
  unfold bind, IsInsertable, InsertBeforeSlot, sorted, put_sorted, ret, throw, bind.
  destruct (st !! pg) as [[d | sp] |] eqn:E; cbn -[Nat.ltb]; try discriminate.
  destruct (fits P sp s) eqn:F; cbn -[Nat.ltb]; [| apply Hg].
  rewrite E. cbn -[Nat.ltb].
  destruct (length (slots sp) <? i)%nat; cbn; [discriminate |].
  rewrite F. cbn. rewrite E. cbn. discriminate.
Qed.

Ltac nf :=
  repeat first
    [ progress cbv zeta
    | apply never_false_ret_true
    | apply never_false_bind; intros ?
    | match goal with
      | |- never_false (if ?b then _ else _) => destruct b
      | |- never_false (match ?x with _ => _ end) => destruct x
      | |- never_false (throw _) => intros ?; cbn; discriminate
      end ].

Lemma Insert_split_loop_never_false sz P addr par t k cur lev slot_next upper
  inn addr1 :
  never_false
    (Insert_split_loop sz P addr par t k cur lev slot_next upper inn addr1).
Proof.
  revert inn addr1.
  induction par as [| po par IH]; intros inn addr1; cbn [Insert_split_loop].
  - nf.
  - nf. apply IH.
Qed.

(** X4. [Insert] never returns [false], on a tree of any height: it has
    no way to report that the key is already there. *)
Theorem Insert_never_returns_false sz P addr absent_slot t k v :
  never_false (Insert sz P addr absent_slot t k v).
Proof.
  unfold Insert.
  apply never_false_bind; intros cur.
  apply never_false_bind; intros lvl. cbv zeta.
  apply never_false_bind; intros s.
  destruct (wrap8 (lvl - 1) =? 0).
  - apply never_false_bind; intros l.
    apply never_false_bind; intros slot_id.
    eapply never_false_bind_val with (Q := fun a => a = cur).
    { intros st a. apply GetSortedPage_val. }
    intros l' ->.
    apply insert_if_fits_never_false. nf.
  - apply never_false_bind; intros inn.
    apply never_false_bind; intros [[inn' level] par].
    apply never_false_bind; intros upper.
    apply never_false_bind; intros sl.
    apply never_false_bind; intros isl.
    apply never_false_bind; intros leaf.
    apply never_false_bind; intros slot_id. cbv zeta.
    apply insert_if_fits_never_false'.
    nf. apply Insert_split_loop_never_false.
Qed.

(** [Begin] never looks at the tree for the position it returns. *)
Lemma Begin_position ip isl t st it :
  fst (Begin ip isl t st) = Ok it -> page_id_ it = ip /\ slot_id_ it = isl.
Proof.
  unfold Begin, bind, Iter_ctor.
  destruct (Root t st) as [[r | e] st']; cbn; [| discriminate].
  intros [= <-]. split; reflexivity.
Qed.

Lemma read_only_GetLeafNext leaf : read_only (GetLeafNext leaf).
Proof. unfold GetLeafNext. ro. Qed.

(** X5. After [Next] an iterator that is not at the end is never at slot
    0: slot 0 of a leaf the scan moves to is skipped. *)
Theorem Next_never_at_slot_0 Compare it st it' :
  fst (Iter_Next Compare it st) = Ok it' ->
  page_id_ it' <> 0 -> slot_id_ it' <> 0%nat.
Proof.
  unfold Iter_Next, Open, bind, ret.
  destruct (GetLeafPage _ _ st) as [[leaf | e] st1]; cbn; [| discriminate].
  destruct (SlotNum leaf st1) as [[n | e] st2]; cbn; [| discriminate].
  destruct (n <=? slot_id_ it)%nat.
  - unfold bind.
    pose proof (read_only_GetLeafNext leaf st2) as Hro.
    destruct (GetLeafNext leaf st2) as [[nx | e] st3] eqn:E1; cbn in *;
      [| discriminate].
    subst st3. rewrite E1. cbn.
    destruct (nx =? 0) eqn:Z; cbn.
    + intros [= <-]. cbn. intros Hp. apply Z.eqb_eq in Z. contradiction.
    + intros [= <-]. cbn. lia.
  - intros [= <-]. cbn. lia.
Qed.

(** Within a leaf [Next] only adds one to the slot index: from the last
    slot it goes to the index that equals the slot count, neither to the
    next leaf nor to the end. *)
Lemma Next_within_leaf Compare it st n :
  fst (SlotNum (page_id_ it) st) = Ok n -> (slot_id_ it < n)%nat ->
  Iter_Next Compare it st
  = (Ok (mkIter (iter_meta_pgid_ it) (page_id_ it) (slot_id_ it + 1)), st).
Proof.
  intros Hn Hlt.
  unfold Iter_Next, Open, GetLeafPage, GetSortedPage, bind, ret.
  unfold SlotNum, sorted, bind, ret in *.
  destruct (st !! page_id_ it) as [[d | sp] |] eqn:E; cbn in *; try discriminate.
  rewrite E. cbn. injection Hn as <-.
  replace (length (slots sp) <=? slot_id_ it)%nat with false
    by (symmetry; apply Nat.leb_gt; lia).
  reflexivity.
Qed.


(** ** The leaf codec against the documented layout *)

(** X6. [LeafSlotParse] accepts exactly the slots of the documented
    layout, a [pgoff_t] holding the key length, then the key, then the
    value, and returns that key and that value. *)
Theorem LeafSlotParse_layout (sz : nat) (slot : bytes) (s : LeafSlot) :
  LeafSlotParse sz slot = Ok s <->
  exists hdr, length hdr = sz
              /\ le_int hdr = Z.of_nat (length (key s))
              /\ slot = hdr ++ key s ++ value s.
Proof.
  destruct s as [k v]. cbn [key value]. unfold LeafSlotParse, substr, substr_from.
  split.
  - destruct (sz <=? length slot)%nat eqn:L; [| discriminate].
    apply Nat.leb_le in L. cbn [obind].
    set (kl := Z.to_nat (le_int (firstn sz slot))).
    destruct (kl + sz <=? length slot)%nat eqn:L2; [| discriminate].
    apply Nat.leb_le in L2. cbn [obind]. intros [= <- <-].
    exists (firstn sz slot).
    assert (Hk : length (firstn kl (skipn sz slot)) = kl)
      by (rewrite length_firstn, length_skipn; lia).
    split; [rewrite length_firstn; lia |]. split.
    + rewrite Hk. subst kl. rewrite Z2Nat.id; [reflexivity |].
      apply le_int_range.
    + rewrite <- (firstn_skipn sz slot) at 1. f_equal.
      rewrite <- (firstn_skipn kl (skipn sz slot)) at 1. f_equal.
      rewrite skipn_skipn. reflexivity.
  - intros [hdr [Hlen [Hint ->]]].
    rewrite !length_app.
    replace (sz <=? length hdr + (length k + length v))%nat with true
      by (symmetry; apply Nat.leb_le; lia).
    rewrite firstn_app, <- Hlen, Nat.sub_diag, firstn_O, app_nil_r, firstn_all.
    rewrite Hint, Nat2Z.id. cbn [obind].
    replace (length k + length hdr <=? length hdr + (length k + length v))%nat
      with true by (symmetry; apply Nat.leb_le; lia).
    cbn [obind].
    rewrite skipn_app, Nat.sub_diag, skipn_all, app_nil_l, skipn_O.
    rewrite firstn_app, Nat.sub_diag, firstn_O, app_nil_r, firstn_all.
    rewrite skipn_app, skipn_all2 by lia. rewrite app_nil_l.
    replace (length k + length hdr - length hdr)%nat with (length k) by lia.
    rewrite skipn_app, Nat.sub_diag, skipn_all, app_nil_l, skipn_O.
    reflexivity.
Qed.

(** A key and a value of exactly 16 bytes, the size of a
    [std::string_view], survive the leaf codec. *)
Lemma leaf_codec_16 (sz : nat) (addr : memory) (k v : bytes) :
  (1 <= sz)%nat -> length k = 16%nat -> length v = 16%nat ->
  (let? s := leaf_slot_bytes sz addr (mkLeafSlot k v) in LeafSlotParse sz s)
  = Ok (mkLeafSlot k v).
Proof.
  intros Hsz Hk Hv.
  rewrite leaf_codec_general by lia.
  rewrite Hk, Hv. cbn [Nat.add Nat.sub]. unfold mem_read. cbn [seq map].
  rewrite app_nil_r.
  rewrite <- Hk at 1. rewrite firstn_all. rewrite <- Hv at 1. rewrite firstn_all.
  reflexivity.
Qed.

(** X7. With a key and a value of exactly 16 bytes each, the size of a
    [std::string_view], the leaf codec round-trips, whatever the scratch
    memory held and whatever the width of [pgoff_t]: [LeafSlotSerialize]
    returns, what it wrote has the size [LeafSlotSize] gives, and
    [LeafSlotParse] reads the key and the value back. *)
Theorem leaf_codec_round_trip_16 (sz : nat) (addr : memory) (k v : bytes) :
  (1 <= sz)%nat -> length k = 16%nat -> length v = 16%nat ->
  exists s,
    leaf_slot_bytes sz addr (mkLeafSlot k v) = Ok s
    /\ length s = LeafSlotSize sz (mkLeafSlot k v)
    /\ LeafSlotParse sz s = Ok (mkLeafSlot k v).
Proof.
  intros Hsz Hk Hv.
  pose proof (leaf_codec_16 sz addr k v Hsz Hk Hv) as Hrt.
  destruct (leaf_slot_bytes sz addr (mkLeafSlot k v)) as [s | e] eqn:Hs;
    cbn [obind] in Hrt; [| discriminate].
  exists s. split; [reflexivity |]. split; [| exact Hrt].
  revert Hs. unfold leaf_slot_bytes.
  destruct (LeafSlotSerialize sz addr (mkLeafSlot k v)); cbn [obind];
    [| discriminate].
  intros [= <-]. unfold mem_read. now rewrite length_map, length_seq.
Qed.

(** X8. What [InnerSlotSerialize] leaves for the caller, for every
    separator of at least 16 bytes: the child id in its four bytes, then
    the first 16 bytes of the separator, then whatever the scratch memory
    held.  A separator of exactly 16 bytes is stored as the layout says; a
    longer one is cut. *)
Theorem InnerSlotSerialize_layout (addr : memory) (child : pgid_t)
  (k : bytes) :
  (16 <= length k)%nat ->
  inner_slot_bytes addr (mkInnerSlot child k)
  = Ok (le_bytes 4 child ++ firstn 16 k
          ++ mem_read addr 20 (length k - 16)).
Proof.
  intros Hk.
  unfold inner_slot_bytes, InnerSlotSerialize, InnerSlotSize, memcpy,
    sizeof_string_view, sizeof_pgid_t.
  cbn [next strict_upper_bound].
  rewrite length_le_bytes, Nat.leb_refl. cbn [obind].
  replace (16 <=? length k)%nat with true by (symmetry; apply Nat.leb_le; lia).
  cbn [obind]. f_equal.
  rewrite (firstn_all2 (le_bytes 4 child)) by (rewrite length_le_bytes; lia).
  set (L := le_bytes 4 child). set (K := firstn 16 k).
  assert (HL : length L = 4%nat) by apply length_le_bytes.
  assert (HK : length K = 16%nat) by (subst K; rewrite length_firstn; lia).
  replace (4 + length k)%nat with (4 + (16 + (length k - 16)))%nat by lia.
  rewrite !mem_read_app. cbn [Nat.add].
  apply (f_equal2 (@app byte)); [| apply (f_equal2 (@app byte))].
  - rewrite mem_read_write_other by lia.
    transitivity (mem_read (mem_write addr 0 L) 0 (length L));
      [now rewrite HL | apply mem_read_write_same].
  - transitivity (mem_read (mem_write (mem_write addr 0 L) 4 K) 4 (length K));
      [now rewrite HK | apply mem_read_write_same].
  - rewrite !mem_read_write_other by lia. reflexivity.
Qed.

(** ** The fields of the meta page *)

Lemma length_write_at (d src : bytes) (off : nat) :
  (off + length src <= length d)%nat -> length (write_at d off src) = length d.
Proof.
  intros H. unfold write_at.
  rewrite !length_app, length_firstn, length_skipn. lia.
Qed.

Lemma read_write_at_same (d src : bytes) (off : nat) :
  (off + length src <= length d)%nat ->
  firstn (length src) (skipn off (write_at d off src)) = src.
Proof.
  intros H. unfold write_at.
  rewrite skipn_app, length_firstn.
  replace (Init.Nat.min off (length d)) with off by lia.
  rewrite Nat.sub_diag, skipn_all2 by (rewrite length_firstn; lia).
  rewrite app_nil_l, skipn_O.
  rewrite firstn_app, Nat.sub_diag, firstn_O, app_nil_r.
  apply firstn_all.
Qed.

Lemma firstn_write_at (d src : bytes) (off n : nat) :
  (n <= off)%nat -> (off <= length d)%nat ->
  firstn n (write_at d off src) = firstn n d.
Proof.
  intros Hn Hd. unfold write_at.
  rewrite firstn_app, length_firstn.
  replace (n - Init.Nat.min off (length d))%nat with 0%nat by lia.
  rewrite firstn_O, app_nil_r, firstn_firstn.
  f_equal. lia.
Qed.

Lemma read_write_at_other (d src : bytes) (off off' len : nat) :
  (off + length src <= length d)%nat ->
  (off' + len <= off)%nat \/ (off + length src <= off')%nat ->
  firstn len (skipn off' (write_at d off src)) = firstn len (skipn off' d).
Proof.
  intros Hd [H | H].
  - rewrite !firstn_skipn_comm. f_equal. apply firstn_write_at; lia.
  - f_equal. apply skipn_write_at; lia.
Qed.

(** What a write to the meta page leaves for a later read of a field. *)
Lemma meta_write_read (t : BPlusTree) (st st' : PageManager)
  (off : nat) (src : bytes) :
  (do p <- GetMetaPage t; Write p off src) st = (Ok tt, st') ->
  (do p <- GetMetaPage t; Read p off (length src)) st' = (Ok src, st')
  /\ forall off' len,
       (off' + len <= off)%nat \/ (off + length src <= off')%nat ->
       fst ((do p <- GetMetaPage t; Read p off' len) st')
       = fst ((do p <- GetMetaPage t; Read p off' len) st).
Proof.
  unfold GetMetaPage, GetPlainPage, Write, Read, plain_data, bind, ret, throw.
  destruct (st !! meta_pgid_ t) as [[d | sp] |] eqn:E;
    cbn -[Nat.leb firstn skipn]; try discriminate.
  rewrite E. cbn -[Nat.leb firstn skipn].
  destruct (off + length src <=? length d)%nat eqn:L;
    cbn -[Nat.leb firstn skipn]; [| discriminate].
  apply Nat.leb_le in L. intros [= <-].
  rewrite lookup_insert_eq. cbn -[Nat.leb firstn skipn].
  rewrite lookup_insert_eq. cbn -[Nat.leb firstn skipn].
  rewrite length_write_at by exact L.
  split.
  - replace (off + length src <=? length d)%nat with true
      by (symmetry; apply Nat.leb_le; exact L).
    cbn -[Nat.leb firstn skipn]. rewrite read_write_at_same by exact L.
    reflexivity.
  - intros off' len Hdis.
    destruct (off' + len <=? length d)%nat; cbn -[Nat.leb firstn skipn];
      [| reflexivity].
    rewrite read_write_at_other by assumption. reflexivity.
Qed.

Lemma meta_field_read (t : BPlusTree) (off len : nat) (s : PageManager) :
  fst ((do p <- GetMetaPage t; do d <- Read p off len; ret (le_int d)) s)
  = match fst ((do p <- GetMetaPage t; Read p off len) s) with
    | Ok d => Ok (le_int d)
    | Fault e => Fault e
    end.
Proof.
  unfold bind, ret.
  destruct (GetMetaPage t s) as [[p | e] s1]; [| reflexivity].
  cbn [fst]. destruct (Read p off len s1) as [[d | e] s2]; reflexivity.
Qed.

Ltac meta_field H :=
  unfold Root, LevelNum, meta_tuple_num, UpdateRoot, UpdateLevelNum,
    UpdateTupleNum in *;
  apply meta_write_read in H as [Hsame Hother];
  rewrite length_le_bytes in Hsame;
  rewrite !meta_field_read;
  repeat split;
  try (rewrite Hother by (rewrite length_le_bytes; unfold sizeof_pgid_t; lia);
       reflexivity);
  unfold sizeof_pgid_t in *; rewrite Hsame; cbn [fst];
  rewrite le_int_le_bytes; reflexivity.

Lemma UpdateRoot_read (t : BPlusTree) (st st' : PageManager) (r : pgid_t) :
  UpdateRoot t r st = (Ok tt, st') ->
  fst (Root t st') = Ok (wrap32 r)
  /\ fst (LevelNum t st') = fst (LevelNum t st)
  /\ fst (meta_tuple_num t st') = fst (meta_tuple_num t st).
Proof. intros H. meta_field H. Qed.

Lemma UpdateLevelNum_read (t : BPlusTree) (st st' : PageManager) (l : Z) :
  UpdateLevelNum t l st = (Ok tt, st') ->
  fst (LevelNum t st') = Ok (wrap8 l)
  /\ fst (Root t st') = fst (Root t st)
  /\ fst (meta_tuple_num t st') = fst (meta_tuple_num t st).
Proof. intros H. meta_field H. Qed.

Lemma UpdateTupleNum_read (t : BPlusTree) (st st' : PageManager) (n : Z) :
  UpdateTupleNum t n st = (Ok tt, st') ->
  fst (meta_tuple_num t st') = Ok (wrap64 n)
  /\ fst (LevelNum t st') = fst (LevelNum t st)
  /\ fst (Root t st') = fst (Root t st).
Proof. intros H. meta_field H. Qed.

(** X9. The three fields of the meta page do not overlap: a successful
    write of the root id, of the level count or of the tuple counter is
    what the matching reader returns afterwards (cut to the width of the
    field), and the other two fields read as before. *)
Theorem meta_fields_do_not_overlap (t : BPlusTree) (st st' : PageManager) :
  (forall r, UpdateRoot t r st = (Ok tt, st') ->
     fst (Root t st') = Ok (wrap32 r)
     /\ fst (LevelNum t st') = fst (LevelNum t st)
     /\ fst (meta_tuple_num t st') = fst (meta_tuple_num t st))
  /\ (forall l, UpdateLevelNum t l st = (Ok tt, st') ->
     fst (LevelNum t st') = Ok (wrap8 l)
     /\ fst (Root t st') = fst (Root t st)
     /\ fst (meta_tuple_num t st') = fst (meta_tuple_num t st))
  /\ (forall n, UpdateTupleNum t n st = (Ok tt, st') ->
     fst (meta_tuple_num t st') = Ok (wrap64 n)
     /\ fst (LevelNum t st') = fst (LevelNum t st)
     /\ fst (Root t st') = fst (Root t st)).
Proof.
  split; [| split].
  - intros r. apply UpdateRoot_read.
  - intros l. apply UpdateLevelNum_read.
  - intros n. apply UpdateTupleNum_read.
Qed.

(** ** The queries never write *)

Lemma read_only_Find cmp pg k : read_only (Find cmp pg k).
Proof. unfold Find. ro. Qed.
Lemma read_only_IsInsertable P pg s : read_only (IsInsertable P pg s).
Proof. unfold IsInsertable. ro. Qed.
Lemma read_only_IsEmpty_page pg : read_only (IsEmpty_page pg).
Proof. unfold IsEmpty_page. ro. Qed.
Lemma read_only_GetLeafPrev leaf : read_only (GetLeafPrev leaf).
Proof. unfold GetLeafPrev. ro. Qed.
Lemma read_only_pop {A} (l : list A) : read_only (pop l).
Proof. unfold pop. ro. Qed.
Lemma read_only_Open C id : read_only (Open C id).
Proof. unfold Open. ro. Qed.
#[export] Hint Resolve read_only_Find read_only_IsInsertable
  read_only_IsEmpty_page read_only_GetLeafPrev read_only_GetLeafNext
  read_only_pop read_only_Open : ro.

Lemma read_only_find_slot_id sz absent t leaf k :
  read_only (find_slot_id sz absent t leaf k).
Proof. unfold find_slot_id. ro. Qed.

Lemma read_only_descend_par rounds t inn k level par :
  read_only (descend_par rounds t inn k level par).
Proof.
  revert inn level par.
  induction rounds; intros inn level par; cbn [descend_par]; ro.
Qed.

Lemma read_only_LeafSmallestKey sz leaf : read_only (LeafSmallestKey sz leaf).
Proof. unfold LeafSmallestKey. ro. Qed.
Lemma read_only_LeafLargestKey sz leaf : read_only (LeafLargestKey sz leaf).
Proof. unfold LeafLargestKey. ro. Qed.
Lemma read_only_InnerFirstPage inner : read_only (InnerFirstPage inner).
Proof. unfold InnerFirstPage. ro. Qed.
Lemma read_only_InnerLastPage inner : read_only (InnerLastPage inner).
Proof. unfold InnerLastPage. ro. Qed.
#[export] Hint Resolve read_only_find_slot_id read_only_descend_par
  read_only_LeafSmallestKey read_only_LeafLargestKey read_only_InnerFirstPage
  read_only_InnerLastPage : ro.

Lemma read_only_SmallestLeaf_loop rounds t cur :
  read_only (SmallestLeaf_loop rounds t cur).
Proof. revert cur. induction rounds; intros cur; cbn [SmallestLeaf_loop]; ro. Qed.
Lemma read_only_LargestLeaf_loop rounds t cur :
  read_only (LargestLeaf_loop rounds t cur).
Proof. revert cur. induction rounds; intros cur; cbn [LargestLeaf_loop]; ro. Qed.
Lemma read_only_InnerLargestKey_loop level t cur :
  read_only (InnerLargestKey_loop level t cur).
Proof.
  revert cur. induction level; intros cur; cbn [InnerLargestKey_loop]; ro.
Qed.
#[export] Hint Resolve read_only_SmallestLeaf_loop read_only_LargestLeaf_loop
  read_only_InnerLargestKey_loop : ro.

Lemma read_only_SmallestLeaf t inner level :
  read_only (SmallestLeaf t inner level).
Proof. unfold SmallestLeaf. ro. Qed.
Lemma read_only_LargestLeaf t inner level :
  read_only (LargestLeaf t inner level).
Proof. unfold LargestLeaf. ro. Qed.
#[export] Hint Resolve read_only_SmallestLeaf read_only_LargestLeaf : ro.

Lemma read_only_InnerSmallestKey sz t inner level :
  read_only (InnerSmallestKey sz t inner level).
Proof. unfold InnerSmallestKey. ro. Qed.
Lemma read_only_InnerLargestKey sz t inner level :
  read_only (InnerLargestKey sz t inner level).
Proof. unfold InnerLargestKey. ro. Qed.

Lemma read_only_Begin ip isl t : read_only (Begin ip isl t).
Proof. unfold Begin. ro. Qed.
Lemma read_only_Iter_Cur sz C it : read_only (Iter_Cur sz C it).
Proof. unfold Iter_Cur. ro. Qed.
Lemma read_only_Iter_Next C it : read_only (Iter_Next C it).
Proof. unfold Iter_Next. ro. Qed.
#[export] Hint Resolve read_only_InnerSmallestKey read_only_InnerLargestKey
  read_only_Begin read_only_Iter_Cur read_only_Iter_Next : ro.

Lemma read_only_TupleNum_loop C fuel beg s1 p1 s2 p2 sum :
  read_only (TupleNum_loop C fuel beg s1 p1 s2 p2 sum).
Proof.
  revert beg s1 p1 s2 p2 sum.
  induction fuel; intros; cbn [TupleNum_loop]; ro.
Qed.
#[export] Hint Resolve read_only_TupleNum_loop : ro.

Lemma read_only_TupleNum C ip isl fuel t : read_only (TupleNum C ip isl fuel t).
Proof. unfold TupleNum. ro. Qed.
#[export] Hint Resolve read_only_TupleNum : ro.

Lemma read_only_IsEmpty C ip isl fuel t : read_only (IsEmpty C ip isl fuel t).
Proof. unfold IsEmpty. ro. Qed.
#[export] Hint Resolve read_only_IsEmpty : ro.

Lemma read_only_MaxKey sz C ip isl fuel t :
  read_only (MaxKey sz C ip isl fuel t).
Proof. unfold MaxKey. ro. Qed.

#[export] Hint Resolve read_only_MaxKey Get_read_only : ro.

(** X10. The queries change no page, whether they return or throw:
    [Get], [MaxKey], [TupleNum] and [IsEmpty] leave the page manager as
    they found it. *)
Theorem queries_change_no_page sz C ip isl fuel (t : BPlusTree) (k : bytes)
  (st : PageManager) :
  snd (Get sz t k st) = st
  /\ snd (MaxKey sz C ip isl fuel t st) = st
  /\ snd (TupleNum C ip isl fuel t st) = st
  /\ snd (IsEmpty C ip isl fuel t st) = st.
Proof.
  split; [apply Get_read_only |].
  split; [apply read_only_MaxKey |].
  split; [apply read_only_TupleNum | apply read_only_IsEmpty].
Qed.

(** X11. The iterator changes no page: [Begin], [Cur] and [Next] leave
    the page manager as they found it, whether they return or throw. *)
Theorem iterator_changes_no_page sz C ip isl (t : BPlusTree) (it : Iter)
  (st : PageManager) :
  snd (Begin ip isl t st) = st
  /\ snd (Iter_Cur sz C it st) = st
  /\ snd (Iter_Next C it st) = st.
Proof.
  split; [apply read_only_Begin |].
  split; [apply read_only_Iter_Cur | apply read_only_Iter_Next].
Qed.

(** ** Trees of one level *)

(** Every id from [fresh_pgid] on is free. *)
Lemma lookup_above_fresh (st : PageManager) (k : pgid_t) :
  fresh_pgid st <= k -> st !! k = None.
Proof.
  unfold fresh_pgid. intros Hk.
  assert (H : forall j, is_Some (st !! j) ->
            j <= map_fold (fun k _ acc => Z.max k acc) 0 st).
  { apply (map_fold_weak_ind
             (fun r (mm : gmap Z Page) => forall j, is_Some (mm !! j) -> j <= r)).
    - intros j [x Hx]. rewrite lookup_empty in Hx. discriminate.
    - intros i x mm r Hi IH j [y Hy].
      destruct (decide (i = j)) as [-> | Hne].
      + lia.
      + rewrite lookup_insert_ne in Hy by exact Hne.
        specialize (IH j (ex_intro _ y Hy)). lia. }
  apply eq_None_not_Some. intros Hs. specialize (H _ Hs). lia.
Qed.

Lemma fresh_pgid_pos (st : PageManager) : 1 <= fresh_pgid st.
Proof.
  unfold fresh_pgid.
  assert (H : 0 <= map_fold (fun k (_ : Page) acc => Z.max k acc) 0 st).
  { apply (map_fold_weak_ind (fun r (_ : gmap Z Page) => 0 <= r)).
    - lia.
    - intros. lia. }
  lia.
Qed.

(** Ids are handed out in sequence. *)
Lemma fresh_pgid_insert (st : PageManager) (x : Page) :
  fresh_pgid (<[fresh_pgid st := x]> st) = fresh_pgid st + 1.
Proof.
  unfold fresh_pgid at 1.
  rewrite map_fold_insert_L.
  - fold (fresh_pgid st). pose proof (fresh_pgid_pos st). unfold fresh_pgid in *.
    lia.
  - intros. lia.
  - apply lookup_above_fresh. lia.
Qed.

Lemma sorted_run (st : PageManager) (pg : pgid_t) (sp : SortedPage) :
  st !! pg = Some (SortedPg sp) -> sorted pg st = (Ok sp, st).
Proof. intros H. unfold sorted. rewrite H. reflexivity. Qed.

Lemma GetSortedPage_run (st : PageManager) (pg : pgid_t) (sp : SortedPage) :
  st !! pg = Some (SortedPg sp) -> GetSortedPage pg st = (Ok pg, st).
Proof. intros H. unfold GetSortedPage. rewrite H. reflexivity. Qed.

Lemma put_sorted_run (st : PageManager) (pg : pgid_t) (x : Page)
  (sp : SortedPage) :
  st !! pg = Some x -> put_sorted pg sp st = (Ok tt, <[pg := SortedPg sp]> st).
Proof. intros H. unfold put_sorted. rewrite H. reflexivity. Qed.

Lemma FindSlot_run (st : PageManager) cmp (pg : pgid_t) (k : bytes)
  (sp : SortedPage) :
  st !! pg = Some (SortedPg sp) ->
  FindSlot cmp pg k st
  = (match find cmp k (slots sp) with
     | Ok (Some i) => Ok (nth_error (slots sp) i)
     | Ok None => Ok None
     | Fault e => Fault e
     end, st).
Proof.
  intros H. unfold FindSlot, bind, lift, ret.
  rewrite (sorted_run _ _ _ H).
  destruct (find cmp k (slots sp)) as [[i |] | e]; reflexivity.
Qed.

Lemma Find_run (st : PageManager) cmp (pg : pgid_t) (k : bytes)
  (sp : SortedPage) :
  st !! pg = Some (SortedPg sp) ->
  Find cmp pg k st = (find cmp k (slots sp), st).
Proof.
  intros H. unfold Find, bind, lift. rewrite (sorted_run _ _ _ H). reflexivity.
Qed.

Lemma SlotNum_run (st : PageManager) (pg : pgid_t) (sp : SortedPage) :
  st !! pg = Some (SortedPg sp) -> SlotNum pg st = (Ok (length (slots sp)), st).
Proof.
  intros H. unfold SlotNum, bind, ret. rewrite (sorted_run _ _ _ H). reflexivity.
Qed.

(** An equal key, when [find] reports one, is where it says. *)
Lemma find_Some cmp (k : bytes) (ss : list bytes) (i : nat) :
  find cmp k ss = Ok (Some i) ->
  exists sl, nth_error ss i = Some sl /\ cmp sl k = Ok Eq.
Proof.
  unfold find.
  destruct (lower_bound cmp k ss 0) as [j | e]; cbn [obind]; [| discriminate].
  destruct (nth_error ss j) as [sl |] eqn:E; [| discriminate].
  destruct (cmp sl k) as [[| |] | e] eqn:C; cbn [obind]; try discriminate.
  intros [= <-]. exists sl. split; assumption.
Qed.

(** The meta page behind a readable level count. *)
Lemma LevelNum_meta (t : BPlusTree) (st : PageManager) (lvl : Z) :
  fst (LevelNum t st) = Ok lvl ->
  exists d, st !! meta_pgid_ t = Some (PlainPage d).
Proof.
  unfold LevelNum, GetMetaPage, GetPlainPage, bind.
  destruct (st !! meta_pgid_ t) as [[d | sp] |]; cbn; try discriminate.
  eauto.
Qed.

Ltac run_ro H Hro :=
  rewrite (bind_Ok _ _ _ _ _ (read_only_run _ _ _ Hro H)).

(** On a tree of one level every operation goes straight to the root. *)
Lemma Get_one_level sz (t : BPlusTree) (k : bytes) (st : PageManager)
  (r : pgid_t) (sp : SortedPage) :
  fst (LevelNum t st) = Ok 1 -> fst (Root t st) = Ok r ->
  st !! r = Some (SortedPg sp) ->
  Get sz t k st = leaf_value sz t r k st.
Proof.
  intros HL HR Hr. unfold Get.
  run_ro HR (read_only_Root t). run_ro HL (read_only_LevelNum t).
  cbv zeta. change (wrap8 (1 - 1) =? 0) with true. cbv iota.
  unfold GetLeafPage. rewrite (bind_Ok _ _ _ _ _ (GetSortedPage_run _ _ _ Hr)).
  reflexivity.
Qed.

Lemma leaf_value_run sz (t : BPlusTree) (k : bytes) (st : PageManager)
  (r : pgid_t) (sp : SortedPage) :
  st !! r = Some (SortedPg sp) ->
  leaf_value sz t r k st
  = (match find (leaf_cmp sz t) k (slots sp) with
     | Ok (Some i) =>
         match nth_error (slots sp) i with
         | Some sl => let? s := LeafSlotParse sz sl in Ok (Some (value s))
         | None => Ok None
         end
     | Ok None => Ok None
     | Fault e => Fault e
     end, st).
Proof.
  intros Hr. unfold leaf_value, bind.
  rewrite (FindSlot_run _ _ _ _ _ Hr).
  destruct (find (leaf_cmp sz t) k (slots sp)) as [[i |] | e] eqn:F;
    try reflexivity.
  destruct (nth_error (slots sp) i) as [sl |] eqn:N; [| reflexivity].
  cbv beta iota. rewrite (FindSlot_run _ _ _ _ _ Hr), F, N.
  unfold lift, ret.
  destruct (LeafSlotParse sz sl) as [s | e]; reflexivity.
Qed.

Lemma Write_run (st : PageManager) (pg : pgid_t) (d src : bytes) (off : nat) :
  st !! pg = Some (PlainPage d) -> (off + length src <= length d)%nat ->
  Write pg off src st = (Ok tt, <[pg := PlainPage (write_at d off src)]> st).
Proof.
  intros H L. unfold Write, plain_data, bind. rewrite H.
  replace (off + length src <=? length d)%nat with true
    by (symmetry; apply Nat.leb_le; exact L).
  reflexivity.
Qed.

Lemma meta_Write_run (t : BPlusTree) (st : PageManager) (d src : bytes)
  (off : nat) :
  st !! meta_pgid_ t = Some (PlainPage d) ->
  (off + length src <= length d)%nat ->
  (do p <- GetMetaPage t; Write p off src) st
  = (Ok tt, <[meta_pgid_ t := PlainPage (write_at d off src)]> st).
Proof.
  intros H L. unfold GetMetaPage, GetPlainPage, bind. rewrite H.
  apply Write_run; assumption.
Qed.

Lemma AllocLeafPage_run (P : nat) (t : BPlusTree) (st : PageManager) :
  AllocLeafPage P t st
  = (Ok (fresh_pgid st),
     <[fresh_pgid st :=
         SortedPg (mkSortedPage [] (repeat x00 (sizeof_pgid_t * 2)))]> st).
Proof.
  unfold AllocLeafPage, AllocSortedPage, Allocate, Init, put_sorted, bind, ret.
  rewrite lookup_insert_eq, insert_insert_eq. reflexivity.
Qed.

(** [Create] in full: the meta page is the first free id, the root leaf
    the next, and nothing else is touched. *)
Lemma Create_run (P : nat) (C : bytes -> bytes -> comparison)
  (st : PageManager) :
  (16 <= P)%nat ->
  let m := fresh_pgid st in
  let r := fresh_pgid st + 1 in
  exists d,
    Create P C st
    = (Ok (mkBPlusTree m C),
       <[m := PlainPage d]>
         (<[r := SortedPg (mkSortedPage [] (repeat x00 (sizeof_pgid_t * 2)))]> st))
    /\ (16 <= length d)%nat
    /\ firstn 1 d = le_bytes 1 1
    /\ firstn 4 (skipn 4 d) = le_bytes 4 r
    /\ firstn 8 (skipn 8 d) = le_bytes 8 0.
Proof.
  intros HP m r.
  assert (Hr : fresh_pgid (<[m := PlainPage (repeat x00 P)]> st) = r)
    by apply fresh_pgid_insert.
  assert (Hne : r <> m) by (subst r m; lia).
  set (d1 := write_at (repeat x00 P) 4 (le_bytes sizeof_pgid_t r)).
  set (d2 := write_at d1 0 (le_bytes 1 1)).
  set (d3 := write_at d2 8 (le_bytes 8 0)).
  assert (L0 : length (repeat x00 P) = P) by apply repeat_length.
  assert (L1 : length d1 = P)
    by (subst d1; rewrite length_write_at; rewrite ?length_le_bytes;
        unfold sizeof_pgid_t; lia).
  assert (L2 : length d2 = P)
    by (subst d2; rewrite length_write_at; rewrite ?length_le_bytes; lia).
  assert (L3 : length d3 = P)
    by (subst d3; rewrite length_write_at; rewrite ?length_le_bytes; lia).
  exists d3. split; [| split; [lia | split; [| split]]].
  - unfold Create.
    rewrite (bind_Ok (Allocate P) _ st m _ eq_refl). cbv zeta.
    rewrite (bind_Ok _ _ _ _ _ (AllocLeafPage_run P _ _)). fold m. rewrite Hr.
    set (E := SortedPg (mkSortedPage [] (repeat x00 (sizeof_pgid_t * 2)))).
    set (t := mkBPlusTree m C).
    unfold UpdateRoot, UpdateLevelNum, UpdateTupleNum.
    change m with (meta_pgid_ t) at 1 2.
    erewrite (bind_Ok _ _ _ _ _ (meta_Write_run t _ (repeat x00 P) _ 4 _ _)).
    fold d1.
    erewrite (bind_Ok _ _ _ _ _ (meta_Write_run t _ d1 _ 0 _ _)).
    fold d2.
    erewrite (bind_Ok _ _ _ _ _ (meta_Write_run t _ d2 _ 8 _ _)).
    fold d3. unfold ret. f_equal. cbn [meta_pgid_ t].
    rewrite !insert_insert_eq.
    rewrite (insert_insert_ne _ m r) by congruence.
    rewrite !insert_insert_eq.
    apply insert_insert_ne. congruence.
  - subst d3 d2.
    rewrite firstn_write_at by (rewrite ?length_write_at; rewrite ?length_le_bytes; lia).
    change 1%nat with (length (le_bytes 1 1)) at 1.
    rewrite <- (skipn_O (write_at d1 0 _)).
    apply read_write_at_same. rewrite length_le_bytes. lia.
  - subst d3 d2.
    rewrite read_write_at_other
      by (rewrite ?length_write_at; rewrite ?length_le_bytes; lia).
    rewrite read_write_at_other
      by (rewrite ?length_write_at; rewrite ?length_le_bytes; lia).
    subst d1. change 4%nat with (length (le_bytes sizeof_pgid_t r)) at 1.
    apply read_write_at_same. rewrite length_le_bytes, L0.
    unfold sizeof_pgid_t. lia.
  - subst d3. change 8%nat with (length (le_bytes 8 0)) at 1.
    apply read_write_at_same. rewrite length_le_bytes. lia.
  Unshelve.
  all: cbn [meta_pgid_ t]; rewrite ?length_le_bytes;
    rewrite ?lookup_insert_eq; rewrite ?lookup_insert_ne by congruence;
    rewrite ?lookup_insert_eq; try reflexivity; unfold sizeof_pgid_t; try lia.
Qed.

Lemma plain_Read_run (t : BPlusTree) (st : PageManager) (d : bytes)
  (off len : nat) :
  st !! meta_pgid_ t = Some (PlainPage d) -> (off + len <= length d)%nat ->
  (do p <- GetMetaPage t; do x <- Read p off len; ret (le_int x)) st
  = (Ok (le_int (firstn len (skipn off d))), st).
Proof.
  intros H L. unfold GetMetaPage, GetPlainPage, Read, plain_data, bind, ret.
  rewrite H. cbn -[Nat.leb firstn skipn]. rewrite H.
  cbn -[Nat.leb firstn skipn].
  replace (off + len <=? length d)%nat with true
    by (symmetry; apply Nat.leb_le; exact L).
  reflexivity.
Qed.

(** The tree [Create] leaves behind, read through the accessors. *)
Lemma created_fields (t : BPlusTree) (st : PageManager) (d : bytes)
  (r : pgid_t) :
  st !! meta_pgid_ t = Some (PlainPage d) ->
  (16 <= length d)%nat ->
  firstn 1 d = le_bytes 1 1 ->
  firstn 4 (skipn 4 d) = le_bytes 4 r ->
  firstn 8 (skipn 8 d) = le_bytes 8 0 ->
  LevelNum t st = (Ok 1, st)
  /\ Root t st = (Ok (wrap32 r), st)
  /\ meta_tuple_num t st = (Ok 0, st).
Proof.
  intros Hm L H1 H4 H8.
  unfold LevelNum, Root, meta_tuple_num, sizeof_pgid_t.
  rewrite !(plain_Read_run t st d) by (try exact Hm; lia).
  rewrite skipn_O, H1, H4, H8. rewrite !le_int_le_bytes.
  repeat split.
Qed.


(** X13. A tree fresh from [Create] holds no key: [Get] returns nothing,
    whatever the key and whatever else the page manager holds. *)
Theorem Get_on_a_created_tree (sz P : nat) (C : bytes -> bytes -> comparison)
  (st : PageManager) (k : bytes) :
  (16 <= P)%nat -> fresh_pgid st + 1 < 2 ^ 32 ->
  fst ((do t <- Create P C; Get sz t k) st) = Ok None.
Proof.
  intros HP Hsmall.
  destruct (Create_run P C st HP) as [d [HC [L [H1 [H4 H8]]]]].
  pose proof (fresh_pgid_pos st) as Hpos.
  set (m := fresh_pgid st) in *. set (r := m + 1) in *.
  rewrite (bind_Ok _ _ _ _ _ HC).
  match goal with
  | |- context [Get _ ?t _ ?s] =>
      destruct (created_fields t s d r) as [E1 [E2 E3]];
        try assumption; [apply lookup_insert_eq |];
        assert (Hr : s !! r = Some (SortedPg (mkSortedPage []
                                     (repeat x00 (sizeof_pgid_t * 2)))))
          by (rewrite lookup_insert_ne by (subst r; lia);
              apply lookup_insert_eq)
  end.
  unfold wrap32 in E2. rewrite Z.mod_small in E2 by lia.
  erewrite Get_one_level; [| rewrite E1; reflexivity | rewrite E2; reflexivity
                           | exact Hr].
  rewrite (leaf_value_run _ _ _ _ _ _ Hr). reflexivity.
Qed.

(** [Destroy] on a tree of one level: the root and the meta page go. *)
Lemma Destroy_one_level_run (fuel : nat) (t : BPlusTree) (st : PageManager)
  (r : pgid_t) (sp : SortedPage) :
  fst (LevelNum t st) = Ok 1 -> fst (Root t st) = Ok r ->
  st !! r = Some (SortedPg sp) ->
  Destroy fuel t st = (Ok tt, delete (meta_pgid_ t) (delete r st)).
Proof.
  intros HL HR Hr.
  destruct (LevelNum_meta _ _ _ HL) as [d Hm].
  assert (Hne : r <> meta_pgid_ t) by (intros E; rewrite E in Hr; congruence).
  unfold Destroy.
  run_ro HR (read_only_Root t). cbv zeta. run_ro HL (read_only_LevelNum t).
  change (wrap8 (1 - 1) =? 0) with true. cbv iota.
  unfold GetLeafPage. rewrite (bind_Ok _ _ _ _ _ (GetSortedPage_run _ _ _ Hr)).
  unfold FreePage, Free, GetMetaPage, GetPlainPage, bind.
  rewrite Hr. rewrite lookup_delete_ne by exact Hne. rewrite Hm.
  rewrite lookup_delete_ne by exact Hne. rewrite Hm. reflexivity.
Qed.

(** X14. On a tree of one level [Destroy] frees the root leaf and the
    meta page and nothing else: both ids are free afterwards, and every
    other page is as it was. *)
Theorem Destroy_one_level (fuel : nat) (t : BPlusTree) (st : PageManager)
  (r : pgid_t) (sp : SortedPage) :
  fst (LevelNum t st) = Ok 1 -> fst (Root t st) = Ok r ->
  st !! r = Some (SortedPg sp) ->
  exists st',
    Destroy fuel t st = (Ok tt, st')
    /\ st' !! r = None /\ st' !! meta_pgid_ t = None
    /\ forall id, id <> r -> id <> meta_pgid_ t -> st' !! id = st !! id.
Proof.
  intros HL HR Hr. eexists.
  split; [apply (Destroy_one_level_run fuel t st r sp HL HR Hr) |].
  split; [| split].
  - destruct (decide (r = meta_pgid_ t)) as [-> | Hne].
    + apply lookup_delete_eq.
    + rewrite lookup_delete_ne by congruence. apply lookup_delete_eq.
  - apply lookup_delete_eq.
  - intros id H1 H2. rewrite !lookup_delete_ne by congruence. reflexivity.
Qed.

(** X15. Destroying a tree fresh from [Create] gives back the page
    manager as it was before [Create]: no page is leaked and no other page
    is touched. *)
Theorem Create_then_Destroy (fuel P : nat) (C : bytes -> bytes -> comparison)
  (st : PageManager) :
  (16 <= P)%nat -> fresh_pgid st + 1 < 2 ^ 32 ->
  (do t <- Create P C; Destroy fuel t) st = (Ok tt, st).
Proof.
  intros HP Hsmall.
  destruct (Create_run P C st HP) as [d [HC [L [H1 [H4 H8]]]]].
  pose proof (fresh_pgid_pos st) as Hpos.
  set (m := fresh_pgid st) in *. set (r := m + 1) in *.
  assert (Hm : st !! (m : Z) = None) by (apply lookup_above_fresh; subst m; lia).
  assert (Hr0 : st !! r = None) by (apply lookup_above_fresh; subst r m; lia).
  rewrite (bind_Ok _ _ _ _ _ HC).
  match goal with
  | |- context [Destroy _ ?t ?s] =>
      destruct (created_fields t s d r) as [E1 [E2 E3]];
        try assumption; [apply lookup_insert_eq |];
        assert (Hr : s !! r = Some (SortedPg (mkSortedPage []
                                     (repeat x00 (sizeof_pgid_t * 2)))))
          by (rewrite lookup_insert_ne by (subst r; lia);
              apply lookup_insert_eq)
  end.
  unfold wrap32 in E2. rewrite Z.mod_small in E2 by lia.
  erewrite Destroy_one_level_run;
    [| rewrite E1; reflexivity | rewrite E2; reflexivity | exact Hr].
  f_equal. cbn [meta_pgid_].
  rewrite delete_insert_ne by (subst r; lia).
  rewrite (delete_insert_id st r) by exact Hr0.
  apply delete_insert_id. exact Hm.
Qed.

(** [Insert] on a tree of one level whose root leaf has room. *)
Lemma Insert_one_level_eq sz P addr absent (t : BPlusTree) (k v s : bytes)
  (st : PageManager) (r : pgid_t) (sp : SortedPage) :
  fst (LevelNum t st) = Ok 1 -> fst (Root t st) = Ok r ->
  st !! r = Some (SortedPg sp) ->
  leaf_slot_bytes sz addr (mkLeafSlot k v) = Ok s ->
  fits P sp s = true ->
  Insert sz P addr absent t k v st
  = match fst (find_slot_id sz absent t r k st) with
    | Ok i =>
        if (length (slots sp) <? i)%nat then (Fault BadRead, st)
        else (Ok true,
              <[r := SortedPg (mkSortedPage (insert_at i s (slots sp))
                                 (special sp))]> st)
    | Fault e => (Fault e, st)
    end.
Proof.
  intros HL HR Hr Hs Hfits. unfold Insert.
  run_ro HR (read_only_Root t). run_ro HL (read_only_LevelNum t).
  cbv zeta. rewrite Hs. rewrite (bind_Ok (lift (Ok s)) _ st s st eq_refl).
  change (wrap8 (1 - 1) =? 0) with true. cbv iota.
  assert (HG : GetLeafPage t r st = (Ok r, st))
    by (apply (GetSortedPage_run _ _ _ Hr)).
  rewrite (bind_Ok _ _ _ _ _ HG).
  assert (Hfind : read_only (find_slot_id sz absent t r k)).
  { unfold find_slot_id, Find. ro. }
  pose proof (Hfind st) as Hfst.
  destruct (find_slot_id sz absent t r k st) as [[i | e] st0] eqn:Ef;
    cbn in Hfst; subst st0; cbn [fst].
  2:{ rewrite (bind_Fault _ _ _ _ _ Ef). reflexivity. }
  rewrite (bind_Ok _ _ _ _ _ Ef). rewrite (bind_Ok _ _ _ _ _ HG).
  assert (HI : IsInsertable P r s st = (Ok true, st)).
  { unfold IsInsertable, bind, ret. rewrite (sorted_run _ _ _ Hr), Hfits.
    reflexivity. }
  rewrite (bind_Ok _ _ _ _ _ HI). cbv iota. rewrite (bind_Ok _ _ _ _ _ HG).
  unfold InsertBeforeSlot, bind. rewrite (sorted_run _ _ _ Hr).
  destruct (length (slots sp) <? i)%nat; [reflexivity |].
  rewrite Hfits. rewrite (put_sorted_run _ _ _ _ Hr). reflexivity.
Qed.

(** X16. On a tree of one level whose root leaf has room for the
    serialised slot, [Insert], if it returns, returns [true] and has put
    exactly that slot into the root leaf, at the index [Find] gave;
    every other page, the meta page among them, is as it was. *)
Theorem Insert_one_level sz P addr absent (t : BPlusTree) (k v s : bytes)
  (st st' : PageManager) (r : pgid_t) (sp : SortedPage) (b : bool) :
  fst (LevelNum t st) = Ok 1 -> fst (Root t st) = Ok r ->
  st !! r = Some (SortedPg sp) ->
  leaf_slot_bytes sz addr (mkLeafSlot k v) = Ok s ->
  fits P sp s = true ->
  Insert sz P addr absent t k v st = (Ok b, st') ->
  b = true
  /\ exists i,
       fst (find_slot_id sz absent t r k st) = Ok i
       /\ (i <= length (slots sp))%nat
       /\ st' = <[r := SortedPg (mkSortedPage (insert_at i s (slots sp))
                                   (special sp))]> st.
Proof.
  intros HL HR Hr Hs Hfits.
  rewrite (Insert_one_level_eq sz P addr absent t k v s st r sp HL HR Hr Hs
             Hfits).
  destruct (fst (find_slot_id sz absent t r k st)) as [i | e];
    [| discriminate].
  destruct (length (slots sp) <? i)%nat eqn:L; [discriminate |].
  apply Nat.ltb_ge in L. intros [= <- <-].
  split; [reflexivity |]. exists i. repeat split. exact L.
Qed.

(** [Delete] on a tree of one level. *)
Lemma Delete_one_level_eq sz C ip isl fuel (t : BPlusTree) (k : bytes)
  (st : PageManager) (r : pgid_t) (sp : SortedPage) :
  fst (LevelNum t st) = Ok 1 -> fst (Root t st) = Ok r ->
  st !! r = Some (SortedPg sp) ->
  Delete sz C ip isl fuel t k st
  = match find (leaf_cmp sz t) k (slots sp) with
    | Ok (Some i) =>
        (Ok true,
         <[r := SortedPg (mkSortedPage (delete_at i (slots sp))
                            (special sp))]> st)
    | Ok None => (Ok false, st)
    | Fault e => (Fault e, st)
    end.
Proof.
  intros HL HR Hr. unfold Delete.
  run_ro HR (read_only_Root t). run_ro HL (read_only_LevelNum t).
  cbv zeta. change (wrap8 (1 - 1) =? 0) with true. cbv iota.
  assert (HG : GetLeafPage t r st = (Ok r, st))
    by (apply (GetSortedPage_run _ _ _ Hr)).
  rewrite (bind_Ok _ _ _ _ _ HG).
  unfold bind at 1. rewrite (FindSlot_run _ _ _ _ _ Hr).
  destruct (find (leaf_cmp sz t) k (slots sp)) as [[i |] | e] eqn:F;
    try reflexivity.
  destruct (find_Some _ _ _ _ F) as [sl [Hsl _]]. rewrite Hsl.
  rewrite (bind_Ok _ _ _ _ _ HG).
  unfold DeleteSlotByKey, DeleteSlot, bind.
  rewrite (Find_run _ _ _ _ _ Hr), F. rewrite (sorted_run _ _ _ Hr).
  assert (Hi : (i <? length (slots sp))%nat = true).
  { apply Nat.ltb_lt. apply nth_error_Some. congruence. }
  rewrite Hi. rewrite (put_sorted_run _ _ _ _ Hr). reflexivity.
Qed.

(** X17. On a tree of one level a [Delete] that returns [true] has
    removed exactly one slot from the root leaf, a slot whose key the
    comparator finds equal to the key asked for; every other page is as it
    was. *)
Theorem Delete_one_level sz C ip isl fuel (t : BPlusTree) (k : bytes)
  (st st' : PageManager) (r : pgid_t) (sp : SortedPage) :
  fst (LevelNum t st) = Ok 1 -> fst (Root t st) = Ok r ->
  st !! r = Some (SortedPg sp) ->
  Delete sz C ip isl fuel t k st = (Ok true, st') ->
  exists i sl,
    nth_error (slots sp) i = Some sl
    /\ leaf_cmp sz t sl k = Ok Eq
    /\ st' = <[r := SortedPg (mkSortedPage (delete_at i (slots sp))
                                (special sp))]> st.
Proof.
  intros HL HR Hr.
  rewrite (Delete_one_level_eq sz C ip isl fuel t k st r sp HL HR Hr).
  destruct (find (leaf_cmp sz t) k (slots sp)) as [[i |] | e] eqn:F;
    try discriminate.
  intros [= <-]. destruct (find_Some _ _ _ _ F) as [sl [Hsl Hc]].
  exists i, sl. repeat split; assumption.
Qed.


(** ** [Get], [Delete] and [Take] look at the same leaf *)

(** Two computations that start alike and whose continuations agree on
    an outcome agree on it. *)
Lemma bind_agree {A X Y} (c : M A) (f : A -> M X) (g : A -> M Y)
  (P : outcome X -> Prop) (Q : outcome Y -> Prop) (st : PageManager) :
  (forall e, P (Fault e) <-> Q (Fault e)) ->
  (forall a s, P (fst (f a s)) <-> Q (fst (g a s))) ->
  P (fst (bind c f st)) <-> Q (fst (bind c g st)).
Proof.
  intros He Hfg. unfold bind.
  destruct (c st) as [[a | e] s]; cbn [fst]; [apply Hfg | apply He].
Qed.

(** The descent of [Delete] visits the pages the descent of [Get]
    visits; it only remembers them as well. *)
Lemma descend_ids_descend {X} rounds (t : BPlusTree) (inn : pgid_t)
  (k : bytes) (par : list pgid_t) (f : pgid_t -> M X) (st : PageManager) :
  bind (descend rounds t inn k) f st
  = bind (descend_ids rounds t inn k par) (fun p => f (fst p)) st.
Proof.
  revert inn par st.
  induction rounds as [| n IH]; intros inn par st; cbn [descend descend_ids].
  - reflexivity.
  - unfold bind at 1 3. unfold bind at 1 2.
    destruct (step_down t inn k st) as [[inn' | e] s]; [| reflexivity].
    apply (IH inn' (inn' :: par) s).
Qed.

(** [leaf_value] finds nothing exactly when [FindSlot] does. *)
Lemma leaf_value_None sz (t : BPlusTree) (leaf : pgid_t) (k : bytes)
  (st : PageManager) :
  fst (leaf_value sz t leaf k st) = Ok None
  <-> fst (FindSlot (leaf_cmp sz t) leaf k st) = Ok None.
Proof.
  unfold leaf_value. unfold bind at 1.
  pose proof (read_only_FindSlot (leaf_cmp sz t) leaf k st) as Hro.
  destruct (FindSlot (leaf_cmp sz t) leaf k st) as [[[sl |] | e] s] eqn:F;
    cbn [fst snd] in *; subst s.
  - unfold bind. rewrite F. unfold lift, ret.
    destruct (LeafSlotParse sz sl); cbn; split; discriminate.
  - reflexivity.
  - reflexivity.
Qed.

(** What [Delete] does with the leaf it picked returns [false] exactly
    when [FindSlot] finds nothing there. *)
Lemma found_or_false (c : M (option bytes)) (g : M bool) (st : PageManager) :
  never_false g ->
  fst ((do r <- c; match r with None => ret false | Some _ => g end) st)
    = Ok false
  <-> fst (c st) = Ok None.
Proof.
  intros Hg. unfold bind.
  destruct (c st) as [[[sl |] | e] s]; cbn [fst].
  - split; [intros H; destruct (Hg s H) | discriminate].
  - split; reflexivity.
  - split; discriminate.
Qed.

Lemma Delete_false_iff sz C ip isl fuel (t : BPlusTree) (k : bytes)
  (st : PageManager) :
  fst (Delete sz C ip isl fuel t k st) = Ok false
  <-> fst (Get sz t k st) = Ok None.
Proof.
  unfold Delete, Get.
  apply (bind_agree _ _ _ (fun o => o = Ok false) (fun o => o = Ok None));
    [split; discriminate |]; intros cur s1.
  apply (bind_agree _ _ _ (fun o => o = Ok false) (fun o => o = Ok None));
    [split; discriminate |]; intros lvl s2.
  cbv zeta. destruct (wrap8 (lvl - 1) =? 0).
  - apply (bind_agree _ _ _ (fun o => o = Ok false) (fun o => o = Ok None));
      [split; discriminate |]; intros l s3.
    rewrite leaf_value_None. apply found_or_false. nf.
  - apply (bind_agree _ _ _ (fun o => o = Ok false) (fun o => o = Ok None));
      [split; discriminate |]; intros inn s3.
    rewrite (descend_ids_descend _ _ _ _ []).
    apply (bind_agree _ _ _ (fun o => o = Ok false) (fun o => o = Ok None));
      [split; discriminate |]; intros [inn' par] s4. cbn [fst].
    apply (bind_agree _ _ _ (fun o => o = Ok false) (fun o => o = Ok None));
      [split; discriminate |]; intros leaf s5.
    rewrite leaf_value_None. apply found_or_false. nf.
Qed.

(** When [FindSlot] hands out a slot, the comparator has parsed it. *)
Lemma FindSlot_parsed sz (t : BPlusTree) (leaf : pgid_t) (k sl : bytes)
  (st : PageManager) :
  fst (FindSlot (leaf_cmp sz t) leaf k st) = Ok (Some sl) ->
  exists s, LeafSlotParse sz sl = Ok s.
Proof.
  unfold FindSlot, bind, sorted.
  destruct (st !! leaf) as [[d | sp] |]; cbn; try discriminate.
  unfold lift, ret.
  destruct (find (leaf_cmp sz t) k (slots sp)) as [[i |] | e] eqn:F; cbn;
    try discriminate.
  destruct (find_Some _ _ _ _ F) as [sl' [Hsl Hc]]. rewrite Hsl.
  intros [= <-]. unfold leaf_cmp, LeafSlotKeyCompare in Hc.
  destruct (LeafSlotParse sz sl') as [s | e]; [eauto | discriminate].
Qed.

Lemma leaf_value_Some sz (t : BPlusTree) (leaf : pgid_t) (k sl : bytes)
  (st : PageManager) :
  fst (FindSlot (leaf_cmp sz t) leaf k st) = Ok (Some sl) ->
  exists v, fst (leaf_value sz t leaf k st) = Ok (Some v).
Proof.
  intros HF. destruct (FindSlot_parsed _ _ _ _ _ _ HF) as [s Hs].
  unfold leaf_value. unfold bind at 1.
  pose proof (read_only_FindSlot (leaf_cmp sz t) leaf k st) as Hro.
  destruct (FindSlot (leaf_cmp sz t) leaf k st) as [[[sl' |] | e] s1] eqn:F;
    cbn [fst snd] in *; subst s1; try discriminate.
  injection HF as ->. unfold bind. rewrite F. unfold lift, ret. rewrite Hs.
  eauto.
Qed.

Lemma found_or_false_true (c : M (option bytes)) (g : M bool)
  (st : PageManager) :
  fst ((do r <- c; match r with None => ret false | Some _ => g end) st)
    = Ok true ->
  exists sl, fst (c st) = Ok (Some sl).
Proof.
  unfold bind.
  destruct (c st) as [[[sl |] | e] s]; cbn [fst]; try discriminate. eauto.
Qed.

Lemma bind_imp {A X Y} (c : M A) (f : A -> M X) (g : A -> M Y)
  (P : outcome X -> Prop) (Q : outcome Y -> Prop) (st : PageManager) :
  (forall e, P (Fault e) -> Q (Fault e)) ->
  (forall a s, P (fst (f a s)) -> Q (fst (g a s))) ->
  P (fst (bind c f st)) -> Q (fst (bind c g st)).
Proof.
  intros He Hfg. unfold bind.
  destruct (c st) as [[a | e] s]; cbn [fst]; [apply Hfg | apply He].
Qed.

Lemma Delete_true_Get sz C ip isl fuel (t : BPlusTree) (k : bytes)
  (st : PageManager) :
  fst (Delete sz C ip isl fuel t k st) = Ok true ->
  exists v, fst (Get sz t k st) = Ok (Some v).
Proof.
  unfold Delete, Get.
  apply (bind_imp _ _ _ (fun o => o = Ok true)
           (fun o => exists v, o = Ok (Some v)));
    [discriminate |]; intros cur s1.
  apply (bind_imp _ _ _ (fun o => o = Ok true)
           (fun o => exists v, o = Ok (Some v)));
    [discriminate |]; intros lvl s2.
  cbv zeta. destruct (wrap8 (lvl - 1) =? 0).
  - apply (bind_imp _ _ _ (fun o => o = Ok true)
             (fun o => exists v, o = Ok (Some v)));
      [discriminate |]; intros l s3.
    intros H. apply found_or_false_true in H as [sl H].
    apply (leaf_value_Some _ _ _ _ _ _ H).
  - apply (bind_imp _ _ _ (fun o => o = Ok true)
             (fun o => exists v, o = Ok (Some v)));
      [discriminate |]; intros inn s3.
    rewrite (descend_ids_descend _ _ _ _ []).
    apply (bind_imp _ _ _ (fun o => o = Ok true)
             (fun o => exists v, o = Ok (Some v)));
      [discriminate |]; intros [inn' par] s4. cbn [fst].
    apply (bind_imp _ _ _ (fun o => o = Ok true)
             (fun o => exists v, o = Ok (Some v)));
      [discriminate |]; intros leaf s5.
    intros H. apply found_or_false_true in H as [sl H].
    apply (leaf_value_Some _ _ _ _ _ _ H).
Qed.

(** X19. [Delete] and [Get] agree on whether the key is there: [Delete]
    returns [false] exactly when [Get] on the same pages returns nothing,
    and when [Delete] returns [true] then [Get] on the pages as they were
    returns a value.  This holds for trees of any height. *)
Theorem Delete_agrees_with_Get sz C ip isl fuel (t : BPlusTree) (k : bytes)
  (st : PageManager) :
  (fst (Delete sz C ip isl fuel t k st) = Ok false
   <-> fst (Get sz t k st) = Ok None)
  /\ (fst (Delete sz C ip isl fuel t k st) = Ok true ->
      exists v, fst (Get sz t k st) = Ok (Some v)).
Proof.
  split; [apply Delete_false_iff | apply Delete_true_Get].
Qed.

(** X20. [Take] is [Get] followed by [Delete] on the same pages: when it
    returns, its result is the result of [Get] and the pages are those
    [Delete] leaves; and when it returns nothing, no page has changed. *)
Theorem Take_is_Get_then_Delete sz C ip isl fuel (t : BPlusTree) (k : bytes)
  (st st' : PageManager) (v : option bytes) :
  Take sz C ip isl fuel t k st = (Ok v, st') ->
  fst (Get sz t k st) = Ok v
  /\ (exists b, Delete sz C ip isl fuel t k st = (Ok b, st'))
  /\ (v = None -> st' = st).
Proof.
  unfold Take. unfold bind at 1.
  pose proof (Get_read_only sz t k st) as Hro.
  pose proof (Delete_false_iff sz C ip isl fuel t k st) as Hiff.
  pose proof (Delete_false_changes_nothing sz C ip isl fuel t k st) as Hq.
  destruct (Get sz t k st) as [[g | e] s] eqn:G; cbn [fst snd] in *;
    [subst s | discriminate].
  unfold bind, ret.
  destruct (Delete sz C ip isl fuel t k st) as [[b | e] s] eqn:D;
    cbn [fst snd] in *; [| discriminate].
  intros [= <- <-]. split; [reflexivity |]. split; [eauto |].
  intros ->. apply Hq. apply Hiff. reflexivity.
Qed.

(** ** What the operations allocate and free *)

Lemma preserves_read_only {A} Inv (c : M A) :
  read_only c -> preserves Inv c (fun _ => True).
Proof.
  intros Hro st HI. rewrite (Hro st). split; [exact HI | trivial].
Qed.

Section Allocated.
Variable id : pgid_t.

Lemma put_sorted_allocated pg sp :
  preserves (allocated id) (put_sorted pg sp) (fun _ => True).
Proof.
  intros st HI. unfold put_sorted.
  destruct (st !! pg) eqn:E; cbn; split; auto.
  unfold allocated in *. destruct (decide (pg = id)) as [-> | Hne].
  - rewrite lookup_insert_eq. eauto.
  - rewrite lookup_insert_ne by exact Hne. exact HI.
Qed.

Lemma Allocate_allocated P :
  preserves (allocated id) (Allocate P) (fun _ => True).
Proof.
  intros st HI. unfold Allocate. cbn. split; [| trivial].
  unfold allocated in *. destruct (decide (fresh_pgid st = id)) as [-> | Hne].
  - rewrite lookup_insert_eq. eauto.
  - rewrite lookup_insert_ne by exact Hne. exact HI.
Qed.

Lemma Write_allocated pg off src :
  preserves (allocated id) (Write pg off src) (fun _ => True).
Proof.
  intros st HI. unfold Write, bind, plain_data, throw.
  destruct (st !! pg) as [[d | sp] |] eqn:E; cbn; try (split; auto; fail).
  destruct (off + length src <=? length d)%nat; cbn; split; auto.
  unfold allocated in *. destruct (decide (pg = id)) as [-> | Hne].
  - rewrite lookup_insert_eq. eauto.
  - rewrite lookup_insert_ne by exact Hne. exact HI.
Qed.

Lemma put_sorted_unallocated pg sp :
  preserves (unallocated id) (put_sorted pg sp) (fun _ => True).
Proof.
  intros st HI. unfold put_sorted.
  destruct (st !! pg) eqn:E; cbn; split; auto.
  unfold unallocated in *.
  rewrite lookup_insert_ne; [exact HI |]. intros ->. congruence.
Qed.

Lemma Write_unallocated pg off src :
  preserves (unallocated id) (Write pg off src) (fun _ => True).
Proof.
  intros st HI. unfold Write, bind, plain_data, throw.
  destruct (st !! pg) as [[d | sp] |] eqn:E; cbn; try (split; auto; fail).
  destruct (off + length src <=? length d)%nat; cbn; split; auto.
  unfold unallocated in *.
  rewrite lookup_insert_ne; [exact HI |]. intros ->. congruence.
Qed.

Lemma Free_unallocated pg :
  preserves (unallocated id) (Free pg) (fun _ => True).
Proof.
  intros st HI. unfold Free.
  destruct (st !! pg) eqn:E; cbn; split; auto.
  unfold unallocated in *. destruct (decide (pg = id)) as [-> | Hne].
  - apply lookup_delete_eq.
  - rewrite lookup_delete_ne by exact Hne. exact HI.
Qed.

End Allocated.

Create HintDb alloc discriminated.
#[export] Hint Resolve preserves_lift put_sorted_allocated Allocate_allocated
  Write_allocated put_sorted_unallocated Write_unallocated Free_unallocated
  : alloc.
#[export] Hint Extern 5 (preserves _ _ _) =>
  (apply preserves_read_only; solve [eauto with ro]) : alloc.

Ltac alloc_last :=
  first [ apply preserves_throw
        | apply preserves_ret; exact Logic.I
        | solve [eauto with alloc]
        | eapply preserves_weaken;
          [solve [eauto with alloc] | intros; exact Logic.I] ].

Ltac alloc :=
  repeat first
    [ progress cbv zeta
    | alloc_last
    | eapply preserves_bind; [ solve [eauto with alloc] | intros ? _ ]
    | eapply (preserves_bind _ _ _ (fun _ => True)); [ | intros ? _ ]
    | match goal with
      | |- preserves _ (if ?b then _ else _) _ => destruct b
      | |- preserves _ (match ?x with _ => _ end) _ => destruct x
      end ].

Section AllocatedTree.
Variable id : pgid_t.

Lemma Init_allocated pg n :
  preserves (allocated id) (Init pg n) (fun _ => True).
Proof. unfold Init. alloc. Qed.
Lemma InsertBeforeSlot_allocated P pg i s :
  preserves (allocated id) (InsertBeforeSlot P pg i s) (fun _ => True).
Proof. unfold InsertBeforeSlot. alloc. Qed.
Lemma DeleteSlot_allocated pg i :
  preserves (allocated id) (DeleteSlot pg i) (fun _ => True).
Proof. unfold DeleteSlot. alloc. Qed.
Lemma SplitInsert_allocated pg np s i :
  preserves (allocated id) (SplitInsert pg np s i) (fun _ => True).
Proof. unfold SplitInsert. alloc. Qed.
Lemma WriteSpecial_allocated pg off src :
  preserves (allocated id) (WriteSpecial pg off src) (fun _ => True).
Proof. unfold WriteSpecial. alloc. Qed.
Hint Resolve Init_allocated InsertBeforeSlot_allocated DeleteSlot_allocated
  SplitInsert_allocated WriteSpecial_allocated : alloc.

Lemma AllocInnerPage_allocated P t :
  preserves (allocated id) (AllocInnerPage P t) (fun _ => True).
Proof. unfold AllocInnerPage, AllocSortedPage. alloc. Qed.
Lemma AllocLeafPage_allocated P t :
  preserves (allocated id) (AllocLeafPage P t) (fun _ => True).
Proof. unfold AllocLeafPage, AllocSortedPage. alloc. Qed.
Lemma SetInnerSpecial_allocated pg p :
  preserves (allocated id) (SetInnerSpecial pg p) (fun _ => True).
Proof. unfold SetInnerSpecial. alloc. Qed.
Lemma SetLeafPrev_allocated pg p :
  preserves (allocated id) (SetLeafPrev pg p) (fun _ => True).
Proof. unfold SetLeafPrev. alloc. Qed.
Lemma SetLeafNext_allocated pg p :
  preserves (allocated id) (SetLeafNext pg p) (fun _ => True).
Proof. unfold SetLeafNext. alloc. Qed.
Lemma UpdateLevelNum_allocated t n :
  preserves (allocated id) (UpdateLevelNum t n) (fun _ => True).
Proof. unfold UpdateLevelNum. alloc. Qed.
Lemma UpdateRoot_allocated t r :
  preserves (allocated id) (UpdateRoot t r) (fun _ => True).
Proof. unfold UpdateRoot. alloc. Qed.
Hint Resolve AllocInnerPage_allocated AllocLeafPage_allocated
  SetInnerSpecial_allocated SetLeafPrev_allocated SetLeafNext_allocated
  UpdateLevelNum_allocated UpdateRoot_allocated : alloc.

Lemma Insert_split_loop_allocated sz P addr par t k cur lev slot_next upper
  inn addr1 :
  preserves (allocated id)
    (Insert_split_loop sz P addr par t k cur lev slot_next upper inn addr1)
    (fun _ => True).
Proof.
  revert inn addr1.
  induction par as [| po par IH]; intros inn addr1; cbn [Insert_split_loop];
    alloc.
Qed.
Hint Resolve Insert_split_loop_allocated : alloc.

Lemma Insert_allocated sz P addr absent t k v :
  preserves (allocated id) (Insert sz P addr absent t k v) (fun _ => True).
Proof. unfold Insert. alloc. Qed.

(** Freeing and unlinking, for [Delete] and [Destroy]. *)
Lemma DeleteSlot_unallocated pg i :
  preserves (unallocated id) (DeleteSlot pg i) (fun _ => True).
Proof. unfold DeleteSlot. alloc. Qed.
Lemma WriteSpecial_unallocated pg off src :
  preserves (unallocated id) (WriteSpecial pg off src) (fun _ => True).
Proof. unfold WriteSpecial. alloc. Qed.
Lemma FreePage_unallocated pg :
  preserves (unallocated id) (FreePage pg) (fun _ => True).
Proof. unfold FreePage. alloc. Qed.
Hint Resolve DeleteSlot_unallocated WriteSpecial_unallocated
  FreePage_unallocated : alloc.

Lemma DeleteSlotByKey_unallocated cmp pg k :
  preserves (unallocated id) (DeleteSlotByKey cmp pg k) (fun _ => True).
Proof. unfold DeleteSlotByKey. alloc. Qed.
Lemma SetLeafPrev_unallocated pg p :
  preserves (unallocated id) (SetLeafPrev pg p) (fun _ => True).
Proof. unfold SetLeafPrev. alloc. Qed.
Lemma SetLeafNext_unallocated pg p :
  preserves (unallocated id) (SetLeafNext pg p) (fun _ => True).
Proof. unfold SetLeafNext. alloc. Qed.
Lemma UpdateLevelNum_unallocated t n :
  preserves (unallocated id) (UpdateLevelNum t n) (fun _ => True).
Proof. unfold UpdateLevelNum. alloc. Qed.
Hint Resolve DeleteSlotByKey_unallocated SetLeafPrev_unallocated
  SetLeafNext_unallocated UpdateLevelNum_unallocated : alloc.

Lemma Delete_collapse_unallocated par t k inn :
  preserves (unallocated id) (Delete_collapse par t k inn) (fun _ => True).
Proof.
  revert inn.
  induction par as [| pa par IH]; intros inn; cbn [Delete_collapse]; alloc.
Qed.
Hint Resolve Delete_collapse_unallocated : alloc.

Lemma Delete_unallocated sz C ip isl fuel t k :
  preserves (unallocated id) (Delete sz C ip isl fuel t k) (fun _ => True).
Proof. unfold Delete. alloc. Qed.

Lemma Destroy_loop_unallocated fuel t cur level p_stack :
  preserves (unallocated id) (Destroy_loop fuel t cur level p_stack)
    (fun _ => True).
Proof.
  revert cur level p_stack.
  induction fuel as [| f IH]; intros cur level p_stack; cbn [Destroy_loop];
    alloc.
Qed.
Hint Resolve Destroy_loop_unallocated : alloc.

Lemma Destroy_unallocated fuel t :
  preserves (unallocated id) (Destroy fuel t) (fun _ => True).
Proof. unfold Destroy. alloc. Qed.

End AllocatedTree.

(** X21. [Insert] frees nothing: a page that was allocated before the
    call is allocated after it, whether [Insert] returns or throws. *)
Theorem Insert_never_frees sz P addr absent (t : BPlusTree) (k v : bytes)
  (st : PageManager) (id : pgid_t) :
  is_Some (st !! id) ->
  is_Some (snd (Insert sz P addr absent t k v st) !! id).
Proof. intros H. apply (Insert_allocated id sz P addr absent t k v st H). Qed.

(** X22. [Delete] and [Destroy] allocate nothing: a page id that was free
    before the call is free after it, whether they return or throw. *)
Theorem Delete_and_Destroy_never_allocate sz C ip isl fuel (t : BPlusTree)
  (k : bytes) (st : PageManager) (id : pgid_t) :
  st !! id = None ->
  snd (Delete sz C ip isl fuel t k st) !! id = None
  /\ snd (Destroy fuel t st) !! id = None.
Proof.
  intros H. split.
  - apply (Delete_unallocated id sz C ip isl fuel t k st H).
  - apply (Destroy_unallocated id fuel t st H).
Qed.

(** ** The tuple counter, once more *)

Lemma Take_keeps sz C ip isl fuel (t : BPlusTree) (X k : bytes) :
  preserves (meta_tail (meta_pgid_ t) X) (Take sz C ip isl fuel t k)
    (fun _ => True).
Proof.
  unfold Take.
  eapply preserves_bind; [apply Get_keeps |]. intros v _.
  eapply preserves_bind; [apply Delete_keeps |]. intros b _.
  apply preserves_ret. exact Logic.I.
Qed.

(** X23. No operation that changes the tree writes the tuple counter:
    the [tuple_num] field of the meta page reads the same after [Insert],
    [Delete], [Update] and [Take] as before, whether they return or
    throw. *)
Theorem mutators_keep_tuple_num sz P C addr absent ip isl fuel
  (t : BPlusTree) (k v : bytes) (st : PageManager) (n : Z) :
  fst (meta_tuple_num t st) = Ok n ->
  fst (meta_tuple_num t (snd (Insert sz P addr absent t k v st))) = Ok n
  /\ fst (meta_tuple_num t (snd (Delete sz C ip isl fuel t k st))) = Ok n
  /\ fst (meta_tuple_num t
            (snd (Update sz P C addr absent ip isl fuel t k v st))) = Ok n
  /\ fst (meta_tuple_num t (snd (Take sz C ip isl fuel t k st))) = Ok n.
Proof.
  intros Hn. repeat split.
  - apply preserves_tuple_num; [| exact Hn]. intros X. apply Insert_keeps.
  - apply preserves_tuple_num; [| exact Hn]. intros X. apply Delete_keeps.
  - apply preserves_tuple_num; [| exact Hn]. intros X. apply Update_keeps.
  - apply preserves_tuple_num; [| exact Hn]. intros X. apply Take_keeps.
Qed.

(** X24. A [Delete] or an [Update] that returns [false] has changed no
    page. *)
Theorem false_means_untouched sz P C addr absent ip isl fuel
  (t : BPlusTree) (k v : bytes) (st : PageManager) :
  (fst (Delete sz C ip isl fuel t k st) = Ok false ->
   snd (Delete sz C ip isl fuel t k st) = st)
  /\ (fst (Update sz P C addr absent ip isl fuel t k v st) = Ok false ->
      snd (Update sz P C addr absent ip isl fuel t k v st) = st).
Proof.
  split.
  - apply Delete_false_changes_nothing.
  - apply Update_false_changes_nothing.
Qed.

(** ** The largest key *)

Lemma bind_assoc {A X Y} (c : M A) (f : A -> M X) (g : X -> M Y)
  (st : PageManager) :
  bind (bind c f) g st = bind c (fun a => bind (f a) g) st.
Proof.
  unfold bind. destruct (c st) as [[a | e] s]; reflexivity.
Qed.

Lemma bind_ext {A X} (c : M A) (f g : A -> M X) (st : PageManager) :
  (forall a s, f a s = g a s) -> bind c f st = bind c g st.
Proof.
  intros H. unfold bind. destruct (c st) as [[a | e] s]; [apply H | reflexivity].
Qed.

Lemma InnerLargestKey_loop_LargestLeaf_loop n (t : BPlusTree) (cur : pgid_t)
  (st : PageManager) :
  InnerLargestKey_loop n t cur st = LargestLeaf_loop n t cur st.
Proof.
  revert cur st.
  induction n as [| n IH]; intros cur st;
    cbn [InnerLargestKey_loop LargestLeaf_loop]; [reflexivity |].
  unfold InnerLastPage, bind.
  destruct (GetInnerPage t cur st) as [[p | e] s1]; [| reflexivity].
  destruct (GetInnerSpecial p s1) as [[c | e] s2]; [| reflexivity].
  apply IH.
Qed.

(** X25. [InnerLargestKey] returns the largest key of the leaf
    [LargestLeaf] finds: the two loops, written separately, walk the same
    pages for every [level] a [uint8_t] can hold. *)
Theorem InnerLargestKey_is_key_of_LargestLeaf sz (t : BPlusTree)
  (inner : pgid_t) (level : Z) (st : PageManager) :
  level < 256 ->
  InnerLargestKey sz t inner level st
  = (do l <- LargestLeaf t inner level;
     do leaf <- GetLeafPage t l;
     LeafLargestKey sz leaf) st.
Proof.
  intros Hlevel. unfold InnerLargestKey, LargestLeaf.
  destruct (0 <? level) eqn:L; [| reflexivity].
  apply Z.ltb_lt in L. cbv zeta.
  rewrite bind_assoc. unfold InnerLastPage.
  apply bind_ext. intros cur s1.
  replace (Z.to_nat (wrap8 (level - 1))) with (Z.to_nat level - 1)%nat
    by (unfold wrap8; rewrite Z.mod_small by lia; lia).
  unfold bind. rewrite InnerLargestKey_loop_LargestLeaf_loop. reflexivity.
Qed.

Lemma LeafLargestKey_run sz (st : PageManager) (leaf : pgid_t)
  (sp : SortedPage) (k : bytes) :
  st !! leaf = Some (SortedPg sp) ->
  fst (LeafLargestKey sz leaf st) = Ok k ->
  exists sl s,
    nth_error (slots sp) (length (slots sp) - 1) = Some sl
    /\ LeafSlotParse sz sl = Ok s /\ key s = k.
Proof.
  intros Hsp. unfold LeafLargestKey. unfold bind at 1.
  rewrite (SlotNum_run _ _ _ Hsp).
  destruct (0 <? length (slots sp))%nat; [| discriminate].
  unfold bind at 1. rewrite (SlotNum_run _ _ _ Hsp).
  unfold Slot, bind. rewrite (sorted_run _ _ _ Hsp).
  destruct (nth_error (slots sp) (length (slots sp) - 1)) as [sl |];
    [| discriminate].
  unfold ret, lift.
  destruct (LeafSlotParse sz sl) as [s | e] eqn:Hs; [| discriminate].
  cbn. intros [= <-]. exists sl, s. repeat split. exact Hs.
Qed.

(** X26. On a tree of one level, a key [MaxKey] returns is the key of
    the last slot of the root leaf, as [LeafSlotParse] reads it. *)
Theorem MaxKey_one_level sz C ip isl fuel (t : BPlusTree) (st : PageManager)
  (r : pgid_t) (sp : SortedPage) (k : bytes) :
  fst (LevelNum t st) = Ok 1 -> fst (Root t st) = Ok r ->
  st !! r = Some (SortedPg sp) ->
  fst (MaxKey sz C ip isl fuel t st) = Ok (Some k) ->
  exists sl s,
    nth_error (slots sp) (length (slots sp) - 1) = Some sl
    /\ LeafSlotParse sz sl = Ok s /\ key s = k.
Proof.
  intros HL HR Hr. unfold MaxKey. unfold bind at 1.
  pose proof (read_only_IsEmpty C ip isl fuel t st) as Hro.
  destruct (IsEmpty C ip isl fuel t st) as [[[|] | e] s] eqn:E;
    cbn [snd] in Hro; subst s; try discriminate.
  run_ro HL (read_only_LevelNum t). change (1 =? 1) with true. cbv iota.
  run_ro HR (read_only_Root t).
  unfold GetLeafPage. rewrite (bind_Ok _ _ _ _ _ (GetSortedPage_run _ _ _ Hr)).
  unfold bind, ret.
  pose proof (LeafLargestKey_run sz st r sp) as Hk.
  destruct (LeafLargestKey sz r st) as [[k' | e] s]; [| discriminate].
  cbn. intros [= <-]. apply Hk; [exact Hr | reflexivity].
Qed.

(** ** [IncreaseTupleNum] *)

(** X27. [IncreaseTupleNum], when it returns, has written the count of
    the scan plus [delta] to the tuple counter, in [size_t] arithmetic, and
    has left the level count and the root id alone; a negative [delta]
    larger than the count does not get that far. *)
Theorem IncreaseTupleNum_writes_the_count C ip isl fuel (t : BPlusTree)
  (delta : Z) (st st' : PageManager) :
  IncreaseTupleNum C ip isl fuel t delta st = (Ok tt, st') ->
  exists n,
    fst (TupleNum C ip isl fuel t st) = Ok n
    /\ (delta < 0 -> wrap64 (- delta) <= n)
    /\ fst (meta_tuple_num t st') = Ok (wrap64 (n + delta))
    /\ fst (LevelNum t st') = fst (LevelNum t st)
    /\ fst (Root t st') = fst (Root t st).
Proof.
  unfold IncreaseTupleNum. unfold bind at 1.
  pose proof (read_only_TupleNum C ip isl fuel t st) as Hro.
  destruct (TupleNum C ip isl fuel t st) as [[n | e] s] eqn:E;
    cbn [snd] in Hro; subst s; [| discriminate].
  intros H. exists n. split; [reflexivity |].
  assert (Hassert : (delta < 0 -> wrap64 (- delta) <= n)
                    /\ UpdateTupleNum t (wrap64 (n + delta)) st = (Ok tt, st')).
  { revert H. unfold bind at 1.
    destruct (delta <? 0) eqn:D.
    - destruct (wrap64 (- delta) <=? n) eqn:A; [| discriminate].
      apply Z.leb_le in A. cbn. intros H. split; [intros _; exact A | exact H].
    - apply Z.ltb_ge in D. cbn. intros H. split; [lia | exact H]. }
  destruct Hassert as [Ha HU]. split; [exact Ha |].
  destruct (UpdateTupleNum_read _ _ _ _ HU) as [T1 [T2 T3]].
  rewrite T1, T2, T3. repeat split.
  f_equal. unfold wrap64. apply Z.mod_mod. lia.
Qed.

(** ** The printers *)

Lemma Z_of_byte_inj (a b : byte) : Z_of_byte a = Z_of_byte b -> a = b.
Proof.
  unfold Z_of_byte. intros H. apply N2Z.inj in H.
  apply (f_equal Byte.of_N) in H. rewrite !Byte.of_to_N in H.
  congruence.
Qed.

(** The four characters [printer_oct] writes for one byte. *)
Lemma print_oct_app (out : ostream) (b : byte) :
  print_oct out b = out ++ print_oct [] b.
Proof. unfold print_oct. cbn [app]. rewrite <- !app_assoc. reflexivity. Qed.

Lemma fold_print_oct (s : bytes) (out : ostream) :
  fold_left print_oct s out = out ++ concat (map (print_oct []) s).
Proof.
  revert out. induction s as [| b s IH]; intros out; cbn [fold_left map concat].
  - now rewrite app_nil_r.
  - rewrite IH, (print_oct_app out b), <- app_assoc. reflexivity.
Qed.

Lemma length_print_oct (b : byte) : length (print_oct [] b) = 4%nat.
Proof. reflexivity. Qed.

Lemma to_oct_digit (z : Z) : 0 <= z < 8 -> Z_of_byte (to_oct (wrap8 z)) = z + 48.
Proof.
  intros H. unfold to_oct, wrap8. rewrite Z_of_byte_of_Z.
  rewrite (Z.mod_small z) by lia. apply Z.mod_small. lia.
Qed.

Lemma print_oct_inj (a b : byte) :
  print_oct [] a = print_oct [] b -> a = b.
Proof.
  unfold print_oct. cbn [app]. intros [= H6 H3 H0].
  pose proof (Z_of_byte_range a) as Ra. pose proof (Z_of_byte_range b) as Rb.
  apply Z_of_byte_inj.
  apply (f_equal Z_of_byte) in H6, H3, H0.
  change 7 with (Z.ones 3) in H3, H0.
  rewrite !Z.land_ones in H3, H0 by lia.
  rewrite !Z.shiftr_div_pow2 in H6, H3 by lia.
  rewrite !to_oct_digit in H6, H3, H0
    by (change (2 ^ 6) with 64; change (2 ^ 3) with 8;
        Z.div_mod_to_equations; lia).
  change (2 ^ 6) with 64 in *. change (2 ^ 3) with 8 in *.
  Z.div_mod_to_equations. lia.
Qed.

Lemma concat_print_oct_inj (s1 s2 : bytes) :
  concat (map (print_oct []) s1) = concat (map (print_oct []) s2) -> s1 = s2.
Proof.
  revert s2. induction s1 as [| a s1 IH]; intros [| b s2]; cbn [map concat].
  - reflexivity.
  - discriminate.
  - discriminate.
  - intros H.
    assert (Ha : print_oct [] a = print_oct [] b
                 /\ concat (map (print_oct []) s1)
                    = concat (map (print_oct []) s2)).
    { apply app_inj_1 in H; [exact H |]. reflexivity. }
    destruct Ha as [Ha Hs]. f_equal; [apply print_oct_inj, Ha | apply IH, Hs].
Qed.

(** X28. [printer_oct] tells keys apart: two keys printed after the same
    text give the same text only if they are the same key. *)
Theorem printer_oct_injective (out : ostream) (s1 s2 : bytes) :
  fst (printer_oct out s1) = fst (printer_oct out s2) -> s1 = s2.
Proof.
  unfold printer_oct. cbn [fst]. rewrite !fold_print_oct.
  intros H. apply app_inv_head in H. apply concat_print_oct_inj, H.
Qed.

Lemma length_concat_print_oct (s : bytes) :
  length (concat (map (print_oct []) s)) = (length s * 4)%nat.
Proof.
  induction s as [| b s IH]; cbn [map concat length]; [reflexivity |].
  rewrite length_app, IH, length_print_oct. lia.
Qed.

(** [to_hex] never fails on half a byte. *)
Lemma to_hex_nibble (z : Z) :
  0 <= z < 16 -> exists h, to_hex (wrap8 z) = Ok h.
Proof.
  intros H. unfold to_hex, wrap8. rewrite (Z.mod_small z) by lia.
  replace ((0 <=? z) && (z <=? 15)) with true
    by (symmetry; apply andb_true_iff; split; apply Z.leb_le; lia).
  destruct ((0 <=? z) && (z <=? 9)); eauto.
Qed.

Lemma print_hex_total (s : bytes) (out : ostream) :
  exists w, print_hex out s = Ok (out ++ w) /\ length w = (length s * 2)%nat.
Proof.
  revert out. induction s as [| b s IH]; intros out; cbn [print_hex].
  - exists []. rewrite app_nil_r. split; reflexivity.
  - pose proof (Z_of_byte_range b) as R.
    destruct (to_hex_nibble (Z.shiftr (Z_of_byte b) 4)) as [h Hh].
    { rewrite Z.shiftr_div_pow2 by lia. change (2 ^ 4) with 16.
      Z.div_mod_to_equations. lia. }
    destruct (to_hex_nibble (Z.land (Z_of_byte b) 15)) as [l Hl].
    { change 15 with (Z.ones 4). rewrite Z.land_ones by lia.
      change (2 ^ 4) with 16. Z.div_mod_to_equations. lia. }
    rewrite Hh. cbn [obind]. rewrite Hl. cbn [obind].
    destruct (IH ((out ++ [h]) ++ [l])) as [w [Hw Hlen]].
    exists (h :: l :: w). rewrite Hw. split.
    + rewrite <- !app_assoc. reflexivity.
    + cbn [length]. lia.
Qed.

(** X29. Every predefined printer returns the number of characters it
    printed, as [Print] asks of a key printer, and only appends to the
    stream; [printer_hex] never trips the assertion in [to_hex]. *)
Theorem printers_count_what_they_print (out : ostream) (s : bytes) :
  (exists w, printer_str out s = (out ++ w, length w))
  /\ (exists w, printer_oct out s = (out ++ w, length w))
  /\ (exists w, printer_hex out s = Ok (out ++ w, length w))
  /\ (exists w, printer_mock out s = (out ++ w, length w)).
Proof.
  split; [| split; [| split]].
  - exists s. reflexivity.
  - exists (concat (map (print_oct []) s)). unfold printer_oct.
    rewrite fold_print_oct, length_concat_print_oct. reflexivity.
  - unfold printer_hex. cbv zeta.
    destruct (print_hex_total s (out ++ B "(" ++ decimal (length s) ++ B ")"))
      as [w [Hw Hlen]].
    exists ((B "(" ++ decimal (length s) ++ B ")") ++ w).
    rewrite Hw. cbn [obind]. rewrite <- app_assoc.
    rewrite (length_app (B "(" ++ decimal (length s) ++ B ")")), Hlen.
    reflexivity.
  - exists []. unfold printer_mock. rewrite app_nil_r. reflexivity.
Qed.

(** X30. [to_oct] and [to_hex] map a digit onto its character: [to_oct]
    gives the characters of "01234567" and [to_hex] those of
    "0123456789abcdef", and [to_hex] fails its assertion on every number
    above 15. *)
Theorem digits_are_characters (c : Z) :
  (0 <= c <= 7 -> Some (to_oct c) = nth_error (B "01234567") (Z.to_nat c))
  /\ (0 <= c <= 15 ->
      to_hex c = Ok (nth (Z.to_nat c) (B "0123456789abcdef") x00))
  /\ (15 < c -> to_hex c = Fault AssertFailed).
Proof.
  split; [| split].
  - intros H.
    assert (Hc : c = 0 \/ c = 1 \/ c = 2 \/ c = 3 \/ c = 4 \/ c = 5 \/ c = 6
                 \/ c = 7) by lia.
    repeat (destruct Hc as [-> | Hc]; [reflexivity |]). subst. reflexivity.
  - intros H.
    assert (Hc : c = 0 \/ c = 1 \/ c = 2 \/ c = 3 \/ c = 4 \/ c = 5 \/ c = 6
                 \/ c = 7 \/ c = 8 \/ c = 9 \/ c = 10 \/ c = 11 \/ c = 12
                 \/ c = 13 \/ c = 14 \/ c = 15) by lia.
    repeat (destruct Hc as [-> | Hc]; [reflexivity |]). subst. reflexivity.
  - intros H. unfold to_hex.
    replace ((0 <=? c) && (c <=? 15)) with false; [reflexivity |].
    symmetry. apply andb_false_iff. right. apply Z.leb_gt. lia.
Qed.

(** ** The worked examples *)

Lemma demo_Create_tree :
  fst (demo_Create ∅) = Ok demo_tree
  /\ dom (snd (demo_Create ∅)) = {[1; 2]}
  /\ fst (Root demo_tree (snd (demo_Create ∅))) = Ok 2
  /\ fst (LevelNum demo_tree (snd (demo_Create ∅))) = Ok 1.
Proof. vm_compute. repeat split; reflexivity. Qed.

Lemma st_one_two_three (addr : memory) :
  fst ((do t <- demo_Create; demo_Insert addr t key_a val_1) ∅) = Ok true
  /\ fst (demo_Insert addr demo_tree key_b val_2 (st_one addr)) = Ok true
  /\ fst (demo_Insert addr demo_tree key_c val_3 (st_two addr)) = Ok true.
Proof. vm_compute. repeat split; reflexivity. Qed.

(** The third insert makes the tree two levels high, with the new root on
    page 4; its one slot is the child id 3 in binary followed by
    [key_a], and its right-most child is page 2. *)
Lemma st_three_root (addr : memory) :
  let st := st_three addr in
  fst (LevelNum demo_tree st) = Ok 2
  /\ fst (Root demo_tree st) = Ok 4
  /\ page_slots st 4 = Some [le_bytes 4 3 ++ key_a]
  /\ fst (GetInnerSpecial 4 st) = Ok 2
  /\ dom st = {[1; 2; 3; 4]}.
Proof. vm_compute. repeat split; reflexivity. Qed.

(** With the child ids as text the lookups work. *)
Lemma st_leaves_text_get :
  fst (demo_Get demo_tree key_a st_leaves_text) = Ok (Some val_1)
  /\ fst (demo_Get demo_tree key_b st_leaves_text) = Ok (Some val_2)
  /\ fst (demo_Get demo_tree key_c st_leaves_text) = Ok (Some val_3)
  /\ fst (demo_Get demo_tree key_d st_leaves_text) = Ok None.
Proof. vm_compute. repeat split; reflexivity. Qed.

Lemma st_three_levels_text_get :
  fst (demo_Get demo_tree key_a st_three_levels_text) = Ok (Some val_1)
  /\ fst (demo_Get demo_tree key_b st_three_levels_text) = Ok (Some val_2)
  /\ fst (demo_Get demo_tree key_c st_three_levels_text) = Ok (Some val_3)
  /\ fst (demo_Get demo_tree key_d st_three_levels_text) = Ok (Some val_1).
Proof. vm_compute. repeat split; reflexivity. Qed.

(** With the child ids in binary, as documented, they do not. *)
Lemma st_leaves_get_faults :
  fst (demo_Get demo_tree key_a st_leaves) = Fault InvalidArgument.
Proof. vm_compute. reflexivity. Qed.

(** ** Slot codecs *)

(** C3. The slot codecs do not round-trip.  An inner slot with child page
    3 and a 16-byte separator is serialised with the child id in binary and
    parsed with [std::stoi], which throws; a leaf slot with a 17-byte key
    comes back with the key cut to 16 bytes and the value extended by the
    byte the scratch memory held at offset 34. *)
Theorem slot_codecs_do_not_round_trip (addr : memory) :
  (let? s := inner_slot_bytes addr (mkInnerSlot 3 key_a) in InnerSlotParse s)
    = Fault InvalidArgument
  /\ (let? s := leaf_slot_bytes demo_pgoff addr (mkLeafSlot key_a17 val_1) in
      LeafSlotParse demo_pgoff s)
    = Ok (mkLeafSlot key_a (val_1 ++ [addr 34%nat])).
Proof. split; reflexivity. Qed.

(** With a key and a value of exactly [sizeof(std::string_view)] bytes the
    leaf codec does round-trip. *)
Lemma leaf_slot_round_trip_16 (addr : memory) :
  (let? s := leaf_slot_bytes demo_pgoff addr (mkLeafSlot key_a val_1) in
   LeafSlotParse demo_pgoff s)
  = Ok (mkLeafSlot key_a val_1).
Proof. reflexivity. Qed.

(** A key shorter than 16 bytes is read past its end. *)
Lemma leaf_slot_short_key (addr : memory) :
  leaf_slot_bytes demo_pgoff addr (mkLeafSlot (B "a") (B "1")) = Fault BadRead.
Proof. reflexivity. Qed.

(** ** Open *)

(** C10. [Open] never fails and touches no page: whatever the page
    manager holds and whatever the id, it returns a tree that merely
    records the id. *)
Theorem Open_always_succeeds
  (Compare : bytes -> bytes -> comparison) (st : PageManager)
  (meta_pgid : pgid_t) :
  exists t, Open Compare meta_pgid st = (Ok t, st)
            /\ MetaPageID t = meta_pgid /\ comp_ t = Compare.
Proof. eexists. split; [reflexivity | split; reflexivity]. Qed.

(** A stale id shows only when the meta page is first read. *)
Lemma Open_stale_id_shows_later (st : PageManager) (meta_pgid : pgid_t)
  (k : bytes) :
  st !! meta_pgid = None ->
  (do t <- Open lex_compare meta_pgid; demo_Get t k) st = (Fault PageFault, st).
Proof.
  intros Hnone.
  unfold demo_Get, Get, Open, Root, GetMetaPage, GetPlainPage, bind, ret.
  cbn. rewrite Hnone. reflexivity.
Qed.

(** ** Insert and Get *)

(** C1. On a fresh tree, inserting a 17-byte key succeeds, and looking
    the key up afterwards finds nothing: the leaf holds the key cut to 16
    bytes.  This holds whatever the scratch memory contains. *)
Theorem insert_then_get_loses_long_key (addr : memory) :
  fst ((do t <- demo_Create;
        do b <- demo_Insert addr t key_a17 val_1;
        do g <- demo_Get t key_a17;
        ret (b, g)) ∅)
  = Ok (true, None).
Proof. vm_compute. reflexivity. Qed.

(** C2. Inserting a key that is already there returns true and changes
    the leaf: a second slot with the same key is put in front of the
    first, and [Get] then returns the new value. *)
Theorem insert_duplicate_succeeds (addr : memory) :
  let r := demo_Insert addr demo_tree key_a val_2 (st_one addr) in
  fst r = Ok true
  /\ page_slots (st_one addr) 2 = Some [leaf_slot_of key_a val_1]
  /\ page_slots (snd r) 2
     = Some [leaf_slot_of key_a val_2; leaf_slot_of key_a val_1]
  /\ fst (demo_Get demo_tree key_a (snd r)) = Ok (Some val_2).
Proof. vm_compute. repeat split; reflexivity. Qed.

(** ** The tuple counter *)

(** C4. The [tuple_num] field of the meta page stays at the 0 that
    [Create] wrote, through two successful inserts and a successful
    delete, while the root leaf, the only leaf, holds 1, 2 and 1 slots. *)
Theorem tuple_num_field_never_updated
  (addr : memory) (indet_page_id : pgid_t) (indet_slot_id fuel : nat) :
  fst ((do t <- demo_Create;
        do b1 <- demo_Insert addr t key_a val_1;
        do n1 <- meta_tuple_num t;
        do c1 <- SlotNum 2;
        do b2 <- demo_Insert addr t key_b val_2;
        do n2 <- meta_tuple_num t;
        do c2 <- SlotNum 2;
        do b3 <- demo_Delete indet_page_id indet_slot_id fuel t key_a;
        do n3 <- meta_tuple_num t;
        do c3 <- SlotNum 2;
        ret ((b1, n1, c1), (b2, n2, c2), (b3, n3, c3))) ∅)
  = Ok ((true, 0, 1%nat), (true, 0, 2%nat), (true, 0, 1%nat)).
Proof. vm_compute. reflexivity. Qed.

(** ** Leaf split *)

(** C7. The third insert splits the root leaf (page 2).  The new sibling
    (page 3) receives the high half, [key_c], and is linked in front of
    the original: [3.next = 2] and [2.prev = 3], with [3.prev = 0] and
    [2.next = 0].  So the chain runs from page 3 to page 2, and the key in
    the first leaf is greater than the keys in the second. *)
Theorem leaf_split_links_sibling_on_the_left (addr : memory) :
  let st := st_three addr in
  fst (demo_Insert addr demo_tree key_c val_3 (st_two addr)) = Ok true
  /\ page_slots (st_two addr) 2
     = Some [leaf_slot_of key_a val_1; leaf_slot_of key_b val_2]
  /\ page_slots st 2 = Some [leaf_slot_of key_a val_1; leaf_slot_of key_b val_2]
  /\ page_slots st 3 = Some [leaf_slot_of key_c val_3]
  /\ fst (GetLeafPrev 2 st) = Ok 3
  /\ fst (GetLeafNext 2 st) = Ok 0
  /\ fst (GetLeafPrev 3 st) = Ok 0
  /\ fst (GetLeafNext 3 st) = Ok 2
  /\ lex_compare key_c key_a = Gt.
Proof. vm_compute. repeat split; reflexivity. Qed.

(** ** Delete *)

(** C5. In the two-level tree reached by three inserts, [key_a] is in
    leaf 2, yet deleting it does not return: the descent compares the key
    with the root's slot, [InnerSlotParse] runs [std::stoi] on the binary
    child id, and the exception leaves the tree as it was. *)
Theorem delete_present_key_faults_on_two_levels
  (addr : memory) (indet_page_id : pgid_t) (indet_slot_id fuel : nat) :
  let st := st_three addr in
  page_slots st 2 = Some [leaf_slot_of key_a val_1; leaf_slot_of key_b val_2]
  /\ demo_Delete indet_page_id indet_slot_id fuel demo_tree key_a st
     = (Fault InvalidArgument, st).
Proof. vm_compute. split; reflexivity. Qed.

(** [Get] and [Insert] meet the same exception on that tree. *)
Lemma two_levels_get_insert_fault (addr : memory) :
  let st := st_three addr in
  fst (demo_Get demo_tree key_a st) = Fault InvalidArgument
  /\ fst (demo_Insert addr demo_tree key_a val_1 st) = Fault InvalidArgument.
Proof. vm_compute. split; reflexivity. Qed.

(** Deleting the only key of the middle leaf of a tree whose child ids
    [InnerSlotParse] can read: the leaf is unlinked and freed, and then
    reopened as its own parent, because [par.top()] is the leaf itself.
    The root keeps both separators. *)
Lemma delete_reopens_freed_leaf
  (indet_page_id : pgid_t) (indet_slot_id fuel : nat) :
  let r := demo_Delete indet_page_id indet_slot_id fuel demo_tree key_b
             st_leaves_text in
  fst r = Fault PageFault
  /\ dom (snd r) = {[1; 2; 3; 5]}
  /\ fst (GetLeafNext 3 (snd r)) = Ok 5
  /\ fst (GetLeafPrev 5 (snd r)) = Ok 3
  /\ page_slots (snd r) 2 = page_slots st_leaves_text 2.
Proof. vm_compute. repeat split; reflexivity. Qed.

(** Deleting the only key of the first leaf asks for page 0, the
    "no sibling" sentinel, as a leaf. *)
Lemma delete_first_leaf_opens_page_0
  (indet_page_id : pgid_t) (indet_slot_id fuel : nat) :
  fst (demo_Delete indet_page_id indet_slot_id fuel demo_tree key_a
         st_leaves_text)
  = Fault PageFault.
Proof. vm_compute. reflexivity. Qed.

(** After the key was inserted twice, one [Delete] removes one of the two
    slots: the key is still found, and a second [Delete] succeeds again. *)
Lemma delete_leaves_duplicate
  (addr : memory) (indet_page_id : pgid_t) (indet_slot_id fuel : nat) :
  fst ((do b <- demo_Insert addr demo_tree key_a val_2;
        do d1 <- demo_Delete indet_page_id indet_slot_id fuel demo_tree key_a;
        do g <- demo_Get demo_tree key_a;
        do d2 <- demo_Delete indet_page_id indet_slot_id fuel demo_tree key_a;
        ret (b, d1, g, d2)) (st_one addr))
  = Ok (true, true, Some val_1, true).
Proof. vm_compute. reflexivity. Qed.

(** On a one-leaf tree without duplicates [Delete] does what it should. *)
Lemma delete_one_leaf
  (addr : memory) (indet_page_id : pgid_t) (indet_slot_id fuel : nat) :
  fst ((do d0 <- demo_Delete indet_page_id indet_slot_id fuel demo_tree key_c;
        do d1 <- demo_Delete indet_page_id indet_slot_id fuel demo_tree key_a;
        do g <- demo_Get demo_tree key_a;
        do d2 <- demo_Delete indet_page_id indet_slot_id fuel demo_tree key_a;
        ret (d0, d1, g, d2)) (st_two addr))
  = Ok (false, true, None, false).
Proof. vm_compute. reflexivity. Qed.

(** ** Update *)

(** C8. Updating the present key [key_a] to a 17-byte value returns
    true, and [Get] then returns the first 16 bytes of the value followed
    by the byte the scratch memory held at offset 34, not the value: two
    values that differ in their last byte read back the same. *)
Theorem update_stores_scratch_byte
  (addr : memory) (indet_page_id : pgid_t) (indet_slot_id fuel : nat) :
  let after v :=
    fst ((do u <- demo_Update addr indet_page_id indet_slot_id fuel
                    demo_tree key_a v;
          do g <- demo_Get demo_tree key_a;
          ret (u, g)) (st_one addr)) in
  after val_17 = Ok (true, Some (val_2 ++ [addr 34%nat]))
  /\ after val_17z = Ok (true, Some (val_2 ++ [addr 34%nat]))
  /\ val_17 = val_2 ++ B "Y"
  /\ val_17z = val_2 ++ B "Z".
Proof. vm_compute. repeat split; reflexivity. Qed.

(** For 16-byte values, and on an absent key, [Update] on the one-leaf
    tree does what it should. *)
Lemma update_one_leaf_16
  (addr : memory) (indet_page_id : pgid_t) (indet_slot_id fuel : nat) :
  fst ((do u <- demo_Update addr indet_page_id indet_slot_id fuel
                  demo_tree key_a val_2;
        do g <- demo_Get demo_tree key_a;
        ret (u, g)) (st_one addr))
  = Ok (true, Some val_2)
  /\ (do u <- demo_Update addr indet_page_id indet_slot_id fuel
                demo_tree key_b val_2;
      do g <- demo_Get demo_tree key_b;
      ret (u, g)) (st_one addr)
     = (Ok (false, None), st_one addr).
Proof. vm_compute. split; reflexivity. Qed.

(** ** Destroy *)

(** C9. On the two-level tree, [Destroy] stops at the first inner slot it
    parses, with the exception of [std::stoi]; the four pages of the tree
    are all still allocated. *)
Theorem destroy_two_levels_frees_nothing (addr : memory) (fuel : nat) :
  let r := Destroy (S fuel) demo_tree (st_three addr) in
  fst r = Fault InvalidArgument
  /\ dom (st_three addr) = {[1; 2; 3; 4]}
  /\ snd r = st_three addr.
Proof. vm_compute. repeat split; reflexivity. Qed.

(** On a one-leaf tree [Destroy] does free everything. *)
Lemma destroy_one_leaf (addr : memory) (fuel : nat) :
  Destroy fuel demo_tree (st_two addr) = (Ok tt, ∅).
Proof. vm_compute. reflexivity. Qed.

(** On a three-level tree whose child ids [InnerSlotParse] can read,
    [Destroy] frees the right-most child of the root without visiting it:
    the leaves 7 and 8 below it stay allocated. *)
Lemma destroy_leaks_rightmost_subtree :
  let r := Destroy 100 demo_tree st_three_levels_text in
  fst r = Ok tt /\ dom (snd r) = {[7; 8]}.
Proof. vm_compute. split; reflexivity. Qed.

(** ** The iterator *)

(** C6. On the one-leaf tree holding [key_a] and [key_b] (leaf 2, two
    slots, no sibling): [Begin] returns the indeterminate position, not
    [(2, 0)]; and an iterator that does start at [(2, 0)] goes to slot 1,
    then to slot 2, which is past the last slot and where [Cur] reads out
    of range, and only then to the end. *)
Theorem iterator_overruns_the_leaf
  (addr : memory) (indet_page_id : pgid_t) (indet_slot_id : nat) :
  let st := st_two addr in
  fst (Begin indet_page_id indet_slot_id demo_tree st)
    = Ok (mkIter 1 indet_page_id indet_slot_id)
  /\ fst (SlotNum 2 st) = Ok 2%nat
  /\ fst (GetLeafNext 2 st) = Ok 0
  /\ fst (Next_trace 10 lex_compare (mkIter 1 2 0) st)
     = Ok [(2, 1%nat); (2, 2%nat); (0, 2%nat)]
  /\ fst (Iter_Cur demo_pgoff lex_compare (mkIter 1 2 1) st)
     = Ok (Some (key_b, val_2))
  /\ fst (Iter_Cur demo_pgoff lex_compare (mkIter 1 2 2) st) = Fault BadRead.
Proof. vm_compute. repeat split; reflexivity. Qed.

(** On a chain of three leaves, [Begin] still gives the indeterminate
    position (and would have been given the root, page 2, an inner page),
    and an iterator started at the left-most leaf visits slot 1 of every
    leaf and slot 0 of the first only: [key_b] and [key_c] are never
    under the cursor. *)
Lemma iterator_skips_slot_0 (indet_page_id : pgid_t) (indet_slot_id : nat) :
  fst (Begin indet_page_id indet_slot_id demo_tree st_leaves)
    = Ok (mkIter 1 indet_page_id indet_slot_id)
  /\ fst (Root demo_tree st_leaves) = Ok 2
  /\ fst (Next_trace 10 lex_compare (mkIter 1 3 0) st_leaves)
     = Ok [(3, 1%nat); (4, 1%nat); (5, 1%nat); (0, 1%nat)].
Proof. vm_compute. repeat split; reflexivity. Qed.

(** ** The general results at the worked examples *)

(** The hypotheses of the general results are met by the examples above. *)
Lemma leaf_codec_cuts_long_keys_at_key_a17 :
  exists s,
    (let? b := leaf_slot_bytes demo_pgoff zero_memory
                 (mkLeafSlot key_a17 val_1) in
     LeafSlotParse demo_pgoff b) = Ok s
    /\ key s <> key_a17.
Proof.
  eexists. split; [reflexivity |].
  apply (leaf_codec_cuts_long_keys demo_pgoff zero_memory key_a17 val_1);
    [unfold demo_pgoff; lia | cbn; lia | cbn; lia | reflexivity].
Defined.

Lemma inner_codec_never_round_trips_at_49 :
  exists s,
    (let? b := inner_slot_bytes zero_memory (mkInnerSlot 49 key_a) in
     InnerSlotParse b)
      = Ok s
    /\ next s = 1 /\ next s <> 49.
Proof.
  eexists. split; [reflexivity |]. split; [reflexivity |].
  apply (inner_codec_never_round_trips zero_memory 49 key_a);
    [lia | reflexivity].
Defined.

Lemma tuple_num_kept_at_st_one (addr : memory) :
  fst (meta_tuple_num demo_tree (st_one addr)) = Ok 0
  /\ fst (meta_tuple_num demo_tree (st_two addr)) = Ok 0.
Proof.
  assert (H : fst (meta_tuple_num demo_tree (st_one addr)) = Ok 0)
    by (vm_compute; reflexivity).
  split; [exact H |].
  exact (Insert_keeps_tuple_num demo_pgoff demo_page addr demo_absent demo_tree
           key_b val_2 (st_one addr) 0 H).
Defined.

Lemma delete_absent_at_st_one
  (addr : memory) (indet_page_id : pgid_t) (indet_slot_id fuel : nat) :
  snd (demo_Delete indet_page_id indet_slot_id fuel demo_tree key_b (st_one addr))
  = st_one addr.
Proof.
  apply (Delete_false_changes_nothing demo_pgoff lex_compare indet_page_id
           indet_slot_id fuel demo_tree key_b (st_one addr)).
  vm_compute. reflexivity.
Defined.

Lemma root_leaf_split_at_st_two :
  fst (GetLeafNext 3 (st_three zero_memory)) = Ok 2
  /\ fst (GetLeafPrev 2 (st_three zero_memory)) = Ok 3.
Proof.
  assert (Hs : exists s,
             leaf_slot_bytes demo_pgoff zero_memory (mkLeafSlot key_c val_3)
             = Ok s
             /\ fst (IsInsertable demo_page 2 s (st_two zero_memory))
                = Ok false)
    by (eexists; split; vm_compute; reflexivity).
  destruct Hs as [s [Hs Hfull]].
  refine (root_leaf_split_links_left demo_pgoff demo_page zero_memory
            demo_absent demo_tree key_c val_3 (st_two zero_memory)
            (st_three zero_memory) true 2 s _ _ Hs Hfull _);
    vm_compute; reflexivity.
Defined.

Lemma Next_never_at_slot_0_at_st_leaves :
  exists it',
    fst (Iter_Next lex_compare (mkIter 1 3 1) st_leaves) = Ok it'
    /\ page_id_ it' = 4 /\ slot_id_ it' <> 0%nat.
Proof.
  eexists. split; [vm_compute; reflexivity |]. split; [reflexivity |].
  apply (Next_never_at_slot_0 lex_compare (mkIter 1 3 1) st_leaves);
    [vm_compute; reflexivity | cbn; lia].
Defined.

(** The results on codecs, fresh trees and trees of one level. *)
Lemma LeafSlotParse_layout_at_key_a :
  LeafSlotParse demo_pgoff (leaf_slot_of key_a val_1)
  = Ok (mkLeafSlot key_a val_1).
Proof.
  apply (LeafSlotParse_layout demo_pgoff (leaf_slot_of key_a val_1)
           (mkLeafSlot key_a val_1)).
  exists (le_bytes demo_pgoff 16). repeat split.
Defined.

Lemma leaf_codec_round_trip_16_at_key_a :
  exists s,
    leaf_slot_bytes demo_pgoff zero_memory (mkLeafSlot key_a val_1) = Ok s
    /\ length s = LeafSlotSize demo_pgoff (mkLeafSlot key_a val_1)
    /\ LeafSlotParse demo_pgoff s = Ok (mkLeafSlot key_a val_1).
Proof.
  apply (leaf_codec_round_trip_16 demo_pgoff zero_memory key_a val_1);
    [unfold demo_pgoff; lia | reflexivity | reflexivity].
Defined.

Lemma InnerSlotSerialize_layout_at_key_a17 :
  inner_slot_bytes zero_memory (mkInnerSlot 3 key_a17)
  = Ok (le_bytes 4 3 ++ firstn 16 key_a17
          ++ mem_read zero_memory 20 (length key_a17 - 16)).
Proof.
  apply (InnerSlotSerialize_layout zero_memory 3 key_a17). cbn. lia.
Defined.

Lemma meta_fields_at_st_one :
  let st := st_one zero_memory in
  let st' := snd (UpdateRoot demo_tree 7 st) in
  fst (Root demo_tree st') = Ok (wrap32 7)
  /\ fst (LevelNum demo_tree st') = fst (LevelNum demo_tree st)
  /\ fst (meta_tuple_num demo_tree st') = fst (meta_tuple_num demo_tree st).
Proof.
  apply (proj1 (meta_fields_do_not_overlap demo_tree (st_one zero_memory)
                  (snd (UpdateRoot demo_tree 7 (st_one zero_memory)))) 7).
  vm_compute. reflexivity.
Defined.


Lemma Get_on_a_created_tree_at_empty :
  fst ((do t <- Create demo_page lex_compare; Get demo_pgoff t key_a) ∅)
  = Ok None.
Proof.
  apply (Get_on_a_created_tree demo_pgoff demo_page lex_compare ∅ key_a);
    [unfold demo_page; lia | reflexivity].
Defined.

Lemma Create_then_Destroy_at_st_one :
  (do t <- Create demo_page lex_compare; Destroy 0 t) (st_one zero_memory)
  = (Ok tt, st_one zero_memory).
Proof.
  apply (Create_then_Destroy 0 demo_page lex_compare (st_one zero_memory));
    [unfold demo_page; lia | reflexivity].
Defined.

Lemma Destroy_one_level_at_st_two :
  exists st',
    Destroy 0 demo_tree (st_two zero_memory) = (Ok tt, st')
    /\ st' !! 2 = None /\ st' !! meta_pgid_ demo_tree = None
    /\ forall id, id <> 2 -> id <> meta_pgid_ demo_tree ->
                  st' !! id = st_two zero_memory !! id.
Proof.
  eapply (Destroy_one_level 0 demo_tree (st_two zero_memory) 2);
    vm_compute; reflexivity.
Defined.

Lemma Insert_one_level_at_st_one :
  exists i,
    fst (find_slot_id demo_pgoff demo_absent demo_tree 2 key_b
           (st_one zero_memory)) = Ok i
    /\ (i <= 1)%nat
    /\ st_two zero_memory
       = <[2 := SortedPg
                  (mkSortedPage
                     (insert_at i (leaf_slot_of key_b val_2)
                        [leaf_slot_of key_a val_1])
                     (repeat x00 8))]> (st_one zero_memory).
Proof.
  refine (proj2 (Insert_one_level demo_pgoff demo_page zero_memory demo_absent
                   demo_tree key_b val_2 (leaf_slot_of key_b val_2)
                   (st_one zero_memory) (st_two zero_memory) 2
                   (mkSortedPage [leaf_slot_of key_a val_1] (repeat x00 8))
                   true _ _ _ _ _ _));
    vm_compute; reflexivity.
Defined.

Lemma Delete_one_level_at_st_two :
  exists i sl,
    nth_error [leaf_slot_of key_a val_1; leaf_slot_of key_b val_2] i = Some sl
    /\ leaf_cmp demo_pgoff demo_tree sl key_a = Ok Eq
    /\ snd (demo_Delete 0 0 0 demo_tree key_a (st_two zero_memory))
       = <[2 := SortedPg
                  (mkSortedPage
                     (delete_at i
                        [leaf_slot_of key_a val_1; leaf_slot_of key_b val_2])
                     (repeat x00 8))]> (st_two zero_memory).
Proof.
  refine (Delete_one_level demo_pgoff lex_compare 0 0 0 demo_tree key_a
            (st_two zero_memory)
            (snd (demo_Delete 0 0 0 demo_tree key_a (st_two zero_memory))) 2
            (mkSortedPage [leaf_slot_of key_a val_1; leaf_slot_of key_b val_2]
               (repeat x00 8)) _ _ _ _);
    vm_compute; reflexivity.
Defined.


Lemma Delete_agrees_with_Get_at_st_one :
  fst (demo_Get demo_tree key_b (st_one zero_memory)) = Ok None.
Proof.
  apply (proj1 (Delete_agrees_with_Get demo_pgoff lex_compare 0 0 0 demo_tree
                  key_b (st_one zero_memory))).
  vm_compute. reflexivity.
Defined.

Lemma Take_at_st_two :
  let st := st_two zero_memory in
  let st' := snd (Take demo_pgoff lex_compare 0 0 0 demo_tree key_a st) in
  fst (Get demo_pgoff demo_tree key_a st) = Ok (Some val_1)
  /\ (exists b, Delete demo_pgoff lex_compare 0 0 0 demo_tree key_a st
                = (Ok b, st'))
  /\ (Some val_1 = None -> st' = st).
Proof.
  apply (Take_is_Get_then_Delete demo_pgoff lex_compare 0 0 0 demo_tree key_a
           (st_two zero_memory)).
  vm_compute. reflexivity.
Defined.

Lemma Insert_never_frees_at_st_two :
  is_Some (st_three zero_memory !! 2).
Proof.
  apply (Insert_never_frees demo_pgoff demo_page zero_memory demo_absent
           demo_tree key_c val_3 (st_two zero_memory) 2).
  vm_compute. eauto.
Defined.

Lemma Delete_and_Destroy_never_allocate_at_st_two :
  snd (demo_Delete 0 0 0 demo_tree key_a (st_two zero_memory)) !! 7 = None
  /\ snd (Destroy 0 demo_tree (st_two zero_memory)) !! 7 = None.
Proof.
  apply (Delete_and_Destroy_never_allocate demo_pgoff lex_compare 0 0 0
           demo_tree key_a (st_two zero_memory) 7).
  vm_compute. reflexivity.
Defined.

Lemma mutators_keep_tuple_num_at_st_one :
  let st := st_one zero_memory in
  fst (meta_tuple_num demo_tree
         (snd (Insert demo_pgoff demo_page zero_memory demo_absent demo_tree
                 key_a val_2 st))) = Ok 0
  /\ fst (meta_tuple_num demo_tree
            (snd (Delete demo_pgoff lex_compare 0 0 0 demo_tree key_a st)))
     = Ok 0
  /\ fst (meta_tuple_num demo_tree
            (snd (Update demo_pgoff demo_page lex_compare zero_memory
                    demo_absent 0 0 0 demo_tree key_a val_2 st))) = Ok 0
  /\ fst (meta_tuple_num demo_tree
            (snd (Take demo_pgoff lex_compare 0 0 0 demo_tree key_a st)))
     = Ok 0.
Proof.
  apply (mutators_keep_tuple_num demo_pgoff demo_page lex_compare zero_memory
           demo_absent 0 0 0 demo_tree key_a val_2 (st_one zero_memory) 0).
  vm_compute. reflexivity.
Defined.

(** The results on scans, the largest key and the printers. *)
Lemma false_means_untouched_at_st_one :
  snd (Update demo_pgoff demo_page lex_compare zero_memory demo_absent 0 0 0
         demo_tree key_b val_2 (st_one zero_memory))
  = st_one zero_memory.
Proof.
  apply (proj2 (false_means_untouched demo_pgoff demo_page lex_compare
                  zero_memory demo_absent 0 0 0 demo_tree key_b val_2
                  (st_one zero_memory))).
  vm_compute. reflexivity.
Defined.

Lemma InnerLargestKey_at_st_leaves_text :
  InnerLargestKey demo_pgoff demo_tree 2 1 st_leaves_text
  = (do l <- LargestLeaf demo_tree 2 1;
     do leaf <- GetLeafPage demo_tree l;
     LeafLargestKey demo_pgoff leaf) st_leaves_text.
Proof.
  apply (InnerLargestKey_is_key_of_LargestLeaf demo_pgoff demo_tree 2 1
           st_leaves_text).
  lia.
Defined.

Lemma MaxKey_one_level_at_st_two :
  exists sl s,
    nth_error [leaf_slot_of key_a val_1; leaf_slot_of key_b val_2] (2 - 1)
    = Some sl
    /\ LeafSlotParse demo_pgoff sl = Ok s /\ key s = key_b.
Proof.
  refine (MaxKey_one_level demo_pgoff lex_compare 2 0 10 demo_tree
            (st_two zero_memory) 2
            (mkSortedPage [leaf_slot_of key_a val_1; leaf_slot_of key_b val_2]
               (repeat x00 8)) key_b _ _ _ _);
    vm_compute; reflexivity.
Defined.

Lemma IncreaseTupleNum_at_st_two :
  let st := st_two zero_memory in
  let st' := snd (IncreaseTupleNum lex_compare 2 0 10 demo_tree 1 st) in
  exists n,
    fst (TupleNum lex_compare 2 0 10 demo_tree st) = Ok n
    /\ (1 < 0 -> wrap64 (- 1) <= n)
    /\ fst (meta_tuple_num demo_tree st') = Ok (wrap64 (n + 1))
    /\ fst (LevelNum demo_tree st') = fst (LevelNum demo_tree st)
    /\ fst (Root demo_tree st') = fst (Root demo_tree st).
Proof.
  apply (IncreaseTupleNum_writes_the_count lex_compare 2 0 10 demo_tree 1
           (st_two zero_memory)).
  vm_compute. reflexivity.
Defined.

Lemma printer_oct_injective_at_key_a :
  firstn 16 key_a17 = key_a.
Proof.
  apply (printer_oct_injective [] (firstn 16 key_a17) key_a).
  vm_compute. reflexivity.
Defined.

Lemma digits_are_characters_at_11 : to_hex 11 = Ok "b"%byte.
Proof.
  apply (proj1 (proj2 (digits_are_characters 11))). lia.
Defined.
